(** * Job status inference (scripts/inferStatus.js)

    A shallow embedding of the status inference engine and the properties
    it has.  The script exists in two variants: the scoring variant
    (keyword and role signals, role caps, monotone cursor) and the
    explicit-status-only variant (carries the last known status forward).

    Conventions of the embedding.
    - Text is ASCII: a JavaScript string is a [string] of bytes, and
      [toLowerCase] folds the letters A-Z only.
    - A row (a JavaScript object built by [readInputFile], every value a
      string) is a [gmap string string]; a field that is absent reads as
      [None] ([undefined]).
    - A [Map] or [Set] whose iteration order the code relies on is a list
      in insertion order; a [Map] that is only looked up is a [gmap].
    - A score is kept in half points: every weight of the tables is a
      multiple of 0.5 (keyword 1, roles 2.5 and 3), sums of which binary
      floating point represents exactly, so twice the score is an integer
      and all comparisons are preserved.
    - [Date.parse] and [String.prototype.localeCompare] belong to the
      platform; they are parameters of the sort.
    - [Array.prototype.sort] is the sort of node's engine, by the pairs it
      asks the comparator about: the comparator of the script does not
      order rows without a date consistently with rows that have one, and
      the arrangement then is the engine's. *)

From Stdlib Require Import ZArith Ascii String List Lia.
From stdpp Require Import base option list sorting strings gmap fin_maps.

Local Open Scope Z_scope.
Local Open Scope nat_scope.

(** ** Field names and the fallback status *)

Definition JOB_ID_FIELD : string := "job_number".
Definition STATUS_FIELD : string := "job_status_at_dwr_create".
Definition DATE_FIELD : string := "date".
Definition DWR_FIELD : string := "dwrNumber".
Definition DEFAULT_FALLBACK_STATUS : string := "Estimating".
Definition DESCRIPTION_FIELD : string := "timeCard.description".
Definition ROLE_FIELD : string := "labour.name".

(** ** Strings *)

Module Str.

Definition toLowerAscii (c : ascii) : ascii :=
  let n := nat_of_ascii c in
  if (65 <=? n) && (n <=? 90) then ascii_of_nat (n + 32) else c.

Fixpoint toLowerCase (s : string) : string :=
  match s with
  | EmptyString => EmptyString
  | String c s' => String (toLowerAscii c) (toLowerCase s')
  end.

(** The ASCII white space that [trim] strips. *)
Definition isWhiteSpace (c : ascii) : bool :=
  let n := nat_of_ascii c in
  ((9 <=? n) && (n <=? 13)) || (n =? 32).

(** [s.trim().length > 0]: some character of [s] is not white space. *)
Fixpoint trimmedNonEmpty (s : string) : bool :=
  match s with
  | EmptyString => false
  | String c s' => negb (isWhiteSpace c) || trimmedNonEmpty s'
  end.

(** [text.includes(pat)]. *)
Fixpoint includes (pat text : string) : bool :=
  String.prefix pat text ||
  match text with
  | EmptyString => false
  | String _ text' => includes pat text'
  end.

End Str.

(** ** Regular expressions

    Every pattern of the tables is an alternation of literal words, with
    or without the [i] flag; the one optional character, in [/paused?/],
    is spelled as the two alternatives it stands for.  The literals are
    lower case, so matching under [i] lowers the subject. *)

Record RegExp := { alternatives : list string; ignoreCase : bool }.

Definition re (alts : list string) : RegExp :=
  {| alternatives := alts; ignoreCase := false |}.
Definition rei (alts : list string) : RegExp :=
  {| alternatives := alts; ignoreCase := true |}.

(** [pattern.test(text)] for a pattern without the [g] flag (no state). *)
Definition test (pattern : RegExp) (text : string) : bool :=
  let subject := if ignoreCase pattern then Str.toLowerCase text else text in
  existsb (fun alt => Str.includes alt subject) (alternatives pattern).

(** ** The tables *)

Definition STATUS_KEYWORDS : list (string * list RegExp) :=
  [ ("Estimating",
      [re ["estimate"]; re ["proposal"]; re ["bid"]; re ["pricing"]; re ["rfp"]]);
    ("Job Setup", [re ["setup"]; re ["conversion"]; re ["onboard"]; re ["kickoff"]]);
    ("Ready to Schedule",
      [re ["ready to schedule"]; re ["project conversion"]; re ["mobilize"]]);
    ("Scheduled", [re ["schedule"]; re ["scheduled"]; re ["booking"]; re ["calendar"]]);
    ("On Hold", [re ["hold"]; re ["paused"; "pause"]]);
    ("Field Work in Progress",
      [re ["travel"]; re ["site"]; re ["field"]; re ["collect"]; re ["survey"];
       re ["scan"]; re ["locat"]; re ["inspection"]; re ["safety"]]);
    ("Ready to Draft",
      [re ["processing"]; re ["register"]; re ["ortho"]; re ["clean"]; re ["qc"];
       re ["convert"]]);
    ("Drafting",
      [re ["draft"]; re ["survbase"]; re ["cad"]; re ["markup"]; re ["dwg"]; re ["plan"]]);
    ("Ready to Check", [re ["ready to check"]; re ["package ready"]; re ["awaiting check"]]);
    ("Checking", [re ["check"]; re ["qa"]; re ["review"]]);
    ("Final Submission Sent",
      [re ["submission"]; re ["deliver"]; re ["sent"]; re ["deliverable"];
       re ["package issued"]]);
    ("Ready to Invoice", [re ["ready to invoice"]; re ["billing"]; re ["billable"]]);
    ("Invoiced", [re ["invoic"]]);
    ("Complete",
      [re ["project complete"]; re ["job complete"]; re ["closeout"];
       re ["final invoice"]; re ["finalized"]]) ]%string.

(** A role hint; [hint_weight] is in half points (3 is 6, 2.5 is 5). *)
Record RoleHint := {
  hint_match : RegExp;
  hint_statuses : list string;
  hint_weight : Z
}.

Definition ROLE_STATUS_MAP : list RoleHint :=
  [ {| hint_match := rei ["estimating"; "proposal"; "bd"; "business development"];
       hint_statuses := ["Estimating"; "Job Setup"]; hint_weight := 6 |};
    {| hint_match := rei ["administrator"; "admin"];
       hint_statuses := ["Job Setup"; "Ready to Schedule"]; hint_weight := 5 |};
    {| hint_match := rei ["survey"; "field"; "technician"; "technologist"];
       hint_statuses := ["Field Work in Progress"]; hint_weight := 6 |};
    {| hint_match := rei ["data processing"; "processing"; "lidar"];
       hint_statuses := ["Ready to Draft"; "Drafting"]; hint_weight := 6 |};
    {| hint_match := rei ["cad"; "draft"; "designer"; "survbase"; "markup"];
       hint_statuses := ["Drafting"; "Ready to Check"]; hint_weight := 6 |};
    {| hint_match := rei ["manager"; "project manager"; "pm"];
       hint_statuses := ["Checking"; "Final Submission Sent"]; hint_weight := 5 |};
    {| hint_match := rei ["accounting"; "billing"; "finance"; "ap"; "ar"; "invoice"];
       hint_statuses := ["Ready to Invoice"; "Invoiced"]; hint_weight := 6 |} ]%string.

Record RoleCap := { cap_match : RegExp; cap_maxStatus : string }.

Definition ROLE_MAX_STATUS : list RoleCap :=
  [ {| cap_match := rei ["survey"; "field"; "technician"; "technologist"];
       cap_maxStatus := "Field Work in Progress" |};
    {| cap_match := rei ["data processing"; "processing"; "lidar"];
       cap_maxStatus := "Drafting" |};
    {| cap_match := rei ["cad"; "draft"; "designer"; "survbase"; "markup"];
       cap_maxStatus := "Drafting" |};
    {| cap_match := rei ["manager"; "project manager"; "pm"];
       cap_maxStatus := "Final Submission Sent" |} ]%string.

(** Modelled from the spec: [data/job_status_order.csv], the canonical
    status order that [loadStatusOrder] reads, is not among the sources.
    The spec's glossary gives it as Estimating, Job Setup, ..., Complete,
    and the comment on [STATUS_KEYWORDS] says the table's order matches
    the canonical order; this is the table's order. *)
Definition canonicalOrder : list string := fst <$> STATUS_KEYWORDS.

(** ** Insertion-ordered maps and sets

    A JavaScript [Map] iterates in insertion order, and [set] on a key
    that is present keeps its place. *)

Section OrderedMap.
Context {K V : Type} `{EqDecision K}.

Fixpoint Map_get (k : K) (m : list (K * V)) : option V :=
  match m with
  | [] => None
  | (k', v) :: m' => if decide (k = k') then Some v else Map_get k m'
  end.

Definition Map_has (k : K) (m : list (K * V)) : bool :=
  bool_decide (is_Some (Map_get k m)).

Fixpoint Map_set (k : K) (v : V) (m : list (K * V)) : list (K * V) :=
  match m with
  | [] => [(k, v)]
  | (k', v') :: m' =>
      if decide (k = k') then (k, v) :: m' else (k', v') :: Map_set k v m'
  end.

(** [m.set(k, f(m.get(k)))] on a key that is present; a key that is
    absent is left absent. *)
Definition Map_update (k : K) (f : V → V) (m : list (K * V)) : list (K * V) :=
  match Map_get k m with
  | Some v => Map_set k (f v) m
  | None => m
  end.

Definition Set_has (k : K) (s : list K) : bool := bool_decide (k ∈ s).

Definition Set_add (k : K) (s : list K) : list K :=
  if Set_has k s then s else s ++ [k].

(** [new Set(items)] *)
Definition Set_from (items : list K) : list K :=
  foldl (fun s k => Set_add k s) [] items.
End OrderedMap.

(** [list.forEach((x, i) => ...)] visits the elements with their
    positions. *)
Definition withIndex {A} (l : list A) : list (nat * A) := imap pair l.

(** ** Status order model *)

Definition buildStatusIndex (orderList : list string) : gmap string nat :=
  foldl (fun index '(i, status) => <[status := i]> index) ∅ (withIndex orderList).

Definition buildStatusSet (orderList : list string) : list string :=
  let set := Set_from orderList in
  if negb (Set_has DEFAULT_FALLBACK_STATUS set) && bool_decide (0 < length orderList)
  then Set_add (default ""%string (orderList !! 0)) set
  else set.

(** ** Rows *)

Abbreviation Row := (gmap string string).

(** [row[field] || ''] *)
Definition orEmpty (value : option string) : string := default ""%string value.

Definition isEmptyRow (row : Row) : bool :=
  bool_decide (map_Forall (fun _ value => value = ""%string) row).

Definition combineRowText (row : Row) : string :=
  let parts :=
    [ row !! STATUS_FIELD; row !! ROLE_FIELD; row !! DESCRIPTION_FIELD;
      Some (orEmpty (row !! "additionalFields"%string)) ] in
  let kept :=
    omap (fun p => match p with
                   | Some s => if Str.trimmedNonEmpty s then Some s else None
                   | None => None
                   end) parts in
  Str.toLowerCase (String.concat " " kept).

(** ** Signal scorer *)

(** Scores are a [Map] from status to score, in the order the statuses
    were first set.  [scoreStatuses] is only called with
    [statusIndex = buildStatusIndex statusOrder], under which every status
    that [statusIndex] has is a key of the scores ([scores_has_indexed]),
    so that [scores.get(status)] is a number wherever the code adds to
    it. *)
Definition scoreStatuses (row : Row) (statusOrder : list string)
    (statusIndex : gmap string nat) : list (string * Z) :=
  let scores0 := foldl (fun scores status => Map_set status 0%Z scores) [] statusOrder in
  let text := combineRowText row in
  let scores1 :=
    foldl (fun scores '(status, patterns) =>
             if bool_decide (is_Some (statusIndex !! status)) then
               let score :=
                 foldl (fun score pattern =>
                          if test pattern text then (score + 2)%Z else score)
                       0%Z patterns in
               if (0 <? score)%Z
               then Map_update status (fun s => (s + score)%Z) scores
               else scores
             else scores)
          scores0 STATUS_KEYWORDS in
  foldl (fun scores hint =>
           if test (hint_match hint) (orEmpty (row !! ROLE_FIELD)) then
             foldl (fun scores status =>
                      if bool_decide (is_Some (statusIndex !! status))
                      then Map_update status (fun s => (s + hint_weight hint)%Z) scores
                      else scores)
                   scores (hint_statuses hint)
           else scores)
        scores1 ROLE_STATUS_MAP.

(** One pass of the [forEach] in [roleCapIndex]; [None] is [Infinity]. *)
Definition capStep (role : string) (statusIndex : gmap string nat)
    (capIdx : option nat) (cap : RoleCap) : option nat :=
  if test (cap_match cap) role then
    match statusIndex !! cap_maxStatus cap with
    | Some idx => Some (match capIdx with Some c => c `min` idx | None => idx end)
    | None => capIdx
    end
  else capIdx.

Definition roleCapIndex (row : Row) (statusIndex : gmap string nat)
    (floorIdx : nat) : nat :=
  let capIdx :=
    foldl (capStep (orEmpty (row !! ROLE_FIELD)) statusIndex) None ROLE_MAX_STATUS in
  match capIdx with
  | None => floorIdx
  | Some c => floorIdx `max` c
  end.

Record Best := { best_idx : nat; best_status : string; best_score : Z }.

(** One pass of the [forEach] in [pickStatusFromSignals].  A status that
    [statusIndex] lacks cannot be a key of the scores when
    [statusIndex = buildStatusIndex statusOrder]; the pass skips it. *)
Definition pickStep (floorIdx capIdx : nat) (statusIndex : gmap string nat)
    (best : option Best) (entry : string * Z) : option Best :=
  let '(status, score) := entry in
  match statusIndex !! status with
  | None => best
  | Some idx =>
      if (idx <? floorIdx) || (capIdx <? idx) then best
      else if (score <=? 0)%Z then best
      else
        let found := {| best_idx := idx; best_status := status; best_score := score |} in
        match best with
        | None => Some found
        | Some b =>
            if (best_score b <? score)%Z
               || ((score =? best_score b)%Z && (best_idx b <? idx))
            then Some found else best
        end
  end.

Definition pickStatusFromSignals (row : Row) (floorIdx capIdx : nat)
    (statusOrder : list string) (statusIndex : gmap string nat) : option nat :=
  let scores := scoreStatuses row statusOrder statusIndex in
  best_idx <$> foldl (pickStep floorIdx capIdx statusIndex) None scores.

(** ** Progression tracker (scoring variant) *)

Record Entry := { row : Row; index : nat }.

(** [current] is a status or [undefined]; an assignment is what [current]
    was when the row was committed. *)
Record Cursor := { current : option string; currentIdx : nat }.

(** [statusOrder[currentIdx] || current] *)
Definition statusAtOr (statusOrder : list string) (idx : nat)
    (current : option string) : option string :=
  match statusOrder !! idx with
  | Some s => if decide (s = ""%string) then current else Some s
  | None => current
  end.

(** The cursor after a row that is not empty. *)
Definition advance (statusOrder : list string) (statusIndex : gmap string nat)
    (cur : Cursor) (r : Row) : Cursor :=
  let capIdx := roleCapIndex r statusIndex (currentIdx cur) in
  let status := r !! STATUS_FIELD in
  let explicitIdx := status ≫= (statusIndex !!.) in
  let currentIdx1 :=
    match explicitIdx with
    | Some e => (currentIdx cur `max` e) `min` capIdx
    | None => currentIdx cur
    end in
  let signalIdx := pickStatusFromSignals r currentIdx1 capIdx statusOrder statusIndex in
  let currentIdx2 :=
    match signalIdx with
    | Some s => (currentIdx1 `max` s) `min` capIdx
    | None => currentIdx1
    end in
  {| current := statusAtOr statusOrder currentIdx2 (current cur);
     currentIdx := currentIdx2 |}.

(** The body of [entries.forEach] in [inferStatuses]: the cursor of the
    group and the assignments of the run, before and after one entry. *)
Definition processEntry (statusOrder : list string) (statusIndex : gmap string nat)
    (st : Cursor * gmap nat (option string)) (e : Entry)
    : Cursor * gmap nat (option string) :=
  let '(cur, assignments) := st in
  if isEmptyRow (row e) then (cur, <[index e := Some ""%string]> assignments)
  else
    let cur' := advance statusOrder statusIndex cur (row e) in
    (cur', <[index e := current cur']> assignments).

(** The cursor a group starts from. *)
Definition initialCursor (statusSet : list string) (statusIndex : gmap string nat)
    : Cursor :=
  let current :=
    if Set_has DEFAULT_FALLBACK_STATUS statusSet
    then Some DEFAULT_FALLBACK_STATUS else head statusSet in
  {| current := current; currentIdx := default 0 (current ≫= (statusIndex !!.)) |}.

(** ** Row grouping and ordering *)

(** [rows.forEach((row, index) => ...)] sees each row as an entry. *)
Definition toEntries (rows : list Row) : list Entry :=
  imap (fun i r => {| row := r; index := i |}) rows.

Definition jobOf (e : Entry) : option string := row e !! JOB_ID_FIELD.

(** The body of the grouping loop: [groups] maps a job identifier (a
    string or [undefined]) to the entries pushed so far. *)
Definition groupStep (groups : list (option string * list Entry)) (e : Entry)
    : list (option string * list Entry) :=
  let jobId := jobOf e in
  let groups' := if Map_has jobId groups then groups else Map_set jobId [] groups in
  Map_update jobId (fun entries => entries ++ [e]) groups'.

Definition groupRows (rows : list Row) : list (option string * list Entry) :=
  foldl groupStep [] (toEntries rows).

(** [Array.prototype.sort] as node's engine runs it (V8's TimSort, node 11
    and later).  The engine sorts an
    array of fewer than 64 elements in two steps: [countAndMakeRun] finds
    the run the array starts with, ascending or strictly descending, and
    reverses a descending one; [binaryInsertionSort] then takes every
    later element in turn and puts it, by binary search, among the
    elements before it.  The comparator is asked about the pairs the two
    steps ask about, in their order of arguments, so that the arrangement
    is the engine's also where the comparator does not order the elements
    consistently.  A longer array the engine cuts into runs of 32 to 64
    elements, sorts each in this way and merges them; the model goes on
    inserting, which gives the same arrangement wherever the comparator
    orders the elements consistently: the sort is stable, and there is
    one stable sorted arrangement. *)
Section Sort.
Context {A : Type} (compareFn : A → A → Z).

(** The loop of [countAndMakeRun] after the first two elements: how many
    more elements go on with the run. *)
Fixpoint runRest (isDescending : bool) (previousElement : A) (rest : list A) : nat :=
  match rest with
  | [] => 0
  | currentElement :: rest' =>
      let order := compareFn currentElement previousElement in
      if (if isDescending then (0 <=? order)%Z else (order <? 0)%Z) then 0
      else S (runRest isDescending currentElement rest')
  end.

(** [countAndMakeRun(0, length)]: the array with its first run made
    ascending, and the length of the run. *)
Definition countAndMakeRun (workArray : list A) : list A * nat :=
  match workArray with
  | elementHigh :: elementLow :: rest =>
      let isDescending := (compareFn elementLow elementHigh <? 0)%Z in
      let runLength := 2 + runRest isDescending elementLow rest in
      (if isDescending
       then reverse (take runLength workArray) ++ drop runLength workArray
       else workArray,
       runLength)
  | _ => (workArray, 1)
  end.

(** The binary search of [binaryInsertionSort] for the place of the pivot
    in [workArray[left, right)]; every turn halves the range, so that
    [right - left] turns are enough ([fuel]). *)
Fixpoint insertionPoint (fuel : nat) (workArray : list A) (pivot : A)
    (left right : nat) : nat :=
  match fuel with
  | 0 => left
  | S fuel' =>
      if left <? right then
        let mid := left + (right - left) / 2 in
        match workArray !! mid with
        | Some element =>
            if (compareFn pivot element <? 0)%Z
            then insertionPoint fuel' workArray pivot left mid
            else insertionPoint fuel' workArray pivot (mid + 1) right
        | None => left
        end
      else left
  end.

(** One turn of the outer loop of [binaryInsertionSort]: the element at
    [start] moves to its place among the elements before it. *)
Definition insertPivot (workArray : list A) (start : nat) : list A :=
  match workArray !! start with
  | Some pivot =>
      let left := insertionPoint start workArray pivot 0 start in
      let sorted := take start workArray in
      take left sorted ++ pivot :: drop left sorted ++ drop (S start) workArray
  | None => workArray
  end.

(** [binaryInsertionSort(0, startArg, high)] *)
Definition binaryInsertionSort (workArray : list A) (startArg high : nat) : list A :=
  let start := if decide (startArg = 0) then 1 else startArg in
  foldl insertPivot workArray (seq start (high - start)).

Definition sort (l : list A) : list A :=
  if length l <? 2 then l
  else
    let '(workArray, runLength) := countAndMakeRun l in
    binaryInsertionSort workArray runLength (length l).
End Sort.

(** The skeleton both variants share: every group starts from [init],
    sorts its entries and runs [body] over them, all groups writing into
    one assignment map. *)
Definition forEachGroup {St : Type} (compareFn : Entry → Entry → Z) (init : St)
    (body : St * gmap nat (option string) → Entry → St * gmap nat (option string))
    (groups : list (option string * list Entry)) : gmap nat (option string) :=
  foldl (fun assignments '(_, entries) =>
           (foldl body (init, assignments) (sort compareFn entries)).2)
        ∅ groups.

Section Platform.
(** [Date.parse]: the time value of a date string, [None] for [NaN]. *)
Variable Date_parse : string → option Z.
(** [a.localeCompare(b)]: negative, zero or positive. *)
Variable localeCompare : string → string → Z.

(** [Date.parse(undefined)] is [NaN]. *)
Definition safeDate (value : option string) : option Z := value ≫= Date_parse.

(** The comparator of [entries.sort]. *)
Definition compareEntries (a b : Entry) : Z :=
  let dateA := safeDate (row a !! DATE_FIELD) in
  let dateB := safeDate (row b !! DATE_FIELD) in
  let byDwr :=
    let dwrA := orEmpty (row a !! DWR_FIELD) in
    let dwrB := orEmpty (row b !! DWR_FIELD) in
    if decide (dwrA ≠ dwrB) then localeCompare dwrA dwrB
    else (Z.of_nat (index a) - Z.of_nat (index b))%Z in
  match dateA, dateB with
  | Some timeA, Some timeB =>
      if decide (timeA ≠ timeB) then (timeA - timeB)%Z else byDwr
  | _, _ => byDwr
  end.

(** The scoring variant. *)
Definition inferStatuses (rows : list Row) (statusSet : list string)
    (statusOrder : list string) (statusIndex : gmap string nat)
    : gmap nat (option string) :=
  forEachGroup compareEntries (initialCursor statusSet statusIndex)
    (processEntry statusOrder statusIndex) (groupRows rows).

(** What [main] computes from the status order and the rows. *)
Definition run (orderList : list string) (rows : list Row) : gmap nat (option string) :=
  inferStatuses rows (buildStatusSet orderList) orderList (buildStatusIndex orderList).

End Platform.

(** ** The explicit-status-only variant *)

Module ExplicitOnly.

(** The body of [entries.forEach]: [current] is the status carried
    forward. *)
Definition processEntry (statusSet : list string)
    (st : option string * gmap nat (option string)) (e : Entry)
    : option string * gmap nat (option string) :=
  let '(current, assignments) := st in
  let current' :=
    match row e !! STATUS_FIELD with
    | Some status => if Set_has status statusSet then Some status else current
    | None => current
    end in
  (current', <[index e := current']> assignments).

Definition initialStatus (statusSet : list string) : option string :=
  if Set_has DEFAULT_FALLBACK_STATUS statusSet
  then Some DEFAULT_FALLBACK_STATUS else head statusSet.

Definition inferStatuses (Date_parse : string → option Z)
    (localeCompare : string → string → Z)
    (rows : list Row) (statusSet : list string) : gmap nat (option string) :=
  forEachGroup (compareEntries Date_parse localeCompare) (initialStatus statusSet)
    (processEntry statusSet) (groupRows rows).

Definition run (Date_parse : string → option Z)
    (localeCompare : string → string → Z)
    (orderList : list string) (rows : list Row) : gmap nat (option string) :=
  inferStatuses Date_parse localeCompare rows (buildStatusSet orderList).

End ExplicitOnly.

(** * Reading and writing the files

    The rest of the script: the command line, the tabular text of the
    input, of the status order and of the output, and [main].  The file
    system, the [path] module and [process] are the platform's; they are
    parameters, a call of the file system that throws included, and what
    [main] does is the [Outcome] it comes to with them.
    A byte that is not ASCII is never one of the characters the parser
    and the writer look for, so the text may be UTF-8. *)

(** ** Command line *)

(** [args]: a property that was never set, or set to [undefined], is
    [None]. *)
Record Args := { args_input : option string; args_outputDir : option string }.

(** The loop of [parseArgs] from position [i]: [rest] is [argv] from [i]
    on.  A flag takes the next word, whatever it is, and skips it; as the
    last word it takes [undefined]. *)
Fixpoint parseArgsFrom (rest : list string) (args : Args) : Args :=
  match rest with
  | [] => args
  | arg :: rest' =>
      if decide (arg = "--input"%string ∨ arg = "-i"%string) then
        match rest' with
        | [] => {| args_input := None; args_outputDir := args_outputDir args |}
        | value :: rest'' =>
            parseArgsFrom rest''
              {| args_input := Some value; args_outputDir := args_outputDir args |}
        end
      else if decide (arg = "--output-dir"%string ∨ arg = "-o"%string) then
        match rest' with
        | [] => {| args_input := args_input args; args_outputDir := None |}
        | value :: rest'' =>
            parseArgsFrom rest''
              {| args_input := args_input args; args_outputDir := Some value |}
        end
      else parseArgsFrom rest' args
  end.

Definition parseArgs (argv : list string) : Args :=
  parseArgsFrom (drop 2 argv) {| args_input := None; args_outputDir := None |}.

(** ** Tabular text *)

Definition QUOTE : ascii := "034".
Definition COMMA : ascii := ",".
Definition LF : ascii := "010".
Definition CR : ascii := "013".

(** [field += char] *)
Definition addChar (field : string) (char : ascii) : string :=
  (field +:+ String char EmptyString)%string.

(** The loop of [parseCSV] over what is left of the content, with the
    rows, the field and the row built so far; it returns them as they are
    when the content ends. *)
Fixpoint parseLoop (content : string) (rows : list (list string)) (field : string)
    (fields : list string) (inQuotes : bool) : list (list string) * string * list string :=
  match content with
  | EmptyString => (rows, field, fields)
  | String char rest =>
      if inQuotes then
        if decide (char = QUOTE) then
          match rest with
          | String next rest' =>
              if decide (next = QUOTE)
              then parseLoop rest' rows (addChar field QUOTE) fields true
              else parseLoop rest rows field fields false
          | EmptyString => parseLoop rest rows field fields false
          end
        else parseLoop rest rows (addChar field char) fields true
      else if decide (char = QUOTE) then parseLoop rest rows field fields true
      else if decide (char = COMMA) then
        parseLoop rest rows EmptyString (fields ++ [field]) false
      else if decide (char = LF) then
        parseLoop rest (rows ++ [fields ++ [field]]) EmptyString [] false
      else if decide (char = CR) then parseLoop rest rows field fields false
      else parseLoop rest rows (addChar field char) fields false
  end.

Definition parseCSV (content : string) : list (list string) :=
  let '(rows, field, fields) := parseLoop content [] EmptyString [] false in
  if (0 <? String.length field) || (0 <? length fields)
  then rows ++ [fields ++ [field]]
  else rows.

(** The test of [stringifyValue]: the value has a quote, a comma, a line
    feed or a carriage return. *)
Fixpoint needsQuote (value : string) : bool :=
  match value with
  | EmptyString => false
  | String c rest =>
      bool_decide (c = QUOTE ∨ c = COMMA ∨ c = LF ∨ c = CR) || needsQuote rest
  end.

(** The [replace] of [stringifyValue]: every quote of the value, twice. *)
Fixpoint doubleQuotes (value : string) : string :=
  match value with
  | EmptyString => EmptyString
  | String c rest =>
      if decide (c = QUOTE) then String QUOTE (String QUOTE (doubleQuotes rest))
      else String c (doubleQuotes rest)
  end.

Definition stringifyValue (value : string) : string :=
  if needsQuote value
  then String QUOTE (doubleQuotes value +:+ String QUOTE EmptyString)
  else value.

(** ** Trimming *)

Fixpoint trimStart (s : string) : string :=
  match s with
  | EmptyString => EmptyString
  | String c rest => if Str.isWhiteSpace c then trimStart rest else s
  end.

Fixpoint trimEnd (s : string) : string :=
  match s with
  | EmptyString => EmptyString
  | String c rest =>
      match trimEnd rest with
      | EmptyString => if Str.isWhiteSpace c then EmptyString else String c EmptyString
      | kept => String c kept
      end
  end.

(** [s.trim()], on ASCII white space. *)
Definition trim (s : string) : string := trimEnd (trimStart s).

(** [header.indexOf(name)]: [None] is [-1]. *)
Fixpoint indexOf (name : string) (header : list string) : option nat :=
  match header with
  | [] => None
  | h :: rest => if decide (h = name) then Some 0 else S <$> indexOf name rest
  end.

(** ** Rows as objects *)

(** [obj[h] = value] on an object literal: an own property, but for the
    name [__proto__], where the assignment runs the setter of
    [Object.prototype], which ignores a string. *)
Definition setField (obj : Row) (h value : string) : Row :=
  if decide (h = "__proto__"%string) then obj else <[h := value]> obj.

(** The object [readInputFile] builds from the values of one data row:
    a header past the end of the values gets the empty string. *)
Definition rowObject (headers : list string) (values : list string) : Row :=
  foldl (fun obj '(i, h) => setField obj h (default EmptyString (values !! i)))
        ∅ (withIndex headers).

(** What a function of the script can throw. *)
Inductive Thrown :=
| FsError
| TypeError
| Error (message : string).

(** How [main] ends: it prints a message on the error stream and exits,
    it throws, or it has made the output directory and written [content]
    at [outputPath], and prints a message. *)
Inductive Outcome :=
| Exit (code : nat) (message : string)
| Throw (thrown : Thrown)
| Written (outputPath content message : string).

(** [!value] is false, for a string or [undefined]. *)
Definition truthy (value : option string) : bool :=
  match value with
  | Some s => negb (String.eqb s EmptyString)
  | None => false
  end.

Definition USAGE : string :=
  "Usage: node scripts/inferStatus.js --input <path/to/input.csv> [--output-dir <dir>]".

Section Files.
(** [fs.readFileSync(path, 'utf8')]: [None] where it throws. *)
Variable readFileSync : string → option string.
Variable existsSync : string → bool.
(** [fs.mkdirSync(dir, { recursive: true })] and
    [fs.writeFileSync(path, content, 'utf8')]: [true] where the call
    returns, [false] where it throws. *)
Variable mkdirSync : string → bool.
Variable writeFileSync : string → string → bool.
(** [path.resolve(process.cwd(), p)], [path.join(a, b)],
    [path.basename(p)] and [path.dirname(p)]. *)
Variable resolveFromCwd : string → string.
Variable path_join : string → string → string.
Variable path_basename : string → string.
Variable path_dirname : string → string.
(** The two paths the script computes from [__dirname] when it loads. *)
Variables (ORDER_FILE DEFAULT_OUTPUT_DIR : string).
(** [String(Object.prototype[name])] for the names [Object.prototype]
    has ([constructor], [toString], [__proto__], ...), [None] for every
    other name: what a row answers for a name it has no own property
    for. *)
Variable inheritedText : string → option string.
(** [Date.parse] and [localeCompare], as before. *)
Variable Date_parse : string → option Z.
Variable localeCompare : string → string → Z.

Definition loadStatusOrder : Thrown + list string :=
  match readFileSync ORDER_FILE with
  | None => inl FsError
  | Some orderContent =>
      match parseCSV orderContent with
      | [] => inl TypeError
      | header :: rows =>
          match indexOf "job_status" header with
          | None => inl (Error "job_status column not found in job_status_order.csv")
          | Some statusIdx =>
              inr ((fun r => trim (default EmptyString (r !! statusIdx))) <$>
                   filter (fun r => statusIdx < length r ∧
                                    0 < String.length (trim (default EmptyString (r !! statusIdx))))
                          rows)
          end
      end
  end.

(** [headers] is [undefined] when the file has no row at all. *)
Definition readInputFile (inputPath : string) : Thrown + (option (list string) * list Row) :=
  match readFileSync inputPath with
  | None => inl FsError
  | Some content =>
      match parseCSV content with
      | [] => inr (None, [])
      | headerRow :: dataRows => inr (Some headerRow, rowObject headerRow <$> dataRows)
      end
  end.

(** [String(h === 'iStatus' ? assignments.get(index) ?? '' : row[h] ?? '')] *)
Definition outputValue (assignments : gmap nat (option string)) (r : Row) (index : nat)
    (h : string) : string :=
  if decide (h = "iStatus"%string) then
    match assignments !! index with
    | Some (Some status) => status
    | _ => EmptyString
    end
  else
    match r !! h with
    | Some value => value
    | None => default EmptyString (inheritedText h)
    end.

(** [writeOutput]: the text it lays out and has the file system write at
    [outputPath], after making the directory of the path.  Spreading
    headers that are [undefined] throws before anything is laid out; the
    two calls of the file system throw where the file system refuses. *)
Definition writeOutput (headers : option (list string)) (rows : list Row)
    (assignments : gmap nat (option string)) (outputPath : string) : Thrown + string :=
  match headers with
  | None => inl TypeError
  | Some headers =>
      let outputHeaders := headers ++ ["iStatus"%string] in
      let lines :=
        String.concat (String COMMA EmptyString) (stringifyValue <$> outputHeaders)
        :: imap (fun index r =>
                   String.concat (String COMMA EmptyString)
                     (stringifyValue <$> (outputValue assignments r index <$> outputHeaders)))
                rows in
      let content := String.concat (String LF EmptyString) lines in
      if negb (mkdirSync (path_dirname outputPath)) then inl FsError
      else if negb (writeFileSync outputPath content) then inl FsError
      else inr content
  end.

(** [main], with the inference of one of the two variants. *)
Definition mainWith (infer : list Row → list string → gmap nat (option string))
    (argv : list string) : Outcome :=
  let args := parseArgs argv in
  if negb (truthy (args_input args)) then Exit 1 USAGE
  else
    let inputPath := resolveFromCwd (default EmptyString (args_input args)) in
    let outputDir :=
      if truthy (args_outputDir args)
      then resolveFromCwd (default EmptyString (args_outputDir args))
      else DEFAULT_OUTPUT_DIR in
    let outputPath := path_join outputDir (path_basename inputPath) in
    if negb (existsSync inputPath)
    then Exit 1 ("Input file not found: " +:+ inputPath)
    else
      match loadStatusOrder with
      | inl thrown => Throw thrown
      | inr orderList =>
          match readInputFile inputPath with
          | inl thrown => Throw thrown
          | inr (headers, rows) =>
              let assignments := infer rows orderList in
              match writeOutput headers rows assignments outputPath with
              | inl thrown => Throw thrown
              | inr content =>
                  Written outputPath content ("Wrote inferred statuses to " +:+ outputPath)
              end
          end
      end.

(** [main] of the scoring variant. *)
Definition main (argv : list string) : Outcome :=
  mainWith (fun rows orderList =>
              inferStatuses Date_parse localeCompare rows (buildStatusSet orderList)
                orderList (buildStatusIndex orderList))
           argv.

(** [main] of the explicit-status-only variant. *)
Definition mainExplicitOnly (argv : list string) : Outcome :=
  mainWith (fun rows orderList =>
              ExplicitOnly.inferStatuses Date_parse localeCompare rows
                (buildStatusSet orderList))
           argv.
End Files.

(** * Vocabulary of the properties *)

(** A status that [pickStatusFromSignals] may select: it has a score,
    the score is positive, and its rank lies between the floor and the
    cap, both included. *)
Definition candidate (scores : list (string * Z)) (statusIndex : gmap string nat)
    (floorIdx capIdx : nat) (status : string) (idx : nat) (score : Z) : Prop :=
  (status, score) ∈ scores ∧ statusIndex !! status = Some idx ∧
  floorIdx ≤ idx ≤ capIdx ∧ (0 < score)%Z.

(** What the selection loop holds after the scores [seen]: nothing when
    no candidate was seen, else a candidate that no candidate seen beats,
    by score first and by rank among equal scores. *)
Definition bestOf (seen : list (string * Z)) (statusIndex : gmap string nat)
    (floorIdx capIdx : nat) (best : option Best) : Prop :=
  match best with
  | None => ∀ status idx score, ¬ candidate seen statusIndex floorIdx capIdx status idx score
  | Some b =>
      candidate seen statusIndex floorIdx capIdx (best_status b) (best_idx b) (best_score b) ∧
      ∀ status idx score, candidate seen statusIndex floorIdx capIdx status idx score →
        (score < best_score b)%Z ∨ (score = best_score b ∧ idx ≤ best_idx b)
  end.

(** The rank of a committed status. *)
Definition rankOf (statusIndex : gmap string nat) (status : option string) : option nat :=
  status ≫= (statusIndex !!.).

(** A cursor in step with the index: its position is the rank of some
    status, and its status has a rank, which is not above its position. *)
Definition cursorOk (statusIndex : gmap string nat) (cur : Cursor) : Prop :=
  (∃ s, statusIndex !! s = Some (currentIdx cur)) ∧
  ∃ rank, rankOf statusIndex (current cur) = Some rank ∧ rank ≤ currentIdx cur.

(** [assignments.set(index, status)] *)
Definition record (assignments : gmap nat (option string)) (w : nat * option string)
    : gmap nat (option string) :=
  <[w.1 := w.2]> assignments.

(** The writes of a loop over [entries] whose body moves the state by
    [next] and sets the assignment of the entry to [out], in order. *)
Fixpoint writes {St : Type} (next : St → Entry → St) (out : St → Entry → option string)
    (st : St) (entries : list Entry) : list (nat * option string) :=
  match entries with
  | [] => []
  | e :: rest => (index e, out st e) :: writes next out (next st e) rest
  end.

(** The scoring variant's loop in that form: the cursor after an entry,
    and the status committed for it. *)
Definition nextCursor (statusOrder : list string) (statusIndex : gmap string nat)
    (cur : Cursor) (e : Entry) : Cursor :=
  if isEmptyRow (row e) then cur else advance statusOrder statusIndex cur (row e).

Definition committed (statusOrder : list string) (statusIndex : gmap string nat)
    (cur : Cursor) (e : Entry) : option string :=
  if isEmptyRow (row e) then Some ""%string
  else current (advance statusOrder statusIndex cur (row e)).

(** A cap entry applies to a row when its pattern matches the role. *)
Definition capApplies (cap : RoleCap) (r : Row) : bool :=
  test (cap_match cap) (orEmpty (r !! ROLE_FIELD)).

(** No cap entry applies to the row. *)
Definition uncapped (r : Row) : bool :=
  forallb (fun cap => negb (capApplies cap r)) ROLE_MAX_STATUS.

(** The ranks of the cap entries that apply to a row, and the least of a
    list of ranks: the rank of the most restrictive cap of the row. *)
Definition appliedCapRanks (statusIndex : gmap string nat) (r : Row) : list nat :=
  omap (fun cap => if capApplies cap r then statusIndex !! cap_maxStatus cap else None)
       ROLE_MAX_STATUS.

Definition leastRank (ranks : list nat) : option nat :=
  match ranks with
  | [] => None
  | rank :: rest => Some (foldr Nat.min rank rest)
  end.

(** The explicit-status-only loop as a state and an output: the status
    carried forward after an entry is also the status assigned to it. *)
Definition carried (statusSet : list string) (current : option string) (e : Entry)
    : option string :=
  match row e !! STATUS_FIELD with
  | Some status => if Set_has status statusSet then Some status else current
  | None => current
  end.

(** A platform to run the examples on: no date parses, and
    [localeCompare] orders strings by their bytes. *)
Definition noDates (value : string) : option Z := None.

Definition byteCompare (a b : string) : Z :=
  match String.compare a b with
  | Lt => (-1)%Z
  | Eq => 0%Z
  | Gt => 1%Z
  end.


(** The comparator of [entries.sort] on the keys of two rows alone, the
    date and then the DWR number: [None] where the comparator falls
    through to the original positions. *)
Definition compareKeys (Date_parse : string → option Z)
    (localeCompare : string → string → Z) (ra rb : Row) : option Z :=
  let dateA := safeDate Date_parse (ra !! DATE_FIELD) in
  let dateB := safeDate Date_parse (rb !! DATE_FIELD) in
  let byDwr :=
    let dwrA := orEmpty (ra !! DWR_FIELD) in
    let dwrB := orEmpty (rb !! DWR_FIELD) in
    if decide (dwrA ≠ dwrB) then Some (localeCompare dwrA dwrB) else None in
  match dateA, dateB with
  | Some timeA, Some timeB =>
      if decide (timeA ≠ timeB) then Some (timeA - timeB)%Z else byDwr
  | _, _ => byDwr
  end.

(** The keys put [ra] before [rb]. *)
Definition keyBefore (Date_parse : string → option Z)
    (localeCompare : string → string → Z) (ra rb : Row) : bool :=
  match compareKeys Date_parse localeCompare ra rb with
  | Some z => (z <? 0)%Z
  | None => false
  end.

Definition sameJob (ra rb : Row) : bool :=
  bool_decide (ra !! JOB_ID_FIELD = rb !! JOB_ID_FIELD).

(** The keys order the rows of every job strictly: of two rows of a job
    at different positions the keys put exactly one before the other (so
    the comparator never reaches the original positions, and never
    answers both ways), and what the keys say is transitive within a
    job. *)
Definition keysOrderStrictly (Date_parse : string → option Z)
    (localeCompare : string → string → Z) (rows : list Row) : bool :=
  let before := keyBefore Date_parse localeCompare in
  let es := toEntries rows in
  forallb (fun a =>
    forallb (fun b =>
      ((index a =? index b) || negb (sameJob (row a) (row b))
       || xorb (before (row a) (row b)) (before (row b) (row a)))
      && forallb (fun c =>
           implb (sameJob (row a) (row b) && sameJob (row b) (row c)
                  && before (row a) (row b) && before (row b) (row c))
                 (before (row a) (row c))) es) es) es.

(** The same, read on the rows: no row occurs twice, of two different
    rows of a job the keys put exactly one before the other, and the
    keys are transitive within a job. *)
Definition strictRows (Date_parse : string → option Z)
    (localeCompare : string → string → Z) (rows : list Row) : Prop :=
  let before := keyBefore Date_parse localeCompare in
  NoDup rows ∧
  (∀ ra rb, ra ∈ rows → rb ∈ rows → ra ≠ rb →
            ra !! JOB_ID_FIELD = rb !! JOB_ID_FIELD →
            xorb (before ra rb) (before rb ra) = true) ∧
  (∀ ra rb rc, ra ∈ rows → rb ∈ rows → rc ∈ rows →
               ra !! JOB_ID_FIELD = rb !! JOB_ID_FIELD →
               rb !! JOB_ID_FIELD = rc !! JOB_ID_FIELD →
               before ra rb = true → before rb rc = true → before ra rc = true).

(** The text of a table as [writeOutput] lays it out: the values of a
    row stringified and joined by commas, the rows joined by line feeds. *)
Definition csvLine (values : list string) : string :=
  String.concat (String COMMA EmptyString) (stringifyValue <$> values).

Definition csvText (table : list (list string)) : string :=
  String.concat (String LF EmptyString) (csvLine <$> table).

(** The content has no quote character, and the content without its
    carriage returns. *)
Fixpoint quoteFree (content : string) : bool :=
  match content with
  | EmptyString => true
  | String c rest => negb (bool_decide (c = QUOTE)) && quoteFree rest
  end.

Fixpoint withoutCR (content : string) : string :=
  match content with
  | EmptyString => EmptyString
  | String c rest => if decide (c = CR) then withoutCR rest else String c (withoutCR rest)
  end.

(** The values of a data row under the headers: cut or filled with empty
    strings to the number of headers. *)
Definition padTo (headers values : list string) : list string :=
  (fun i => default EmptyString (values !! i)) <$> seq 0 (length headers).

(** The text written for the assignment of a row. *)
Definition statusText (assignment : option (option string)) : string :=
  match assignment with
  | Some (Some status) => status
  | _ => EmptyString
  end.

(** The explicit status of an entry, when the status set has it, and the
    last such status among some entries. *)
Definition recognised (statusSet : list string) (e : Entry) : option string :=
  match row e !! STATUS_FIELD with
  | Some status => if Set_has status statusSet then Some status else None
  | None => None
  end.

Definition lastRecognised (statusSet : list string) (entries : list Entry)
    : option string :=
  last (omap (recognised statusSet) entries).

(** The points a row earns for a status, in half points as the scores
    are: two for every keyword pattern of the status that its text
    matches, and the weight of a role hint that its role matches for every
    listing of the status in the hint. *)
Definition sumZ (l : list Z) : Z := foldr Z.add 0%Z l.

Definition keywordPoints (status text : string) : Z :=
  sumZ ((fun '(s, patterns) =>
           if decide (s = status)
           then sumZ ((fun pattern => if test pattern text then 2%Z else 0%Z) <$> patterns)
           else 0%Z) <$> STATUS_KEYWORDS).

Definition rolePoints (status role : string) : Z :=
  sumZ ((fun hint =>
           if test (hint_match hint) role
           then sumZ ((fun s => if decide (s = status) then hint_weight hint else 0%Z)
                        <$> hint_statuses hint)
           else 0%Z) <$> ROLE_STATUS_MAP).

(** Two values of a field that differ at most in the case of their
    letters. *)
Definition sameUpToCase (a b : option string) : Prop :=
  Str.toLowerCase <$> a = Str.toLowerCase <$> b.

(** The table [writeOutput] lays out: the headers with [iStatus] after
    them, and for every row its values under those headers. *)
Definition outputTable (inheritedText : string → option string) (headers : list string)
    (rows : list Row) (assignments : gmap nat (option string)) : list (list string) :=
  (headers ++ ["iStatus"%string])
  :: imap (fun index r =>
             outputValue inheritedText assignments r index <$> (headers ++ ["iStatus"%string]))
          rows.

(** * Properties *)

(** ** Status order model *)

Section StatusIndex.
Implicit Types (orderList : list string) (status : string).

Lemma foldl_index_lookup (l : list (nat * string)) (m : gmap string nat) status i :
  foldl (fun index '(i, status) => <[status := i]> index) m l !! status = Some i →
  (i, status) ∈ l ∨ m !! status = Some i.
Proof.
  revert m. induction l as [|[j s] l IH]; intros m; simpl; [by right|].
  intros H. destruct (IH _ H) as [Hin|Hm].
  - left. by right.
  - destruct (decide (s = status)) as [->|Hne].
    + rewrite lookup_insert_eq in Hm. injection Hm as ->. left. by left.
    + rewrite lookup_insert_ne in Hm by done. by right.
Qed.

(** A rank that the index gives is a position of the status in the
    order. *)
Lemma buildStatusIndex_lookup orderList status i :
  buildStatusIndex orderList !! status = Some i → orderList !! i = Some status.
Proof.
  unfold buildStatusIndex, withIndex. intros H.
  apply foldl_index_lookup in H as [Hin|Hm]; [|by rewrite lookup_empty in Hm].
  apply elem_of_lookup_imap in Hin as (j & y & Heq & Hj). by simplify_eq.
Qed.

Lemma foldl_index_is_Some (l : list (nat * string)) (m : gmap string nat) status :
  is_Some (foldl (fun index '(i, status) => <[status := i]> index) m l !! status) ↔
  status ∈ l.*2 ∨ is_Some (m !! status).
Proof.
  revert m. induction l as [|[j s] l IH]; intros m; simpl.
  - rewrite elem_of_nil. tauto.
  - rewrite IH, elem_of_cons. destruct (decide (s = status)) as [->|Hne].
    + rewrite lookup_insert_eq. split; [auto|]. intros _. right. by eexists.
    + rewrite lookup_insert_ne by done. split; [tauto|].
      intros [[?|?]|?]; [congruence|tauto|tauto].
Qed.

(** The index ranks exactly the statuses of the order. *)
Lemma buildStatusIndex_is_Some orderList status :
  is_Some (buildStatusIndex orderList !! status) ↔ status ∈ orderList.
Proof.
  unfold buildStatusIndex, withIndex. rewrite foldl_index_is_Some, lookup_empty.
  rewrite fmap_imap. unfold compose; simpl.
  assert (imap (fun (_ : nat) (x : string) => x) orderList = orderList) as ->.
  { clear. induction orderList as [|x l IH]; [done|]. simpl. f_equal. apply IH. }
  split; [intros [?|[? ?]]; [done|done]|auto].
Qed.
End StatusIndex.

(** ** Insertion-ordered maps and sets *)

Section OrderedMapFacts.
Context {K V : Type} `{EqDecision K}.
Implicit Types (m : list (K * V)) (s : list K).

Lemma Map_set_keys k v m :
  (Map_set k v m).*1 = if bool_decide (k ∈ m.*1) then m.*1 else m.*1 ++ [k].
Proof.
  induction m as [|[k' v'] m IH]; csimpl; [done|].
  destruct (decide (k = k')) as [->|Hne]; csimpl.
  - rewrite bool_decide_eq_true_2 by left. done.
  - rewrite IH. destruct (bool_decide (k ∈ m.*1)) eqn:E.
    + apply bool_decide_eq_true_1 in E.
      rewrite bool_decide_eq_true_2 by (by right). done.
    + apply bool_decide_eq_false_1 in E.
      rewrite bool_decide_eq_false_2; [done|].
      rewrite elem_of_cons. tauto.
Qed.

Lemma Map_get_is_Some k m : is_Some (Map_get k m) ↔ k ∈ m.*1.
Proof.
  induction m as [|[k' v'] m IH]; csimpl.
  - rewrite elem_of_nil. split; [intros [? ?]; done|done].
  - rewrite elem_of_cons. destruct (decide (k = k')) as [->|Hne].
    + split; [auto|]. intros _. by eexists.
    + rewrite IH. split; [auto|]. intros [?|?]; [done|done].
Qed.

Lemma Map_update_keys k f m : (Map_update k f m).*1 = m.*1.
Proof.
  unfold Map_update. destruct (Map_get k m) eqn:E; [|done].
  rewrite Map_set_keys. rewrite bool_decide_eq_true_2; [done|].
  apply Map_get_is_Some. by eexists.
Qed.

Lemma Set_from_elem_of (items : list K) k : k ∈ Set_from items ↔ k ∈ items.
Proof.
  unfold Set_from.
  assert (∀ acc, k ∈ foldl (fun s k => Set_add k s) acc items ↔ k ∈ acc ∨ k ∈ items) as H.
  { induction items as [|x l IH]; intros acc; csimpl.
    - rewrite elem_of_nil. tauto.
    - rewrite IH, elem_of_cons. unfold Set_add, Set_has.
      case_bool_decide as Hx; [|rewrite elem_of_app, list_elem_of_singleton].
      + split; [tauto|]. intros [?|[->|?]]; auto.
      + tauto. }
  rewrite H, elem_of_nil. tauto.
Qed.

Lemma Set_from_head (items : list K) : head (Set_from items) = head items.
Proof.
  unfold Set_from. destruct items as [|x l]; [done|]. simpl.
  assert (∀ acc y, head acc = Some y →
            head (foldl (fun s k => Set_add k s) acc l) = Some y) as H.
  { induction l as [|z l IH]; intros acc y Hy; csimpl; [done|].
    apply IH. unfold Set_add. destruct (Set_has z acc); [done|].
    destruct acc; simpl in *; [done|done]. }
  by apply H.
Qed.
End OrderedMapFacts.


(** ** Role caps *)

Section RoleCap.
Variables (role : string) (statusIndex : gmap string nat).

(** What the cap loop has found after some entries: nothing when no
    entry seen so far applies, else the least rank among those that
    do. *)
Lemma capStep_fold (caps : list RoleCap) (acc : option nat) :
  match foldl (capStep role statusIndex) acc caps with
  | None =>
      acc = None ∧
      ∀ cap, cap ∈ caps → test (cap_match cap) role = true →
             statusIndex !! cap_maxStatus cap = None
  | Some m =>
      (acc = Some m ∨
       ∃ cap, cap ∈ caps ∧ test (cap_match cap) role = true ∧
              statusIndex !! cap_maxStatus cap = Some m) ∧
      (∀ a, acc = Some a → m ≤ a) ∧
      (∀ cap r, cap ∈ caps → test (cap_match cap) role = true →
                statusIndex !! cap_maxStatus cap = Some r → m ≤ r)
  end.
Proof.
  revert acc. induction caps as [|cap caps IH]; intros acc; simpl.
  - destruct acc as [a|].
    + split; [by left|]. split; [by intros ? [= ->]|]. intros ?? H. by apply elem_of_nil in H.
    + split; [done|]. intros ? H. by apply elem_of_nil in H.
  - specialize (IH (capStep role statusIndex acc cap)).
    destruct (foldl _ _ caps) as [m|].
    + destruct IH as (Hsrc & Hacc & Hall). unfold capStep in Hsrc, Hacc.
      destruct (test (cap_match cap) role) eqn:Ht.
      * destruct (statusIndex !! cap_maxStatus cap) as [idx|] eqn:Hidx.
        -- split; [|split].
           ++ destruct Hsrc as [Hm|(c & Hc & Hct & Hci)].
              ** injection Hm as Hm. destruct acc as [a|].
                 --- destruct (Nat.min_dec a idx) as [E|E]; rewrite E in Hm.
                     +++ left. by f_equal.
                     +++ right. exists cap. rewrite <-Hm. split; [by left|done].
                 --- right. exists cap. rewrite <-Hm. split; [by left|done].
              ** right. exists c. split; [by right|done].
           ++ intros a ->. specialize (Hacc _ eq_refl). lia.
           ++ intros c r Hc Hct Hcr. apply elem_of_cons in Hc as [->|Hc].
              ** rewrite Hidx in Hcr. injection Hcr as <-.
                 destruct acc as [a|]; specialize (Hacc _ eq_refl); lia.
              ** eauto.
        -- split; [|split].
           ++ destruct Hsrc as [Hm|(c & Hc & Hct & Hci)]; [by left|].
              right. exists c. split; [by right|done].
           ++ done.
           ++ intros c r Hc Hct Hcr. apply elem_of_cons in Hc as [->|Hc]; [congruence|eauto].
      * split; [|split].
        -- destruct Hsrc as [Hm|(c & Hc & Hct & Hci)]; [by left|].
           right. exists c. split; [by right|done].
        -- done.
        -- intros c r Hc Hct Hcr. apply elem_of_cons in Hc as [->|Hc]; [congruence|eauto].
    + destruct IH as (Hacc & Hall). unfold capStep in Hacc.
      destruct (test (cap_match cap) role) eqn:Ht.
      * destruct (statusIndex !! cap_maxStatus cap) as [idx|] eqn:Hidx; [done|].
        split; [done|]. intros c Hc Hct. apply elem_of_cons in Hc as [->|Hc]; [done|eauto].
      * split; [done|]. intros c Hc Hct. apply elem_of_cons in Hc as [->|Hc]; [congruence|eauto].
Qed.
End RoleCap.

Section RoleCapIndex.
Variables (r : Row) (statusIndex : gmap string nat) (floorIdx : nat).

Lemma roleCapIndex_ge_floor : floorIdx ≤ roleCapIndex r statusIndex floorIdx.
Proof. unfold roleCapIndex. destruct (foldl _ _ _); lia. Qed.

(** No entry applies: the cap is the floor. *)
Lemma roleCapIndex_unmatched :
  (∀ cap, cap ∈ ROLE_MAX_STATUS →
          test (cap_match cap) (orEmpty (r !! ROLE_FIELD)) = false) →
  roleCapIndex r statusIndex floorIdx = floorIdx.
Proof.
  intros Hno. unfold roleCapIndex.
  pose proof (capStep_fold (orEmpty (r !! ROLE_FIELD)) statusIndex ROLE_MAX_STATUS None) as H.
  destruct (foldl _ _ _) as [m|]; [|done].
  destruct H as ([?|(c & Hc & Hct & _)] & _); [done|].
  rewrite Hno in Hct by done. done.
Qed.

(** An entry applies: the cap is the least rank among the entries that
    apply, and the floor when that is lower. *)
Lemma roleCapIndex_matched m :
  (∃ cap, cap ∈ ROLE_MAX_STATUS ∧ test (cap_match cap) (orEmpty (r !! ROLE_FIELD)) = true ∧
          statusIndex !! cap_maxStatus cap = Some m) →
  (∀ cap k, cap ∈ ROLE_MAX_STATUS →
            test (cap_match cap) (orEmpty (r !! ROLE_FIELD)) = true →
            statusIndex !! cap_maxStatus cap = Some k → m ≤ k) →
  roleCapIndex r statusIndex floorIdx = floorIdx `max` m.
Proof.
  intros (c & Hc & Hct & Hcm) Hleast. unfold roleCapIndex.
  pose proof (capStep_fold (orEmpty (r !! ROLE_FIELD)) statusIndex ROLE_MAX_STATUS None) as H.
  destruct (foldl _ _ _) as [m'|].
  - destruct H as ([?|(c' & Hc' & Hct' & Hcm')] & _ & Hall); [done|].
    pose proof (Hall _ _ Hc Hct Hcm). pose proof (Hleast _ _ Hc' Hct' Hcm'). lia.
  - destruct H as (_ & Hnone). rewrite (Hnone _ Hc Hct) in Hcm. done.
Qed.
End RoleCapIndex.


(** ** Signal scorer *)

Section Scores.
Variables (r : Row) (statusOrder : list string) (statusIndex : gmap string nat).

Lemma foldl_keys_preserved {B} (step : list (string * Z) → B → list (string * Z))
    (l : list B) (scores : list (string * Z)) :
  (∀ sc x, (step sc x).*1 = sc.*1) → (foldl step scores l).*1 = scores.*1.
Proof.
  intros Hstep. revert scores. induction l as [|x l IH]; intros scores; csimpl; [done|].
  by rewrite IH, Hstep.
Qed.

Lemma zero_scores_keys (l : list string) (sc : list (string * Z)) :
  (foldl (fun scores status => Map_set status 0%Z scores) sc l).*1 =
  foldl (fun s k => Set_add k s) sc.*1 l.
Proof.
  revert sc. induction l as [|x l IH]; intros sc; csimpl; [done|].
  rewrite IH, Map_set_keys. done.
Qed.

(** The scores have one entry for each status of the order, in the order
    of first occurrence. *)
Lemma scoreStatuses_keys :
  (scoreStatuses r statusOrder statusIndex).*1 = Set_from statusOrder.
Proof.
  unfold scoreStatuses. rewrite foldl_keys_preserved.
  - rewrite foldl_keys_preserved; [apply zero_scores_keys|].
    intros sc [status patterns]. destruct (bool_decide _); [|done].
    destruct (_ <? _)%Z; [|done]. apply Map_update_keys.
  - intros sc hint. destruct (test _ _); [|done].
    apply foldl_keys_preserved. intros sc' status.
    destruct (bool_decide _); [|done]. apply Map_update_keys.
Qed.

End Scores.

(** Under the index of the order, the statuses that have a rank are the
    statuses that have a score: [scores.get] never misses where the code
    adds to a score, and the selection loop finds a rank for every key. *)
Lemma scores_has_indexed (r : Row) (statusOrder : list string) (status : string) :
  is_Some (buildStatusIndex statusOrder !! status) ↔
  is_Some (Map_get status (scoreStatuses r statusOrder (buildStatusIndex statusOrder))).
Proof.
  rewrite buildStatusIndex_is_Some, Map_get_is_Some, scoreStatuses_keys.
  by rewrite Set_from_elem_of.
Qed.

Section Pick.
Variables (statusIndex : gmap string nat) (floorIdx capIdx : nat).

Lemma candidate_snoc seen entry status idx score :
  candidate (seen ++ [entry]) statusIndex floorIdx capIdx status idx score ↔
  candidate seen statusIndex floorIdx capIdx status idx score ∨
  (entry = (status, score) ∧ statusIndex !! status = Some idx ∧
   floorIdx ≤ idx ≤ capIdx ∧ (0 < score)%Z).
Proof.
  unfold candidate. rewrite elem_of_app, list_elem_of_singleton.
  split; [intros ([?|?] & ? & ? & ?)|intros [(? & ? & ? & ?)|(? & ? & ? & ?)]]; auto 10.
Qed.

Lemma pickStep_bestOf seen best entry :
  bestOf seen statusIndex floorIdx capIdx best →
  bestOf (seen ++ [entry]) statusIndex floorIdx capIdx
         (pickStep floorIdx capIdx statusIndex best entry).
Proof.
  destruct entry as [status score]. unfold pickStep.
  destruct (statusIndex !! status) as [idx|] eqn:Hidx.
  2:{ destruct best as [b|]; simpl.
      - intros [Hc Hall]. split; [apply candidate_snoc; by left|].
        intros s i sc [?|([= -> ->] & ? & _)]%candidate_snoc; [eauto|congruence].
      - intros Hnone s i sc [?|([= -> ->] & ? & _)]%candidate_snoc; [by eapply Hnone|congruence]. }
  destruct ((idx <? floorIdx) || (capIdx <? idx)) eqn:Hrange.
  { apply orb_true_iff in Hrange. rewrite !Nat.ltb_lt in Hrange.
    destruct best as [b|]; simpl.
    - intros [Hc Hall]. split; [apply candidate_snoc; by left|].
      intros s i sc [?|([= -> ->] & ? & ? & _)]%candidate_snoc; [eauto|].
      simplify_eq. lia.
    - intros Hnone s i sc [?|([= -> ->] & ? & ? & _)]%candidate_snoc; [by eapply Hnone|].
      simplify_eq. lia. }
  apply orb_false_iff in Hrange. rewrite !Nat.ltb_ge in Hrange.
  destruct (score <=? 0)%Z eqn:Hpos.
  { apply Z.leb_le in Hpos.
    destruct best as [b|]; simpl.
    - intros [Hc Hall]. split; [apply candidate_snoc; by left|].
      intros s i sc [?|([= -> ->] & ? & ? & ?)]%candidate_snoc; [eauto|lia].
    - intros Hnone s i sc [?|([= -> ->] & ? & ? & ?)]%candidate_snoc; [by eapply Hnone|lia]. }
  apply Z.leb_gt in Hpos.
  assert (candidate (seen ++ [(status, score)]) statusIndex floorIdx capIdx status idx score)
    as Hnew by (apply candidate_snoc; right; repeat split; [done|lia..]).
  destruct best as [b|]; simpl.
  - intros [Hc Hall].
    destruct ((best_score b <? score)%Z || ((score =? best_score b)%Z && (best_idx b <? idx)))
      eqn:Hbeats; simpl.
    + split; [done|].
      apply orb_true_iff in Hbeats.
      rewrite andb_true_iff, Z.ltb_lt, Z.eqb_eq, Nat.ltb_lt in Hbeats.
      intros s i sc [Hold|([= -> ->] & ? & ? & ?)]%candidate_snoc.
      * destruct (Hall _ _ _ Hold); lia.
      * simplify_eq. right. lia.
    + split; [apply candidate_snoc; by left|].
      apply orb_false_iff in Hbeats.
      rewrite andb_false_iff, Z.ltb_ge, Z.eqb_neq, Nat.ltb_ge in Hbeats.
      intros s i sc [Hold|([= -> ->] & ? & ? & ?)]%candidate_snoc; [eauto|].
      simplify_eq. lia.
  - intros Hnone. split; [done|].
    intros s i sc [Hold|([= -> ->] & ? & ? & ?)]%candidate_snoc.
    + by apply Hnone in Hold.
    + simplify_eq. right. lia.
Qed.

Lemma pickStep_fold scores seen best :
  bestOf seen statusIndex floorIdx capIdx best →
  bestOf (seen ++ scores) statusIndex floorIdx capIdx
         (foldl (pickStep floorIdx capIdx statusIndex) best scores).
Proof.
  revert seen best. induction scores as [|entry scores IH]; intros seen best Hb; simpl.
  - by rewrite app_nil_r.
  - rewrite cons_middle, app_assoc. apply IH. by apply pickStep_bestOf.
Qed.
End Pick.

(** ** The cursor *)

Section Advance.
Variable statusOrder : list string.
Local Abbreviation statusIndex := (buildStatusIndex statusOrder).
Implicit Types (cur : Cursor) (r : Row).

Lemma roleCapIndex_ranked r floorIdx :
  roleCapIndex r statusIndex floorIdx = floorIdx ∨
  ∃ s, statusIndex !! s = Some (roleCapIndex r statusIndex floorIdx).
Proof.
  unfold roleCapIndex.
  pose proof (capStep_fold (orEmpty (r !! ROLE_FIELD)) statusIndex ROLE_MAX_STATUS None) as H.
  destruct (foldl _ _ _) as [m|]; [|by left].
  destruct H as ([?|(c & _ & _ & Hm)] & _); [done|].
  destruct (Nat.max_dec floorIdx m) as [->| ->]; [by left|right; eauto].
Qed.

Lemma pickStatusFromSignals_bestOf r floorIdx capIdx :
  bestOf (scoreStatuses r statusOrder statusIndex) statusIndex floorIdx capIdx
    (foldl (pickStep floorIdx capIdx statusIndex) None
           (scoreStatuses r statusOrder statusIndex)).
Proof.
  apply (pickStep_fold statusIndex floorIdx capIdx _ [] None).
  intros s i sc (Hin & _). by apply elem_of_nil in Hin.
Qed.

Lemma pickStatusFromSignals_range r floorIdx capIdx rank :
  pickStatusFromSignals r floorIdx capIdx statusOrder statusIndex = Some rank →
  floorIdx ≤ rank ≤ capIdx ∧ ∃ s, statusIndex !! s = Some rank.
Proof.
  unfold pickStatusFromSignals. pose proof (pickStatusFromSignals_bestOf r floorIdx capIdx) as H.
  destruct (foldl _ _ _) as [b|]; [|done]. simpl. intros [= <-].
  destruct H as ((_ & Hidx & Hrange & _) & _). eauto.
Qed.

(** The position of the cursor never moves back. *)
Lemma advance_currentIdx_le cur r : currentIdx cur ≤ currentIdx (advance statusOrder statusIndex cur r).
Proof.
  unfold advance; simpl.
  pose proof (roleCapIndex_ge_floor r statusIndex (currentIdx cur)).
  destruct (_ ≫= _); destruct (pickStatusFromSignals _ _ _ _ _); lia.
Qed.

(** Nor does it pass the cap of the row. *)
Lemma advance_currentIdx_cap cur r :
  currentIdx (advance statusOrder statusIndex cur r) ≤ roleCapIndex r statusIndex (currentIdx cur).
Proof.
  unfold advance; simpl.
  pose proof (roleCapIndex_ge_floor r statusIndex (currentIdx cur)).
  destruct (_ ≫= _); destruct (pickStatusFromSignals _ _ _ _ _); lia.
Qed.

Lemma advance_currentIdx_ranked cur r :
  (∃ s, statusIndex !! s = Some (currentIdx cur)) →
  ∃ s, statusIndex !! s = Some (currentIdx (advance statusOrder statusIndex cur r)).
Proof.
  intros Hcur. unfold advance; simpl.
  set (capIdx := roleCapIndex r statusIndex (currentIdx cur)).
  assert (∃ s, statusIndex !! s = Some capIdx) as Hcap.
  { destruct (roleCapIndex_ranked r (currentIdx cur)) as [E|?]; [|done].
    unfold capIdx. by rewrite E. }
  set (currentIdx1 := match r !! STATUS_FIELD ≫= (statusIndex !!.) with
                      | Some e => (currentIdx cur `max` e) `min` capIdx
                      | None => currentIdx cur
                      end).
  assert (∃ s, statusIndex !! s = Some currentIdx1) as H1.
  { unfold currentIdx1. destruct (r !! STATUS_FIELD ≫= _) as [e|] eqn:He; [|done].
    apply bind_Some in He as (st & _ & He).
    destruct (Nat.min_dec (currentIdx cur `max` e) capIdx) as [-> | ->]; [|done].
    destruct (Nat.max_dec (currentIdx cur) e) as [-> | ->]; eauto. }
  destruct (pickStatusFromSignals r currentIdx1 capIdx statusOrder statusIndex) as [sg|] eqn:Hs;
    [|done].
  apply pickStatusFromSignals_range in Hs as (_ & Hsg).
  destruct (Nat.min_dec (currentIdx1 `max` sg) capIdx) as [-> | ->]; [|done].
  destruct (Nat.max_dec currentIdx1 sg) as [-> | ->]; eauto.
Qed.

(** A step keeps the cursor in step with the index, and the rank of the
    status it commits is not below the rank of the status before. *)
Lemma advance_ok cur r :
  cursorOk statusIndex cur →
  cursorOk statusIndex (advance statusOrder statusIndex cur r) ∧
  ∃ rank rank',
    rankOf statusIndex (current cur) = Some rank ∧
    rankOf statusIndex (current (advance statusOrder statusIndex cur r)) = Some rank' ∧
    rank ≤ rank' ≤ currentIdx (advance statusOrder statusIndex cur r).
Proof.
  intros [Hpos (rank & Hrank & Hle)].
  pose proof (advance_currentIdx_ranked cur r Hpos) as [s' Hs'].
  pose proof (advance_currentIdx_le cur r) as Hmono.
  set (cur' := advance statusOrder statusIndex cur r) in *.
  assert (current cur' = statusAtOr statusOrder (currentIdx cur') (current cur)) as Hcur' by done.
  assert (∃ rank', rankOf statusIndex (current cur') = Some rank' ∧
                   rank ≤ rank' ≤ currentIdx cur') as (rank' & Hrank' & Hbounds).
  { rewrite Hcur'. unfold statusAtOr.
    rewrite (buildStatusIndex_lookup _ _ _ Hs').
    destruct (decide (s' = ""%string)); [exists rank; split; [done|lia]|].
    exists (currentIdx cur'). split; [done|lia]. }
  split.
  - split; [by exists s'|]. exists rank'. split; [done|lia].
  - by exists rank, rank'.
Qed.
End Advance.

(** The status set holds the statuses of the order, in the order of
    first occurrence: adding the first status never changes it. *)
Lemma buildStatusSet_eq (statusOrder : list string) :
  buildStatusSet statusOrder = Set_from statusOrder.
Proof.
  unfold buildStatusSet. destruct (_ && _) eqn:E; [|done].
  apply andb_true_iff in E as [_ E]. apply bool_decide_eq_true_1 in E.
  unfold Set_add, Set_has. case_bool_decide as Hin; [done|].
  exfalso. apply Hin. rewrite Set_from_elem_of.
  destruct statusOrder; simpl in *; [lia|]. by left.
Qed.

(** The cursor a group starts from is in step with the index. *)
Lemma initialCursor_ok (statusOrder : list string) :
  statusOrder ≠ [] →
  cursorOk (buildStatusIndex statusOrder)
           (initialCursor (buildStatusSet statusOrder) (buildStatusIndex statusOrder)).
Proof.
  intros Hne. rewrite buildStatusSet_eq.
  assert (∃ s, current (initialCursor (Set_from statusOrder)
                          (buildStatusIndex statusOrder)) = Some s ∧ s ∈ statusOrder)
    as (s & Hs & Hin).
  { unfold initialCursor; simpl. unfold Set_has. case_bool_decide as Hd.
    - exists DEFAULT_FALLBACK_STATUS. split; [done|]. by rewrite Set_from_elem_of in Hd.
    - rewrite Set_from_head. destruct statusOrder as [|s0 l]; [done|].
      exists s0. split; [done|by left]. }
  apply buildStatusIndex_is_Some in Hin as [c Hc].
  unfold cursorOk, initialCursor in *. simpl in *. rewrite Hs. simpl. rewrite Hc. simpl.
  split; [by exists s|]. exists c. split; [done|lia].
Qed.

(** ** Sorting *)

Section SortFacts.
Context {A : Type} (compareFn : A → A → Z).

Lemma insertPivot_Permutation (workArray : list A) (start : nat) :
  insertPivot compareFn workArray start ≡ₚ workArray.
Proof.
  unfold insertPivot. destruct (workArray !! start) as [pivot|] eqn:E; [|done].
  cbv zeta. set (left := insertionPoint _ _ _ _ _ _).
  rewrite <-Permutation_middle, app_assoc, take_drop, Permutation_middle.
  by rewrite take_drop_middle.
Qed.

Lemma binaryInsertionSort_Permutation (workArray : list A) (startArg high : nat) :
  binaryInsertionSort compareFn workArray startArg high ≡ₚ workArray.
Proof.
  unfold binaryInsertionSort. generalize (seq (if decide (startArg = 0) then 1 else startArg)
    (high - (if decide (startArg = 0) then 1 else startArg))). intros starts.
  revert workArray. induction starts as [|start starts IH]; intros workArray; [done|].
  simpl. by rewrite IH, insertPivot_Permutation.
Qed.

Lemma countAndMakeRun_Permutation (workArray : list A) :
  (countAndMakeRun compareFn workArray).1 ≡ₚ workArray.
Proof.
  destruct workArray as [|elementHigh [|elementLow rest]]; [done..|].
  unfold countAndMakeRun. destruct (compareFn elementLow elementHigh <? 0)%Z; [|done].
  cbn [fst]. by rewrite reverse_Permutation, take_drop.
Qed.

Lemma sort_Permutation l : sort compareFn l ≡ₚ l.
Proof.
  unfold sort. destruct (length l <? 2); [done|].
  pose proof (countAndMakeRun_Permutation l) as Hrun.
  destruct (countAndMakeRun compareFn l) as [workArray runLength].
  by rewrite binaryInsertionSort_Permutation.
Qed.

Lemma elem_of_sort x l : x ∈ sort compareFn l ↔ x ∈ l.
Proof. by rewrite sort_Permutation. Qed.
End SortFacts.

(** ** Grouping *)

Section MapUpdateFacts.
Context {K V : Type} `{EqDecision K}.
Implicit Types (m : list (K * V)).

Lemma Map_set_absent k v m : k ∉ m.*1 → Map_set k v m = m ++ [(k, v)].
Proof.
  induction m as [|[k' v'] m IH]; csimpl; [done|].
  rewrite not_elem_of_cons. intros [Hne Hk].
  rewrite decide_False by done. by rewrite IH.
Qed.

(** Updating the value of a key in a map that is given by a function of
    its keys. *)
Lemma Map_update_fmap (h : K → V) (g : V → V) k (keys : list K) :
  NoDup keys → k ∈ keys →
  Map_update k g ((fun k' => (k', h k')) <$> keys) =
  (fun k' => (k', if decide (k' = k) then g (h k') else h k')) <$> keys.
Proof.
  unfold Map_update. induction keys as [|k0 keys IH]; csimpl; [by rewrite elem_of_nil|].
  rewrite NoDup_cons. intros [Hk0 Hnd] Hin. destruct (decide (k = k0)) as [->|Hne].
  - simpl. rewrite !decide_True by done. f_equal.
    apply list_fmap_ext. intros i k' Hk'. rewrite decide_False; [done|].
    intros ->. apply Hk0. by eapply list_elem_of_lookup_2.
  - apply elem_of_cons in Hin as [?|Hin]; [done|]. specialize (IH Hnd Hin).
    destruct (Map_get k _) as [v|] eqn:Hget.
    + simpl. rewrite !decide_False by done. by rewrite IH.
    + rewrite decide_False by done. by rewrite <-IH.
Qed.
End MapUpdateFacts.

Section SetFacts.
Context {K : Type} `{EqDecision K}.

Lemma Set_from_snoc (items : list K) k :
  Set_from (items ++ [k]) = Set_add k (Set_from items).
Proof. unfold Set_from. by rewrite foldl_snoc. Qed.

Lemma Set_from_NoDup (items : list K) : NoDup (Set_from items).
Proof.
  induction items as [|k items IH] using rev_ind; [constructor|].
  rewrite Set_from_snoc. unfold Set_add, Set_has. case_bool_decide as Hin; [done|].
  apply NoDup_app. split; [done|]. split; [|apply NoDup_singleton].
  intros x Hx ->%list_elem_of_singleton. done.
Qed.
End SetFacts.

Lemma filter_none {A} (P : A → Prop) `{∀ x, Decision (P x)} (l : list A) :
  (∀ x, x ∈ l → ¬ P x) → filter P l = [].
Proof.
  induction l as [|x l IH]; intros Hall; [done|].
  rewrite filter_cons_False by (apply Hall; by left).
  apply IH. intros y Hy. apply Hall. by right.
Qed.

Section Grouping.
Implicit Types (es : list Entry) (e : Entry) (k : option string).

(** The groups of [es]: one per job identifier, in the order the
    identifiers first occur, each holding its entries in input order. *)
Lemma groupStep_fold es :
  foldl groupStep [] es =
  (fun k => (k, filter (fun e => jobOf e = k) es)) <$> Set_from (jobOf <$> es).
Proof.
  induction es as [|e es IH] using rev_ind; [done|].
  rewrite foldl_snoc, IH. clear IH.
  rewrite (fmap_app jobOf). csimpl. rewrite Set_from_snoc.
  set (keys := Set_from (jobOf <$> es)).
  assert (NoDup keys) as Hnd by apply Set_from_NoDup.
  assert (∀ k, filter (fun e0 => jobOf e0 = k) (es ++ [e]) =
               if decide (k = jobOf e)
               then filter (fun e0 => jobOf e0 = k) es ++ [e]
               else filter (fun e0 => jobOf e0 = k) es) as Hfilter.
  { intros k. rewrite filter_app, filter_cons, filter_nil.
    destruct (decide (k = jobOf e)) as [->|Hne].
    - by rewrite decide_True.
    - rewrite decide_False by done. by rewrite app_nil_r. }
  unfold groupStep, Map_has, Set_add, Set_has.
  assert (((fun k => (k, filter (fun e0 => jobOf e0 = k) es)) <$> keys).*1 = keys) as Hkeys.
  { rewrite <-list_fmap_compose. apply list_fmap_id. }
  case_bool_decide as Hin.
  - apply Map_get_is_Some in Hin. rewrite Hkeys in Hin.
    rewrite bool_decide_eq_true_2 by done.
    rewrite (Map_update_fmap (fun k => filter (fun e0 => jobOf e0 = k) es)) by done.
    apply list_fmap_ext. intros i k _. by rewrite Hfilter.
  - rewrite Map_get_is_Some, Hkeys in Hin. rewrite bool_decide_eq_false_2 by done.
    rewrite Map_set_absent by (by rewrite Hkeys).
    assert (filter (fun e0 => jobOf e0 = jobOf e) es = []) as Hnil.
    { apply filter_none. intros e0 He0 Heq. apply Hin.
      apply Set_from_elem_of, list_elem_of_fmap. by exists e0. }
    assert ([(jobOf e, @nil Entry)] =
            (fun k0 => (k0, filter (fun e0 => jobOf e0 = k0) es)) <$> [jobOf e]) as ->
      by (csimpl; by rewrite Hnil).
    rewrite <-fmap_app.
    rewrite (Map_update_fmap (fun k => filter (fun e0 => jobOf e0 = k) es)).
    + apply list_fmap_ext. intros i k _. by rewrite Hfilter.
    + apply NoDup_app. split; [done|]. split; [|apply NoDup_singleton].
      intros x Hx ->%list_elem_of_singleton. done.
    + apply elem_of_app. right. by left.
Qed.

Lemma groupStep_fold_elem_of es k entries :
  (k, entries) ∈ foldl groupStep [] es →
  entries = filter (fun e => jobOf e = k) es.
Proof.
  rewrite groupStep_fold. intros (k' & Heq & _)%list_elem_of_fmap. by simplify_eq.
Qed.

Lemma elem_of_groupStep_fold es e :
  e ∈ es → (jobOf e, filter (fun e' => jobOf e' = jobOf e) es) ∈ foldl groupStep [] es.
Proof.
  intros He. rewrite groupStep_fold. apply list_elem_of_fmap. exists (jobOf e).
  split; [done|]. apply Set_from_elem_of, list_elem_of_fmap. by exists e.
Qed.

(** Every entry is in exactly one group: the groups, laid end to end,
    are the entries in another order. *)
Lemma filter_keys_Permutation (keys : list (option string)) es :
  NoDup keys → (∀ e, e ∈ es → jobOf e ∈ keys) →
  keys ≫= (fun k => filter (fun e => jobOf e = k) es) ≡ₚ es.
Proof.
  revert es. induction keys as [|k keys IH]; intros es Hnd Hall.
  - destruct es as [|e es]; [done|]. exfalso.
    specialize (Hall e ltac:(by left)). by apply elem_of_nil in Hall.
  - apply NoDup_cons in Hnd as [Hk Hnd]. rewrite bind_cons.
    etrans; [|apply (filter_app_complement (fun e => jobOf e = k) es)].
    apply Permutation_app; [done|].
    etrans; [|apply (IH (filter (fun e => ¬ jobOf e = k) es))]; [|done|].
    + assert (∀ k', k' ∈ keys →
        filter (fun e => jobOf e = k') es =
        filter (fun e => jobOf e = k') (filter (fun e => ¬ jobOf e = k) es)) as Hsame.
      { intros k' Hk'. rewrite list_filter_filter. apply list_filter_iff.
        intros e. split; [|tauto]. intros He. split; [done|]. intros Hek. congruence. }
      clear -Hsame. induction keys as [|k' keys IH]; [done|].
      rewrite !bind_cons. rewrite Hsame by left. apply Permutation_app; [done|].
      apply IH. intros k'' Hk''. apply Hsame. by right.
    + intros e [Hne He]%list_elem_of_filter. specialize (Hall e He).
      apply elem_of_cons in Hall as [?|?]; [done|done].
Qed.

Lemma groupStep_fold_Permutation es : (foldl groupStep [] es) ≫= snd ≡ₚ es.
Proof.
  rewrite groupStep_fold.
  rewrite <-(filter_keys_Permutation (Set_from (jobOf <$> es)) es) at 2.
  - generalize (Set_from (jobOf <$> es)). intros keys.
    induction keys as [|k keys IH]; [done|]. csimpl. by rewrite IH.
  - apply Set_from_NoDup.
  - intros e He. apply Set_from_elem_of, list_elem_of_fmap. by exists e.
Qed.

Lemma toEntries_index (rows : list Row) : index <$> toEntries rows = seq 0 (length rows).
Proof.
  unfold toEntries. rewrite fmap_imap.
  rewrite (imap_ext _ (fun i _ => i)) by done.
  rewrite imap_seq_0. apply list_fmap_id.
Qed.

Lemma toEntries_lookup (rows : list Row) i e :
  toEntries rows !! i = Some e ↔ rows !! i = Some (row e) ∧ index e = i.
Proof.
  unfold toEntries. rewrite list_lookup_imap. destruct (rows !! i) as [r|]; simpl.
  - split.
    + intros [= <-]. done.
    + intros [[= ->] <-]. by destruct e.
  - split; [done|]. by intros [? _].
Qed.

Lemma groupRows_index_NoDup (rows : list Row) :
  NoDup (index <$> (groupRows rows ≫= snd)).
Proof.
  unfold groupRows. rewrite groupStep_fold_Permutation, toEntries_index. apply NoDup_seq.
Qed.
End Grouping.

(** ** The loop over the groups *)

Section Record.
Implicit Types (W : list (nat * option string)) (asg : gmap nat (option string)).

Lemma foldl_record_notin W asg i : i ∉ W.*1 → foldl record asg W !! i = asg !! i.
Proof.
  revert asg. induction W as [|[j v] W IH]; intros asg; csimpl; [done|].
  rewrite not_elem_of_cons. intros [Hne Hi]. rewrite IH by done.
  unfold record; simpl. by rewrite lookup_insert_ne.
Qed.

(** An index that is written once holds what was written. *)
Lemma foldl_record_lookup W asg i v :
  NoDup W.*1 → (i, v) ∈ W → foldl record asg W !! i = Some v.
Proof.
  revert asg. induction W as [|[j w] W IH]; intros asg; csimpl; [by rewrite elem_of_nil|].
  rewrite NoDup_cons, elem_of_cons. intros [Hj Hnd] [[= -> ->]|Hin].
  - rewrite foldl_record_notin by done. unfold record; simpl. apply lookup_insert_eq.
  - by apply IH.
Qed.


Lemma foldl_record_lookup_Some W i v :
  foldl record ∅ W !! i = Some v → i ∈ W.*1.
Proof.
  intros H. destruct (decide (i ∈ W.*1)) as [|Hnot]; [done|].
  rewrite foldl_record_notin, lookup_empty in H by done. done.
Qed.
End Record.

Section GroupLoop.
Context {St : Type}.
Variables (next : St → Entry → St) (out : St → Entry → option string).
Variable body : St * gmap nat (option string) → Entry → St * gmap nat (option string).
Hypothesis body_shape :
  ∀ st asg e, body (st, asg) e = (next st e, <[index e := out st e]> asg).
Variables (compareFn : Entry → Entry → Z) (init : St).
Implicit Types (groups : list (option string * list Entry)).

Lemma foldl_body st asg l :
  foldl body (st, asg) l = (foldl next st l, foldl record asg (writes next out st l)).
Proof.
  revert st asg. induction l as [|e l IH]; intros st asg; simpl; [done|].
  by rewrite body_shape, IH.
Qed.

Lemma writes_keys st l : (writes next out st l).*1 = index <$> l.
Proof. revert st. induction l as [|e l IH]; intros st; csimpl; [done|]. by rewrite IH. Qed.

Lemma writes_app st l1 l2 :
  writes next out st (l1 ++ l2) =
  writes next out st l1 ++ writes next out (foldl next st l1) l2.
Proof. revert st. induction l1 as [|e l1 IH]; intros st; simpl; [done|]. by rewrite IH. Qed.

(** All the writes of the run, group after group. *)
Lemma forEachGroup_writes groups :
  forEachGroup compareFn init body groups =
  foldl record ∅ (groups ≫= fun g => writes next out init (sort compareFn g.2)).
Proof.
  unfold forEachGroup. generalize (∅ : gmap nat (option string)).
  induction groups as [|[k entries] groups IH]; intros asg; [done|].
  rewrite bind_cons, foldl_app. simpl. rewrite foldl_body. simpl. apply IH.
Qed.

Lemma group_writes_keys groups :
  (groups ≫= fun g => writes next out init (sort compareFn g.2)).*1 ≡ₚ
  index <$> (groups ≫= snd).
Proof.
  induction groups as [|[k entries] groups IH]; [done|].
  rewrite !bind_cons, !fmap_app, IH, writes_keys. simpl.
  by rewrite sort_Permutation.
Qed.

(** The assignment of an entry is what the body committed for it, from
    the state that the entries sorted before it in its group lead to. *)
Lemma forEachGroup_lookup groups g before e after :
  NoDup (index <$> (groups ≫= snd)) →
  g ∈ groups →
  sort compareFn g.2 = before ++ e :: after →
  forEachGroup compareFn init body groups !! index e = Some (out (foldl next init before) e).
Proof.
  intros Hnd Hg Hsplit. rewrite forEachGroup_writes.
  apply foldl_record_lookup.
  - by rewrite group_writes_keys.
  - apply list_elem_of_bind. exists g. split; [|done].
    rewrite Hsplit, writes_app. apply elem_of_app. right. simpl. by left.
Qed.

(** Nothing else is assigned. *)
Lemma forEachGroup_lookup_Some groups i v :
  forEachGroup compareFn init body groups !! i = Some v →
  i ∈ index <$> (groups ≫= snd).
Proof.
  rewrite forEachGroup_writes. intros H%foldl_record_lookup_Some.
  by rewrite group_writes_keys in H.
Qed.
End GroupLoop.

(** The two bodies have the shape the loop lemmas ask for. *)
Lemma processEntry_shape statusOrder statusIndex cur asg e :
  processEntry statusOrder statusIndex (cur, asg) e =
  (nextCursor statusOrder statusIndex cur e,
   <[index e := committed statusOrder statusIndex cur e]> asg).
Proof. unfold processEntry, nextCursor, committed. by destruct (isEmptyRow (row e)). Qed.

(** * The properties of the specification *)

(** ** Signal selection *)

(** C8. [pickStatusFromSignals] looks only at the statuses whose rank lies
    between the floor and the cap, both included, and whose score is
    positive (the candidates).  It returns [null] exactly when there is no
    candidate; otherwise it returns the rank of a candidate with the
    highest score, and among the candidates with that score the one of
    highest rank. *)
Theorem pickStatusFromSignals_selects (r : Row) (floorIdx capIdx : nat)
    (statusOrder : list string) :
  let statusIndex := buildStatusIndex statusOrder in
  let scores := scoreStatuses r statusOrder statusIndex in
  let picked := pickStatusFromSignals r floorIdx capIdx statusOrder statusIndex in
  (picked = None ↔
   ∀ status idx score, ¬ candidate scores statusIndex floorIdx capIdx status idx score) ∧
  (∀ rank, picked = Some rank →
     ∃ status score,
       candidate scores statusIndex floorIdx capIdx status rank score ∧
       ∀ status' idx' score',
         candidate scores statusIndex floorIdx capIdx status' idx' score' →
         (score' < score)%Z ∨ (score' = score ∧ idx' ≤ rank)).
Proof.
  intros statusIndex scores picked. subst picked. unfold pickStatusFromSignals.
  pose proof (pickStatusFromSignals_bestOf statusOrder r floorIdx capIdx) as H.
  fold statusIndex in H. fold scores in H.
  fold statusIndex. fold scores.
  destruct (foldl _ _ scores) as [b|]; simpl in *.
  - destruct H as [Hc Hall]. split.
    + split; [done|]. intros Hnone. by apply Hnone in Hc.
    + intros rank [= <-]. exists (best_status b), (best_score b). by split.
  - split; [done|]. intros rank [=].
Qed.

(** ** Role caps *)

Lemma uncapped_spec (r : Row) :
  uncapped r = true →
  ∀ cap, cap ∈ ROLE_MAX_STATUS → test (cap_match cap) (orEmpty (r !! ROLE_FIELD)) = false.
Proof.
  unfold uncapped, capApplies. rewrite forallb_forall. intros H cap Hcap.
  apply list_elem_of_In, H, negb_true_iff in Hcap. done.
Qed.

(** C1, at a role that no cap entry matches.  For an accounting row at
    floor 0 under the canonical order, [roleCapIndex] returns 0, the
    floor: the cap is not unbounded, it is as low as a cap can be, though
    the order has ranks up to 13 and the role hints send this role to
    ranks 11 and 12. *)
Theorem roleCapIndex_unmatched_role_is_floor :
  let statusIndex := buildStatusIndex canonicalOrder in
  let r : Row := {[ ROLE_FIELD := "Accounting"%string ]} in
  uncapped r = true ∧
  roleCapIndex r statusIndex 0 = 0 ∧
  statusIndex !! "Ready to Invoice"%string = Some 11 ∧
  statusIndex !! "Complete"%string = Some 13 ∧
  Map_get "Ready to Invoice"%string (scoreStatuses r canonicalOrder statusIndex) = Some 6%Z.
Proof. vm_compute. repeat split; reflexivity. Qed.

(** C2. In the scoring variant, a row that is not empty and whose role
    no [ROLE_MAX_STATUS] pattern matches leaves the rank of its group
    where it was, whatever its explicit status and its signals: the cap
    that [roleCapIndex] computes for it is the floor. *)
Theorem uncapped_row_keeps_rank (statusOrder : list string) (cur : Cursor)
    (asg : gmap nat (option string)) (e : Entry) :
  isEmptyRow (row e) = false →
  uncapped (row e) = true →
  roleCapIndex (row e) (buildStatusIndex statusOrder) (currentIdx cur) = currentIdx cur ∧
  currentIdx (processEntry statusOrder (buildStatusIndex statusOrder) (cur, asg) e).1
  = currentIdx cur.
Proof.
  intros Hne Hun. pose proof (uncapped_spec _ Hun) as Hno.
  pose proof (roleCapIndex_unmatched (row e) (buildStatusIndex statusOrder)
                (currentIdx cur) Hno) as Hcap.
  split; [done|].
  unfold processEntry. rewrite Hne. simpl. rewrite Hcap.
  destruct (_ ≫= _); destruct (pickStatusFromSignals _ _ _ _ _); lia.
Qed.

Lemma uncapped_row_keeps_rank_witness :
  let e := {| row := {[ ROLE_FIELD := "Accounting"%string;
                        STATUS_FIELD := "Complete"%string;
                        DESCRIPTION_FIELD := "final invoice sent"%string ]};
              index := 0 |} in
  let cur := {| current := Some "Estimating"%string; currentIdx := 0 |} in
  roleCapIndex (row e) (buildStatusIndex canonicalOrder) (currentIdx cur) = currentIdx cur ∧
  currentIdx (processEntry canonicalOrder (buildStatusIndex canonicalOrder) (cur, ∅) e).1
  = currentIdx cur.
Proof.
  intros e cur. apply (uncapped_row_keeps_rank canonicalOrder cur ∅ e); reflexivity.
Defined.

(** ** The two scenarios of the scoring variant *)

Section Scenarios.
Variables (Date_parse : string → option Z) (localeCompare : string → string → Z).

(** C3, at the scenario's row (an explicit status that is no status
    name, an empty role, the description of the scenario).  The four
    keywords score 4 points for Field Work in Progress, rank 5, and with a
    cap of 13 the selection picks it; but the empty role matches no cap
    entry, the cap is the floor 0, and the row is assigned Estimating. *)
Theorem keyword_scenario_stays_at_fallback :
  let statusIndex := buildStatusIndex canonicalOrder in
  let r : Row := {[ STATUS_FIELD := "TBD"%string; ROLE_FIELD := ""%string;
                    DESCRIPTION_FIELD := "site survey and field scan today"%string ]} in
  run Date_parse localeCompare canonicalOrder [r] = {[ 0 := Some "Estimating"%string ]} ∧
  Map_get "Field Work in Progress"%string (scoreStatuses r canonicalOrder statusIndex)
  = Some 8%Z ∧
  pickStatusFromSignals r 0 13 canonicalOrder statusIndex = Some 5 ∧
  roleCapIndex r statusIndex 0 = 0 ∧
  pickStatusFromSignals r 0 0 canonicalOrder statusIndex = None.
Proof. vm_compute. repeat split; reflexivity. Qed.

(** C4, at the scenario's group.  Neither row has a role, so the cap of
    each is the floor: the explicit status Complete of the first row is
    clamped back to rank 0, and both rows are assigned Estimating. *)
Theorem regression_scenario_assignments :
  let statusIndex := buildStatusIndex canonicalOrder in
  let first : Row := {[ STATUS_FIELD := "Complete"%string ]} in
  let second : Row := {[ STATUS_FIELD := "Estimating"%string ]} in
  run Date_parse localeCompare canonicalOrder [first; second]
  = {[ 0 := Some "Estimating"%string; 1 := Some "Estimating"%string ]} ∧
  statusIndex !! "Complete"%string = Some 13 ∧
  roleCapIndex first statusIndex 0 = 0.
Proof. vm_compute. repeat split; reflexivity. Qed.
End Scenarios.

(** ** The progression tracker *)

Lemma ExplicitOnly_processEntry_shape statusSet current asg e :
  ExplicitOnly.processEntry statusSet (current, asg) e =
  (carried statusSet current e, <[index e := carried statusSet current e]> asg).
Proof. done. Qed.

Lemma leastRank_spec (ranks : list nat) (m : nat) :
  leastRank ranks = Some m → m ∈ ranks ∧ ∀ k, k ∈ ranks → m ≤ k.
Proof.
  destruct ranks as [|x l]; [done|]. simpl. intros [= <-].
  induction l as [|y l IH]; simpl.
  - split; [by left|]. intros k ->%list_elem_of_singleton. done.
  - destruct IH as [Hin Hle]. split.
    + destruct (Nat.min_dec y (foldr Nat.min x l)) as [-> | ->].
      * right. by left.
      * apply elem_of_cons in Hin as [->|Hin]; [by left|]. right. by right.
    + intros k Hk. assert (k = y ∨ k ∈ x :: l) as [->|Hk'].
      { apply elem_of_cons in Hk as [->|Hk]; [right; by left|].
        apply elem_of_cons in Hk as [->|Hk]; [by left|right; by right]. }
      * lia.
      * specialize (Hle _ Hk'). lia.
Qed.

Lemma elem_of_appliedCapRanks statusIndex (r : Row) (m : nat) :
  m ∈ appliedCapRanks statusIndex r ↔
  ∃ cap, cap ∈ ROLE_MAX_STATUS ∧ test (cap_match cap) (orEmpty (r !! ROLE_FIELD)) = true ∧
         statusIndex !! cap_maxStatus cap = Some m.
Proof.
  unfold appliedCapRanks, capApplies. rewrite list_elem_of_omap. split.
  - intros (cap & Hcap & H). exists cap. destruct (test _ _); [done|done].
  - intros (cap & Hcap & Ht & Hm). exists cap. by rewrite Ht.
Qed.

(** The cap of a row is its most restrictive cap, or the floor when that
    is lower. *)
Lemma roleCapIndex_leastRank statusIndex (r : Row) (floorIdx m : nat) :
  leastRank (appliedCapRanks statusIndex r) = Some m →
  roleCapIndex r statusIndex floorIdx = floorIdx `max` m.
Proof.
  intros [Hin Hle]%leastRank_spec. apply roleCapIndex_matched.
  - by apply elem_of_appliedCapRanks.
  - intros cap k Hcap Ht Hk. apply Hle, elem_of_appliedCapRanks. eauto.
Qed.

Section Tracker.
Variables (Date_parse : string → option Z) (localeCompare : string → string → Z).
Variable statusOrder : list string.
Local Abbreviation statusIndex := (buildStatusIndex statusOrder).
Local Abbreviation compareFn := (compareEntries Date_parse localeCompare).
Local Abbreviation start :=
  (initialCursor (buildStatusSet statusOrder) (buildStatusIndex statusOrder)).
Local Abbreviation next := (nextCursor statusOrder (buildStatusIndex statusOrder)).
Implicit Types (cur : Cursor) (e : Entry) (l : list Entry).

Lemma nextCursor_ok cur e :
  cursorOk statusIndex cur →
  cursorOk statusIndex (next cur e) ∧
  ∃ rank rank',
    rankOf statusIndex (current cur) = Some rank ∧
    rankOf statusIndex (current (next cur e)) = Some rank' ∧ rank ≤ rank'.
Proof.
  intros Hok. unfold nextCursor. destruct (isEmptyRow (row e)).
  - split; [done|]. destruct Hok as [_ (rank & Hrank & _)]. by exists rank, rank.
  - destruct (advance_ok statusOrder cur (row e) Hok) as [Hok' (rank & rank' & ? & ? & ?)].
    split; [done|]. exists rank, rank'. repeat split; [done..|lia].
Qed.

Lemma foldl_nextCursor_ok cur l :
  cursorOk statusIndex cur →
  cursorOk statusIndex (foldl next cur l) ∧
  ∃ rank rank',
    rankOf statusIndex (current cur) = Some rank ∧
    rankOf statusIndex (current (foldl next cur l)) = Some rank' ∧ rank ≤ rank'.
Proof.
  revert cur. induction l as [|e l IH]; intros cur Hok; simpl.
  - split; [done|]. destruct Hok as [_ (rank & Hrank & _)]. by exists rank, rank.
  - destruct (nextCursor_ok cur e Hok) as [Hok' (r1 & r2 & H1 & H2 & Hle)].
    destruct (IH _ Hok') as [Hok'' (r2' & r3 & H2' & H3 & Hle')].
    split; [done|]. exists r1, r3. repeat split; [done..|].
    rewrite H2 in H2'. injection H2' as <-. lia.
Qed.

(** Where the entry of a row stands: in the group of its job, at one
    place of the group's sorted entries. *)
Lemma entry_sorted_split (rows : list Row) (i : nat) (r : Row) :
  rows !! i = Some r →
  ∃ g before after,
    g ∈ groupRows rows ∧
    sort compareFn g.2 = before ++ {| row := r; index := i |} :: after.
Proof.
  intros Hr. set (e := {| row := r; index := i |}).
  assert (e ∈ toEntries rows) as He.
  { apply list_elem_of_lookup. exists i. by apply toEntries_lookup. }
  pose proof (elem_of_groupStep_fold _ _ He) as Hg.
  set (g := (jobOf e, filter (fun e' => jobOf e' = jobOf e) (toEntries rows))) in *.
  assert (e ∈ sort compareFn g.2) as Hs.
  { apply elem_of_sort. simpl. by apply list_elem_of_filter. }
  apply list_elem_of_split in Hs as (before & after & Hsplit).
  by exists g, before, after.
Qed.

Lemma inferStatuses_lookup (rows : list Row) g before e after :
  g ∈ groupRows rows →
  sort compareFn g.2 = before ++ e :: after →
  run Date_parse localeCompare statusOrder rows !! index e
  = Some (committed statusOrder statusIndex (foldl next start before) e).
Proof.
  intros Hg Hsplit. unfold run, inferStatuses.
  apply (forEachGroup_lookup next (committed statusOrder statusIndex)
           (processEntry statusOrder statusIndex)
           (processEntry_shape statusOrder statusIndex)
           compareFn start (groupRows rows) g before e after); [|done..].
  apply groupRows_index_NoDup.
Qed.

Lemma lookup_split_two l (i j : nat) (a b : Entry) :
  l !! i = Some a → l !! j = Some b → i < j →
  ∃ l1 l2 l3, l = l1 ++ a :: l2 ++ b :: l3 ∧ l1 = take i l.
Proof.
  intros Ha Hb Hij.
  exists (take i l), (take (j - S i) (drop (S i) l)), (drop (S (j - S i)) (drop (S i) l)).
  split; [|done].
  assert (drop (S i) l !! (j - S i) = Some b) as Hb'.
  { rewrite lookup_drop. rewrite <-Hb. f_equal. lia. }
  rewrite (take_drop_middle _ _ _ Hb'). by rewrite (take_drop_middle _ _ _ Ha).
Qed.
End Tracker.

Section TrackerClaims.
Variables (Date_parse : string → option Z) (localeCompare : string → string → Z).
Variable statusOrder : list string.
Local Abbreviation statusIndex := (buildStatusIndex statusOrder).
Local Abbreviation compareFn := (compareEntries Date_parse localeCompare).
Local Abbreviation start :=
  (initialCursor (buildStatusSet statusOrder) (buildStatusIndex statusOrder)).
Local Abbreviation next := (nextCursor statusOrder (buildStatusIndex statusOrder)).

(** C5. Monotone progression.  Under a status order that is not empty,
    take any group of a run, two rows of the group that are not empty,
    and the statuses the run assigns to them: the status of the row that
    comes later in the canonical (sorted) order of the group has a rank
    that is not below the rank of the status of the earlier row.  Taking
    the rows next to each other among the rows that are not empty gives
    the claim as stated. *)
Theorem monotone_progression (rows : list Row) (g : nat) (jobId : option string)
    (entries : list Entry) (i j : nat) (a b : Entry) :
  statusOrder ≠ [] →
  groupRows rows !! g = Some (jobId, entries) →
  sort compareFn entries !! i = Some a →
  sort compareFn entries !! j = Some b →
  i < j →
  isEmptyRow (row a) = false →
  isEmptyRow (row b) = false →
  ∃ statusA statusB rankA rankB,
    run Date_parse localeCompare statusOrder rows !! index a = Some (Some statusA) ∧
    run Date_parse localeCompare statusOrder rows !! index b = Some (Some statusB) ∧
    statusIndex !! statusA = Some rankA ∧
    statusIndex !! statusB = Some rankB ∧
    rankA ≤ rankB.
Proof.
  intros Hne Hg Ha Hb Hij HaE HbE.
  apply list_elem_of_lookup_2 in Hg.
  destruct (lookup_split_two _ _ _ _ _ Ha Hb Hij) as (l1 & l2 & l3 & Hsplit & _).
  pose proof (inferStatuses_lookup Date_parse localeCompare statusOrder rows
                (jobId, entries) l1 a (l2 ++ b :: l3) Hg Hsplit) as HA.
  assert (sort compareFn entries = (l1 ++ a :: l2) ++ b :: l3) as Hsplit'
    by (by rewrite <-app_assoc).
  pose proof (inferStatuses_lookup Date_parse localeCompare statusOrder rows
                (jobId, entries) (l1 ++ a :: l2) b l3 Hg Hsplit') as HB.
  rewrite HA, HB. clear HA HB Hsplit Hsplit'.
  unfold committed. rewrite HaE, HbE.
  rewrite foldl_app. cbn [foldl].
  set (curA := foldl next start l1).
  assert (next curA a = advance statusOrder statusIndex curA (row a)) as ->
    by (unfold nextCursor; by rewrite HaE).
  pose proof (foldl_nextCursor_ok statusOrder start l1 (initialCursor_ok _ Hne)) as [HokA _].
  fold curA in HokA.
  destruct (advance_ok statusOrder curA (row a) HokA) as [HokA' (r0 & rA & _ & HrA & _)].
  set (curA' := advance statusOrder statusIndex curA (row a)) in *.
  destruct (foldl_nextCursor_ok statusOrder curA' l2 HokA') as [HokB (rA' & rB0 & HrA' & HrB0 & Hle1)].
  set (curB := foldl next curA' l2) in *.
  destruct (advance_ok statusOrder curB (row b) HokB) as [_ (rB0' & rB & HrB0' & HrB & Hle2 & _)].
  rewrite HrA in HrA'. injection HrA' as <-.
  rewrite HrB0 in HrB0'. injection HrB0' as <-.
  unfold rankOf in HrA, HrB.
  destruct (current curA') as [sA|]; [|done].
  destruct (current (advance statusOrder statusIndex curB (row b))) as [sB|]; [|done].
  simpl in HrA, HrB. exists sA, sB, rA, rB. repeat split; [done..|lia].
Qed.
End TrackerClaims.

Lemma monotone_progression_witness :
  let rows : list Row :=
    [ {[ JOB_ID_FIELD := "J1"%string; ROLE_FIELD := "Project Manager"%string;
         STATUS_FIELD := "Checking"%string; DWR_FIELD := "2"%string ]};
      {[ JOB_ID_FIELD := "J1"%string; ROLE_FIELD := "Field Technician"%string;
         STATUS_FIELD := "Field Work in Progress"%string; DWR_FIELD := "1"%string ]} ] in
  ∃ statusA statusB rankA rankB,
    run noDates byteCompare canonicalOrder rows !! 1 = Some (Some statusA) ∧
    run noDates byteCompare canonicalOrder rows !! 0 = Some (Some statusB) ∧
    buildStatusIndex canonicalOrder !! statusA = Some rankA ∧
    buildStatusIndex canonicalOrder !! statusB = Some rankB ∧
    rankA ≤ rankB.
Proof.
  intros rows.
  apply (monotone_progression noDates byteCompare canonicalOrder rows 0
           (Some "J1"%string) (toEntries rows) 0 1
           {| row := rows !!! 1; index := 1 |} {| row := rows !!! 0; index := 0 |});
    [done|reflexivity|reflexivity|reflexivity|lia|reflexivity|reflexivity].
Defined.

Section CapAndEmptyRows.
Variables (Date_parse : string → option Z) (localeCompare : string → string → Z).
Variable statusOrder : list string.
Local Abbreviation statusIndex := (buildStatusIndex statusOrder).
Local Abbreviation compareFn := (compareEntries Date_parse localeCompare).
Local Abbreviation start :=
  (initialCursor (buildStatusSet statusOrder) (buildStatusIndex statusOrder)).
Local Abbreviation next := (nextCursor statusOrder (buildStatusIndex statusOrder)).
Local Abbreviation body := (processEntry statusOrder (buildStatusIndex statusOrder)).

(** C6. Cap respect.  Take a row that is not empty, whose role matches
    some cap entry, and let [capRank] be the rank of its most restrictive
    cap (the least rank among the entries that match).  Unless the rank
    carried forward to the row, the position of the cursor after the
    entries sorted before it in its group, is already above [capRank],
    the status the run assigns to the row has a rank of at most
    [capRank]. *)
Theorem cap_respect (rows : list Row) (g : nat) (jobId : option string)
    (entries : list Entry) (i : nat) (a : Entry) (capRank : nat) :
  groupRows rows !! g = Some (jobId, entries) →
  sort compareFn entries !! i = Some a →
  isEmptyRow (row a) = false →
  leastRank (appliedCapRanks statusIndex (row a)) = Some capRank →
  currentIdx (foldl next start (take i (sort compareFn entries))) ≤ capRank →
  ∃ status rank,
    run Date_parse localeCompare statusOrder rows !! index a = Some (Some status) ∧
    statusIndex !! status = Some rank ∧
    rank ≤ capRank.
Proof.
  intros Hg Ha HaE Hcap Hcarried.
  assert (statusOrder ≠ []) as Hne.
  { destruct (leastRank_spec _ _ Hcap) as [Hin _].
    apply elem_of_appliedCapRanks in Hin as (cap & _ & _ & Hm).
    apply mk_is_Some, buildStatusIndex_is_Some in Hm. intros ->. by apply elem_of_nil in Hm. }
  apply list_elem_of_lookup_2 in Hg.
  pose proof (take_drop_middle _ _ _ Ha) as Hsplit. symmetry in Hsplit.
  rewrite (inferStatuses_lookup Date_parse localeCompare statusOrder rows
             (jobId, entries) _ a _ Hg Hsplit).
  set (cur := foldl next start (take i (sort compareFn entries))) in *.
  pose proof (foldl_nextCursor_ok statusOrder start (take i (sort compareFn entries))
                (initialCursor_ok _ Hne)) as [Hok _].
  fold cur in Hok.
  destruct (advance_ok statusOrder cur (row a) Hok) as [_ (r0 & rank & _ & Hrank & _ & Hle)].
  pose proof (advance_currentIdx_cap statusOrder cur (row a)) as Hcapped.
  rewrite (roleCapIndex_leastRank _ _ _ _ Hcap) in Hcapped.
  unfold committed. rewrite HaE. unfold rankOf in Hrank.
  destruct (current (advance statusOrder statusIndex cur (row a))) as [status|]; [|done].
  simpl in Hrank. exists status, rank. repeat split; [done|lia].
Qed.

End CapAndEmptyRows.

Lemma cap_respect_witness :
  let rows : list Row :=
    [ {[ JOB_ID_FIELD := "J1"%string; ROLE_FIELD := "Field Technician"%string;
         DESCRIPTION_FIELD := "final package issued, project complete"%string ]} ] in
  leastRank (appliedCapRanks (buildStatusIndex canonicalOrder) (rows !!! 0)) = Some 5 ∧
  ∃ status rank,
    run noDates byteCompare canonicalOrder rows !! 0 = Some (Some status) ∧
    buildStatusIndex canonicalOrder !! status = Some rank ∧
    rank ≤ 5.
Proof.
  intros rows. split; [reflexivity|].
  apply (cap_respect noDates byteCompare canonicalOrder rows 0 (Some "J1"%string)
           (toEntries rows) 0 {| row := rows !!! 0; index := 0 |} 5);
    [reflexivity|reflexivity|reflexivity|reflexivity|vm_compute; lia].
Defined.

(** ** The explicit-status-only variant *)

Section ExplicitOnlyClaims.
Variables (Date_parse : string → option Z) (localeCompare : string → string → Z).

(** C10. In the explicit-status-only variant, a row whose explicit
    status field is a member of the status set is assigned exactly that
    value, whatever was assigned to the rows before it: a status of lower
    rank than an earlier one is assigned all the same. *)
Theorem explicit_status_is_assigned (rows : list Row) (statusSet : list string)
    (i : nat) (r : Row) (status : string) :
  rows !! i = Some r →
  r !! STATUS_FIELD = Some status →
  Set_has status statusSet = true →
  ExplicitOnly.inferStatuses Date_parse localeCompare rows statusSet !! i
  = Some (Some status).
Proof.
  intros Hr Hstatus Hhas.
  destruct (entry_sorted_split Date_parse localeCompare rows i r Hr)
    as (g & before & after & Hg & Hsplit).
  unfold ExplicitOnly.inferStatuses.
  pose proof (forEachGroup_lookup (carried statusSet) (carried statusSet)
                (ExplicitOnly.processEntry statusSet)
                (ExplicitOnly_processEntry_shape statusSet)
                (compareEntries Date_parse localeCompare)
                (ExplicitOnly.initialStatus statusSet)
                (groupRows rows) g before _ after
                (groupRows_index_NoDup rows) Hg Hsplit) as H.
  cbn [index] in H. rewrite H. unfold carried. cbn [row]. by rewrite Hstatus, Hhas.
Qed.
End ExplicitOnlyClaims.

Lemma explicit_status_is_assigned_witness :
  let rows : list Row :=
    [ {[ STATUS_FIELD := "Complete"%string ]}; {[ STATUS_FIELD := "Estimating"%string ]} ] in
  let assignments := ExplicitOnly.run noDates byteCompare canonicalOrder rows in
  assignments !! 0 = Some (Some "Complete"%string) ∧
  assignments !! 1 = Some (Some "Estimating"%string) ∧
  buildStatusIndex canonicalOrder !! "Complete"%string = Some 13 ∧
  buildStatusIndex canonicalOrder !! "Estimating"%string = Some 0.
Proof.
  intros rows assignments. split; [reflexivity|]. split; [|split; reflexivity].
  apply (explicit_status_is_assigned noDates byteCompare rows
           (buildStatusSet canonicalOrder) 1 (rows !!! 1) "Estimating"%string);
    reflexivity.
Defined.

(** ** Shuffling the input *)

Lemma elem_of_take_1 {A : Type} (x : A) (n : nat) (l : list A) : x ∈ take n l → x ∈ l.
Proof. intros (i & Hi & _)%elem_of_take. by eapply list_elem_of_lookup_2. Qed.

Lemma elem_of_drop_1 {A : Type} (x : A) (n : nat) (l : list A) : x ∈ drop n l → x ∈ l.
Proof. intros Hx. rewrite <-(take_drop n l). apply elem_of_app. by right. Qed.

Section SortSorted.
Context {A : Type} (compareFn : A → A → Z) (R : A → A → Prop).

Section Consistent.
Variable l : list A.
Hypothesis Hnd : NoDup l.
Hypothesis Hlt : ∀ x y, x ∈ l → y ∈ l → x ≠ y → (compareFn x y < 0)%Z → R x y.
Hypothesis Hge : ∀ x y, x ∈ l → y ∈ l → x ≠ y → ¬ (compareFn x y < 0)%Z → R y x.
Hypothesis Htrans : ∀ x y z, x ∈ l → y ∈ l → z ∈ l → R x y → R y z → R x z.

(** An ascending run is in the order of [R]. *)
Lemma runRest_ascending (previousElement : A) (rest : list A) :
  NoDup (previousElement :: rest) →
  (∀ x, x ∈ previousElement :: rest → x ∈ l) →
  StronglySorted R (previousElement :: take (runRest compareFn false previousElement rest) rest).
Proof.
  revert previousElement. induction rest as [|current rest IH];
    intros previous Hnd' Hsub; simpl.
  - repeat constructor.
  - destruct (compareFn current previous <? 0)%Z eqn:E; simpl; [repeat constructor|].
    apply Z.ltb_ge in E.
    assert (StronglySorted R (current :: take (runRest compareFn false current rest) rest))
      as Hs.
    { apply IH; [by apply NoDup_cons in Hnd' as [_ ?]|].
      intros x Hx. apply Hsub. by right. }
    assert (R previous current) as Hpc.
    { apply Hge; [apply Hsub; right; by left|apply Hsub; by left| |lia].
      intros <-. apply NoDup_cons in Hnd' as [Hp _]. apply Hp. by left. }
    apply StronglySorted_cons. split; [|done].
    apply Forall_cons. split; [done|].
    apply StronglySorted_cons in Hs as [Hall _]. rewrite Forall_forall in Hall.
    apply Forall_forall. intros y Hy.
    apply (Htrans previous current y); [apply Hsub; by left|apply Hsub; right; by left| |done|by apply Hall].
    apply Hsub. right. right. by eapply elem_of_take_1.
Qed.

(** A descending run, reversed, is in the order of [R]. *)
Lemma runRest_descending (previousElement : A) (rest : list A) :
  NoDup (previousElement :: rest) →
  (∀ x, x ∈ previousElement :: rest → x ∈ l) →
  StronglySorted R
    (reverse (previousElement :: take (runRest compareFn true previousElement rest) rest)).
Proof.
  revert previousElement. induction rest as [|current rest IH];
    intros previous Hnd' Hsub; simpl.
  - repeat constructor.
  - destruct (0 <=? compareFn current previous)%Z eqn:E; simpl; [repeat constructor|].
    apply Z.leb_gt in E.
    assert (StronglySorted R
              (reverse (current :: take (runRest compareFn true current rest) rest))) as Hs.
    { apply IH; [by apply NoDup_cons in Hnd' as [_ ?]|].
      intros x Hx. apply Hsub. by right. }
    assert (R current previous) as Hcp.
    { apply Hlt; [apply Hsub; right; by left|apply Hsub; by left| |done].
      intros ->. apply NoDup_cons in Hnd' as [Hp _]. apply Hp. by left. }
    rewrite reverse_cons. apply StronglySorted_app. split; [|split; [done|repeat constructor]].
    intros x1 x2 Hx1 ->%list_elem_of_singleton.
    rewrite reverse_cons in Hx1, Hs. apply elem_of_app in Hx1 as [Hx1| ->%list_elem_of_singleton];
      [|done].
    apply (Htrans x1 current previous); [|apply Hsub; right; by left|apply Hsub; by left| |done].
    + apply Hsub. right. right. rewrite elem_of_reverse in Hx1. by eapply elem_of_take_1.
    + apply (StronglySorted_app_1_elem_of R _ _ x1 current Hs); [done|by left].
Qed.
(** The run [countAndMakeRun] leaves at the start of the array is in the
    order of [R]. *)
Lemma countAndMakeRun_sorted (workArray : list A) :
  workArray ≡ₚ l →
  2 ≤ length workArray →
  let '(made, runLength) := countAndMakeRun compareFn workArray in
  made ≡ₚ l ∧ 1 ≤ runLength ≤ length made ∧ StronglySorted R (take runLength made).
Proof.
  intros Hperm Hlen.
  destruct workArray as [|elementHigh [|elementLow rest]]; [simpl in Hlen; lia..|].
  assert (NoDup (elementHigh :: elementLow :: rest)) as Hnd' by by rewrite Hperm.
  assert (∀ x, x ∈ elementHigh :: elementLow :: rest → x ∈ l) as Hsub
    by (intros x Hx; by rewrite <-Hperm).
  unfold countAndMakeRun.
  set (isDescending := (compareFn elementLow elementHigh <? 0)%Z).
  assert (2 + runRest compareFn isDescending elementLow rest
          = 1 + runRest compareFn isDescending elementHigh (elementLow :: rest)) as ->.
  { simpl. fold isDescending. unfold isDescending.
    destruct (compareFn elementLow elementHigh <? 0)%Z eqn:E.
    - apply Z.ltb_lt in E. rewrite (proj2 (Z.leb_gt _ _)) by done. done.
    - done. }
  set (k := runRest compareFn isDescending elementHigh (elementLow :: rest)).
  assert (k ≤ length (elementLow :: rest)) as Hk.
  { unfold k. generalize elementHigh. generalize (elementLow :: rest).
    induction l0 as [|c l0 IH]; intros p; simpl; [lia|].
    destruct (if isDescending then _ else _); simpl; [lia|]. specialize (IH c). lia. }
  destruct isDescending eqn:Edesc.
  - split; [by rewrite reverse_Permutation, take_drop|].
    split.
    { rewrite length_app, length_reverse, length_take, length_drop. simpl in *. lia. }
    rewrite take_app_length'.
    2:{ rewrite length_reverse, length_take. simpl in *. lia. }
    change (take (1 + k) (elementHigh :: elementLow :: rest))
      with (elementHigh :: take k (elementLow :: rest)).
    by apply runRest_descending.
  - split; [done|]. split; [simpl in *; lia|].
    change (take (1 + k) (elementHigh :: elementLow :: rest))
      with (elementHigh :: take k (elementLow :: rest)).
    by apply runRest_ascending.
Qed.

Lemma insertionPoint_S (fuel : nat) (workArray : list A) (pivot : A) (left right : nat) :
  insertionPoint compareFn (S fuel) workArray pivot left right
  = if left <? right then
      match workArray !! (left + (right - left) / 2) with
      | Some element =>
          if (compareFn pivot element <? 0)%Z
          then insertionPoint compareFn fuel workArray pivot left (left + (right - left) / 2)
          else insertionPoint compareFn fuel workArray pivot
                 (left + (right - left) / 2 + 1) right
      | None => left
      end
    else left.
Proof. done. Qed.

(** The binary search of [binaryInsertionSort] finds, among the sorted
    elements before the pivot, the place where the pivot is in order. *)
Lemma insertionPoint_spec (workArray : list A) (start : nat) (pivot : A) :
  workArray ≡ₚ l →
  workArray !! start = Some pivot →
  StronglySorted R (take start workArray) →
  ∀ fuel left right,
    left ≤ right ≤ start →
    right - left ≤ fuel →
    Forall (fun y => R y pivot) (take left (take start workArray)) →
    Forall (fun y => R pivot y) (drop right (take start workArray)) →
    let place := insertionPoint compareFn fuel workArray pivot left right in
    place ≤ start ∧
    Forall (fun y => R y pivot) (take place (take start workArray)) ∧
    Forall (fun y => R pivot y) (drop place (take start workArray)).
Proof.
  intros Hperm Hpivot Hsorted.
  assert (NoDup workArray) as Hnd' by by rewrite Hperm.
  assert (∀ x, x ∈ workArray → x ∈ l) as Hsub by (intros x Hx; by rewrite <-Hperm).
  assert (pivot ∈ l) as Hp by (apply Hsub; by eapply list_elem_of_lookup_2).
  set (sorted := take start workArray) in *.
  assert (∀ x, x ∈ sorted → x ∈ l) as Hsub' by (intros x Hx; by eapply Hsub, elem_of_take_1).
  induction fuel as [|fuel IH]; intros left right Hlr Hfuel Hbefore Hafter.
  - simpl. assert (left = right) as -> by lia. split; [lia|done].
  - rewrite insertionPoint_S. destruct (left <? right) eqn:E.
    2:{ apply Nat.ltb_ge in E. assert (left = right) as -> by lia. split; [lia|done]. }
    apply Nat.ltb_lt in E.
    set (mid := left + (right - left) / 2) in *.
    assert (left ≤ mid < right) as Hmid.
    { pose proof (Nat.div_lt (right - left) 2 ltac:(lia) ltac:(lia)). unfold mid. lia. }
    destruct (workArray !! mid) as [element|] eqn:Emid.
    2:{ apply lookup_ge_None in Emid. apply lookup_lt_Some in Hpivot. lia. }
    assert (sorted !! mid = Some element) as Emid'
      by (unfold sorted; rewrite lookup_take_lt by lia; done).
    assert (element ∈ l) as He by (apply Hsub; by eapply list_elem_of_lookup_2).
    assert (pivot ≠ element) as Hne.
    { intros ->. pose proof (NoDup_lookup _ _ _ _ Hnd' Hpivot Emid). lia. }
    pose proof (take_drop_middle sorted mid element Emid') as Hsplit.
    rewrite <-Hsplit in Hsorted.
    apply StronglySorted_app in Hsorted as (Hcross & _ & Hright).
    apply StronglySorted_cons in Hright as [Hright _]. rewrite Forall_forall in Hright.
    destruct (compareFn pivot element <? 0)%Z eqn:Eorder.
    + apply Z.ltb_lt in Eorder. apply IH; [lia|lia|done|].
      assert (R pivot element) as Hpe by by apply Hlt.
      rewrite (drop_S _ _ _ Emid'). apply Forall_cons. split; [done|].
      apply Forall_forall. intros y Hy.
      apply (Htrans pivot element y); [done|done| |done|by apply Hright].
      apply Hsub'. by eapply elem_of_drop_1.
    + apply Z.ltb_ge in Eorder. apply IH; [lia|lia| |done].
      assert (R element pivot) as Hep by (apply Hge; [done|done|done|lia]).
      replace (mid + 1) with (S mid) by lia.
      rewrite (take_S_r _ _ _ Emid'). apply Forall_app. split; [|by apply Forall_singleton].
      apply Forall_forall. intros y Hy.
      apply (Htrans y element pivot); [|done|done| |done].
      * apply Hsub'. by eapply elem_of_take_1.
      * apply Hcross; [done|by left].
Qed.
(** One turn of the insertion: the sorted part grows by the pivot. *)
Lemma insertPivot_sorted (workArray : list A) (start : nat) :
  workArray ≡ₚ l →
  start < length workArray →
  StronglySorted R (take start workArray) →
  insertPivot compareFn workArray start ≡ₚ l ∧
  StronglySorted R (take (S start) (insertPivot compareFn workArray start)).
Proof.
  intros Hperm Hstart Hsorted. split; [by rewrite insertPivot_Permutation|].
  unfold insertPivot. destruct (lookup_lt_is_Some_2 _ _ Hstart) as [pivot Hpivot].
  rewrite Hpivot. cbv zeta.
  destruct (insertionPoint_spec workArray start pivot Hperm Hpivot Hsorted start 0 start)
    as (Hplace & Hbefore & Hafter); [lia|lia|by rewrite take_0| |].
  { rewrite drop_ge; [done|]. rewrite length_take. lia. }
  set (place := insertionPoint compareFn start workArray pivot 0 start) in *.
  set (sorted := take start workArray) in *.
  assert (length sorted = start) as Hlen by (unfold sorted; rewrite length_take; lia).
  assert (take (S start) (take place sorted ++ pivot :: drop place sorted
                          ++ drop (S start) workArray)
          = take place sorted ++ pivot :: drop place sorted) as ->.
  { rewrite app_comm_cons, app_assoc. apply take_app_length'.
    rewrite length_app, length_take. simpl. rewrite length_drop. lia. }
  rewrite <-(take_drop place sorted) in Hsorted.
  apply StronglySorted_app in Hsorted as (Hcross & Hleft & Hright).
  apply StronglySorted_app. split; [|split; [done|]].
  - intros x1 x2 Hx1 [->|Hx2]%elem_of_cons.
    + rewrite Forall_forall in Hbefore. by apply Hbefore.
    + by apply Hcross.
  - apply StronglySorted_cons. done.
Qed.
End Consistent.

(** Where the comparator decides every pair of different elements as a
    strict total order [R] does, the sort returns the elements in the
    order of [R]. *)
Lemma sort_StronglySorted l :
  NoDup l →
  (∀ x y, x ∈ l → y ∈ l → x ≠ y → (compareFn x y < 0)%Z → R x y) →
  (∀ x y, x ∈ l → y ∈ l → x ≠ y → ¬ (compareFn x y < 0)%Z → R y x) →
  (∀ x y z, x ∈ l → y ∈ l → z ∈ l → R x y → R y z → R x z) →
  StronglySorted R (sort compareFn l).
Proof.
  intros Hnd Hlt Hge Htrans. unfold sort.
  destruct (length l <? 2) eqn:Elen.
  { apply Nat.ltb_lt in Elen. destruct l as [|x [|y l']]; [repeat constructor..|].
    simpl in Elen. lia. }
  apply Nat.ltb_ge in Elen.
  pose proof (countAndMakeRun_sorted l Hnd Hlt Hge Htrans l ltac:(done) Elen) as Hrun.
  destruct (countAndMakeRun compareFn l) as [workArray runLength].
  destruct Hrun as (Hperm & Hlen & Hsorted).
  unfold binaryInsertionSort. rewrite decide_False by lia.
  assert (length workArray = length l) as Hlength by by rewrite Hperm.
  rewrite <-Hlength.
  assert (∀ count start array,
            array ≡ₚ l → start + count = length array →
            StronglySorted R (take start array) →
            StronglySorted R (foldl (insertPivot compareFn) array (seq start count))) as Hloop.
  { induction count as [|count IH]; intros start array Hp Hsum Hs; simpl.
    - rewrite take_ge in Hs by lia. done.
    - destruct (insertPivot_sorted l Hnd Hlt Hge Htrans array start Hp ltac:(lia) Hs)
        as [Hp' Hs'].
      apply IH; [done| |done].
      rewrite (Permutation_length Hp'), <-(Permutation_length Hp). lia. }
  apply Hloop; [done|lia|done].
Qed.
End SortSorted.

(** The binary search ends within [right - left] turns: more fuel than
    that changes nothing. *)
Lemma insertionPoint_fuel {A : Type} (compareFn : A → A → Z) (workArray : list A)
    (pivot : A) (fuel fuel' left right : nat) :
  right - left ≤ fuel → right - left ≤ fuel' →
  insertionPoint compareFn fuel workArray pivot left right
  = insertionPoint compareFn fuel' workArray pivot left right.
Proof.
  revert fuel' left right. induction fuel as [|fuel IH]; intros fuel' left right H1 H2.
  - destruct fuel' as [|fuel']; [done|]. rewrite insertionPoint_S.
    rewrite (proj2 (Nat.ltb_ge _ _)) by lia. done.
  - destruct fuel' as [|fuel'].
    + rewrite insertionPoint_S. rewrite (proj2 (Nat.ltb_ge _ _)) by lia. done.
    + rewrite !insertionPoint_S. destruct (left <? right) eqn:E; [|done].
      apply Nat.ltb_lt in E.
      pose proof (Nat.div_lt (right - left) 2 ltac:(lia) ltac:(lia)) as Hhalf.
      destruct (workArray !! _); [|done].
      destruct (_ <? 0)%Z; apply IH; lia.
Qed.

Lemma NoDup_split_inj {A} (l1 l2 l1' l2' : list A) (x : A) :
  NoDup (l1 ++ x :: l2) → l1 ++ x :: l2 = l1' ++ x :: l2' → l1 = l1'.
Proof.
  revert l1'. induction l1 as [|y l1 IH]; intros l1' Hnd Heq.
  - destruct l1' as [|y' l1']; [done|]. simpl in *. injection Heq as -> Heq.
    apply NoDup_cons in Hnd as [Hx _]. exfalso. apply Hx. rewrite Heq.
    apply elem_of_app. right. by left.
  - destruct l1' as [|y' l1']; simpl in *.
    + injection Heq as -> Heq. apply NoDup_cons in Hnd as [Hx _]. exfalso. apply Hx.
      apply elem_of_app. right. by left.
    + injection Heq as -> Heq. f_equal. apply NoDup_cons in Hnd as [_ Hnd]. by apply IH.
Qed.

Lemma toEntries_rows (rows : list Row) : row <$> toEntries rows = rows.
Proof.
  unfold toEntries. rewrite fmap_imap.
  rewrite (imap_ext _ (fun _ r => r)) by done.
  induction rows as [|r rows IH]; [done|]. simpl. f_equal. apply IH.
Qed.

Lemma toEntries_NoDup (rows : list Row) : NoDup (toEntries rows).
Proof. apply (NoDup_fmap_1 index). rewrite toEntries_index. apply NoDup_seq. Qed.

Lemma elem_of_toEntries (rows : list Row) (e : Entry) :
  e ∈ toEntries rows ↔ rows !! index e = Some (row e).
Proof.
  rewrite list_elem_of_lookup. split.
  - intros [i Hi]. apply toEntries_lookup in Hi as [Hr <-]. done.
  - intros Hr. exists (index e). by apply toEntries_lookup.
Qed.

Section Shuffle.
Variables (Date_parse : string → option Z) (localeCompare : string → string → Z).
Local Abbreviation compareFn := (compareEntries Date_parse localeCompare).
Local Abbreviation before := (keyBefore Date_parse localeCompare).
Local Abbreviation keys := (compareKeys Date_parse localeCompare).

Lemma compareEntries_keys a b z : keys (row a) (row b) = Some z → compareFn a b = z.
Proof.
  unfold compareKeys, compareEntries.
  destruct (safeDate Date_parse (row a !! DATE_FIELD)) as [ta|];
    destruct (safeDate Date_parse (row b !! DATE_FIELD)) as [tb|];
    repeat case_decide; naive_solver.
Qed.

Lemma compareKeys_None_sym ra rb : keys ra rb = None → keys rb ra = None.
Proof.
  unfold compareKeys.
  destruct (safeDate Date_parse (ra !! DATE_FIELD)) as [ta|];
    destruct (safeDate Date_parse (rb !! DATE_FIELD)) as [tb|];
    repeat case_decide; naive_solver.
Qed.

(** Where the keys put exactly one of two rows before the other, the
    comparator answers by the keys. *)
Lemma keyBefore_decides a b :
  xorb (before (row a) (row b)) (before (row b) (row a)) = true →
  (compareFn a b <? 0)%Z = before (row a) (row b).
Proof.
  unfold keyBefore. destruct (keys (row a) (row b)) as [z|] eqn:E.
  - by rewrite (compareEntries_keys _ _ _ E).
  - by rewrite (compareKeys_None_sym _ _ E).
Qed.

Lemma keysOrderStrictly_strictRows rows :
  keysOrderStrictly Date_parse localeCompare rows = true →
  strictRows Date_parse localeCompare rows.
Proof.
  unfold keysOrderStrictly. cbv zeta. rewrite forallb_forall. intros H.
  assert (∀ a b, a ∈ toEntries rows → b ∈ toEntries rows →
            (index a = index b ∨ row a !! JOB_ID_FIELD ≠ row b !! JOB_ID_FIELD ∨
             xorb (before (row a) (row b)) (before (row b) (row a)) = true) ∧
            ∀ c, c ∈ toEntries rows →
                 row a !! JOB_ID_FIELD = row b !! JOB_ID_FIELD →
                 row b !! JOB_ID_FIELD = row c !! JOB_ID_FIELD →
                 before (row a) (row b) = true → before (row b) (row c) = true →
                 before (row a) (row c) = true) as H'.
  { intros a b Ha Hb. apply list_elem_of_In in Ha, Hb.
    specialize (H a Ha). rewrite forallb_forall in H. specialize (H b Hb).
    apply andb_true_iff in H as [Hpair Htrans]. split.
    - apply orb_true_iff in Hpair as [Hpair|?]; [|by right; right].
      apply orb_true_iff in Hpair as [Heq|Hjob].
      + left. by apply Nat.eqb_eq.
      + right. left. apply negb_true_iff in Hjob. unfold sameJob in Hjob.
        by apply bool_decide_eq_false_1 in Hjob.
    - intros c Hc Hab Hbc Hb1 Hb2. rewrite forallb_forall in Htrans.
      apply list_elem_of_In in Hc. specialize (Htrans c Hc).
      unfold sameJob in Htrans.
      rewrite !bool_decide_eq_true_2, Hb1, Hb2 in Htrans by done. done. }
  clear H.
  assert (∀ r, r ∈ rows → ∃ e, e ∈ toEntries rows ∧ row e = r) as Hentry.
  { intros r [i Hi]%list_elem_of_lookup. exists {| row := r; index := i |}.
    split; [by apply elem_of_toEntries|done]. }
  assert (NoDup rows) as Hnd.
  { apply NoDup_alt. intros i j r Hi Hj.
    destruct (decide (i = j)) as [|Hne]; [done|]. exfalso.
    destruct (H' {| row := r; index := i |} {| row := r; index := j |}) as [Hpair _];
      [by apply elem_of_toEntries..|].
    simpl in Hpair. destruct Hpair as [?|[?|Hx]]; [done|done|].
    by rewrite xorb_nilpotent in Hx. }
  split; [done|]. split.
  - intros ra rb [i Hi]%list_elem_of_lookup [j Hj]%list_elem_of_lookup Hne Hjob.
    destruct (H' {| row := ra; index := i |} {| row := rb; index := j |}) as [Hpair _];
      [by apply elem_of_toEntries..|].
    simpl in Hpair. destruct Hpair as [->|[?|Hx]]; [|done|done].
    congruence.
  - intros ra rb rc Ha Hb Hc Hab Hbc H1 H2.
    destruct (Hentry _ Ha) as (a & Ha' & <-). destruct (Hentry _ Hb) as (b & Hb' & <-).
    destruct (Hentry _ Hc) as (c & Hc' & <-).
    destruct (H' a b Ha' Hb') as [_ Ht]. by apply (Ht c).
Qed.

Lemma strictRows_Permutation rows rows' :
  rows ≡ₚ rows' → strictRows Date_parse localeCompare rows →
  strictRows Date_parse localeCompare rows'.
Proof.
  intros Hperm (Hnd & Hpair & Htrans). split; [|split].
  - by rewrite <-Hperm.
  - intros ra rb Ha Hb. rewrite <-Hperm in Ha, Hb. by apply Hpair.
  - intros ra rb rc Ha Hb Hc. rewrite <-Hperm in Ha, Hb, Hc. by apply Htrans.
Qed.

Lemma group_rows (rows : list Row) (k : option string) :
  row <$> filter (fun e => jobOf e = k) (toEntries rows)
  = filter (fun r => r !! JOB_ID_FIELD = k) rows.
Proof.
  rewrite <-(toEntries_rows rows) at 2.
  induction (toEntries rows) as [|e es IH]; [done|].
  csimpl. rewrite !filter_cons. unfold jobOf at 1.
  destruct (decide (row e !! JOB_ID_FIELD = k)); csimpl; by rewrite IH.
Qed.

(** Under keys that order the rows strictly, the rows of a sorted group
    stand in the order of the keys. *)
Lemma sorted_group_rows (rows : list Row) (k : option string) :
  strictRows Date_parse localeCompare rows →
  StronglySorted (fun ra rb => before ra rb = true)
    (row <$> sort compareFn (filter (fun e => jobOf e = k) (toEntries rows))).
Proof.
  intros (Hnd & Hpair & Htrans).
  apply (StronglySorted_fmap row (fun a b => before (row a) (row b) = true)); [done|].
  set (G := filter (fun e => jobOf e = k) (toEntries rows)).
  assert (∀ x, x ∈ G → row x ∈ rows ∧ row x !! JOB_ID_FIELD = k) as HG.
  { intros x [Hjob Hx]%list_elem_of_filter. split; [|done].
    apply elem_of_toEntries in Hx. by eapply list_elem_of_lookup_2. }
  assert (∀ x y, x ∈ G → y ∈ G → x ≠ y →
            xorb (before (row x) (row y)) (before (row y) (row x)) = true) as Hx.
  { intros x y Hx Hy Hne. destruct (HG x Hx) as [Hxr Hxj], (HG y Hy) as [Hyr Hyj].
    apply Hpair; [done|done| |congruence].
    intros Heq. apply Hne.
    apply list_elem_of_filter in Hx as [_ Hx]. apply list_elem_of_filter in Hy as [_ Hy].
    apply elem_of_toEntries in Hx, Hy. rewrite Heq in Hx.
    pose proof (NoDup_lookup _ _ _ _ Hnd Hx Hy). destruct x, y; simpl in *. congruence. }
  apply sort_StronglySorted.
  - apply NoDup_filter, toEntries_NoDup.
  - intros x y Hx' Hy' Hne Hlt. rewrite <-(keyBefore_decides x y) by auto.
    by apply Z.ltb_lt.
  - intros x y Hx' Hy' Hne Hge. specialize (Hx x y Hx' Hy' Hne).
    rewrite <-(keyBefore_decides x y) in Hx by auto.
    apply Z.ltb_nlt in Hge. rewrite Hge in Hx. simpl in Hx. done.
  - intros x y z Hx' Hy' Hz'.
    destruct (HG x Hx') as [? ?], (HG y Hy') as [? ?], (HG z Hz') as [? ?].
    apply Htrans; congruence.
Qed.
End Shuffle.

Section ShuffleClaims.
Variables (Date_parse : string → option Z) (localeCompare : string → string → Z).
Variable statusOrder : list string.
Local Abbreviation statusIndex := (buildStatusIndex statusOrder).
Local Abbreviation compareFn := (compareEntries Date_parse localeCompare).
Local Abbreviation before := (keyBefore Date_parse localeCompare).
Local Abbreviation start :=
  (initialCursor (buildStatusSet statusOrder) (buildStatusIndex statusOrder)).
Local Abbreviation next := (nextCursor statusOrder (buildStatusIndex statusOrder)).

(** The loop reads an entry's row, never its position. *)
Lemma foldl_nextCursor_rows cur (l l' : list Entry) :
  row <$> l = row <$> l' → foldl next cur l = foldl next cur l'.
Proof.
  revert cur l'. induction l as [|e l IH]; intros cur [|e' l'] Heq; try done.
  csimpl in Heq. injection Heq as Hrow Heq. cbn [foldl].
  unfold nextCursor at 2 4. rewrite Hrow. by apply IH.
Qed.

(** The assignment of a row, from the sorted group of its job. *)
Lemma run_lookup_sorted (rows : list Row) (i : nat) (r : Row) :
  rows !! i = Some r →
  ∃ l1 l2,
    sort compareFn (filter (fun e => jobOf e = r !! JOB_ID_FIELD) (toEntries rows))
    = l1 ++ {| row := r; index := i |} :: l2 ∧
    run Date_parse localeCompare statusOrder rows !! i
    = Some (committed statusOrder statusIndex (foldl next start l1)
                      {| row := r; index := i |}).
Proof.
  intros Hr.
  destruct (entry_sorted_split Date_parse localeCompare rows i r Hr)
    as ([k entries] & l1 & l2 & Hg & Hsplit).
  pose proof (inferStatuses_lookup Date_parse localeCompare statusOrder rows
                _ _ _ _ Hg Hsplit) as Hrun.
  simpl in Hsplit. pose proof (groupStep_fold_elem_of _ _ _ Hg) as ->.
  assert ({| row := r; index := i |} ∈
          sort compareFn (filter (fun e => jobOf e = k) (toEntries rows))) as He.
  { rewrite Hsplit. apply elem_of_app. right. by left. }
  apply elem_of_sort, list_elem_of_filter in He as [Hjob _].
  unfold jobOf in Hjob at 1. simpl in Hjob. subst k.
  by exists l1, l2.
Qed.

(** C9, amended.  Let the keys order the rows of every job strictly: of
    two rows of a job the date and the DWR number put exactly one before
    the other, and transitively so.  Then for every permutation of the
    input, a row is assigned the same status in both runs. *)
Theorem shuffle_invariance (rows rows' : list Row) (i j : nat) (r : Row) :
  keysOrderStrictly Date_parse localeCompare rows = true →
  rows ≡ₚ rows' →
  rows !! i = Some r →
  rows' !! j = Some r →
  run Date_parse localeCompare statusOrder rows' !! j
  = run Date_parse localeCompare statusOrder rows !! i.
Proof.
  intros Hkeys Hperm Hi Hj.
  pose proof (keysOrderStrictly_strictRows _ _ _ Hkeys) as Hs.
  pose proof (strictRows_Permutation _ _ _ _ Hperm Hs) as Hs'.
  destruct (run_lookup_sorted rows i r Hi) as (l1 & l2 & Hsort & ->).
  destruct (run_lookup_sorted rows' j r Hj) as (l1' & l2' & Hsort' & ->).
  set (k := r !! JOB_ID_FIELD) in *.
  set (G := filter (fun e => jobOf e = k) (toEntries rows)) in *.
  set (G' := filter (fun e => jobOf e = k) (toEntries rows')) in *.
  assert (row <$> sort compareFn G ≡ₚ filter (fun x : Row => x !! JOB_ID_FIELD = k) rows)
    as HL by (by rewrite sort_Permutation; unfold G; rewrite group_rows).
  assert (row <$> sort compareFn G' ≡ₚ filter (fun x : Row => x !! JOB_ID_FIELD = k) rows')
    as HL' by (by rewrite sort_Permutation; unfold G'; rewrite group_rows).
  assert (row <$> sort compareFn G = row <$> sort compareFn G') as Hsame.
  { apply (StronglySorted_unique_strong (fun ra rb => before ra rb = true)).
    - intros x1 x2 Hx1 Hx2 H12 H21.
      destruct (decide (x1 = x2)) as [|Hne]; [done|]. exfalso.
      rewrite HL in Hx1. rewrite HL' in Hx2.
      apply list_elem_of_filter in Hx1 as [Hk1 Hx1].
      apply list_elem_of_filter in Hx2 as [Hk2 Hx2].
      rewrite <-Hperm in Hx2. destruct Hs as (_ & Hpair & _).
      specialize (Hpair x1 x2 Hx1 Hx2 Hne ltac:(congruence)).
      by rewrite H12, H21 in Hpair.
    - by apply sorted_group_rows.
    - by apply sorted_group_rows.
    - by rewrite HL, HL', Hperm. }
  assert (NoDup (row <$> sort compareFn G)) as Hnd.
  { rewrite HL. apply NoDup_filter. by destruct Hs. }
  assert (row <$> sort compareFn G = (row <$> l1) ++ r :: (row <$> l2)) as E
    by (by rewrite Hsort, fmap_app).
  assert (row <$> sort compareFn G' = (row <$> l1') ++ r :: (row <$> l2')) as E'
    by (by rewrite Hsort', fmap_app).
  rewrite E in Hnd. rewrite E, E' in Hsame.
  pose proof (NoDup_split_inj _ _ _ _ _ Hnd Hsame) as Hbefore.
  rewrite (foldl_nextCursor_rows start l1' l1) by done.
  done.
Qed.
End ShuffleClaims.

(** C9 as stated fails: two rows of one job that carry neither a date nor
    a DWR number are processed in input order.  After the technician's
    row the clerk's row carries Field Work in Progress forward; before it,
    the clerk's row is assigned Estimating. *)
Lemma shuffle_changes_assignment :
  let tech : Row :=
    {[ JOB_ID_FIELD := "J1"%string; ROLE_FIELD := "Field Technician"%string;
       STATUS_FIELD := "Field Work in Progress"%string ]} in
  let clerk : Row := {[ JOB_ID_FIELD := "J1"%string; ROLE_FIELD := "Clerk"%string ]} in
  [tech; clerk] ≡ₚ [clerk; tech] ∧
  ∀ (Date_parse : string → option Z) (localeCompare : string → string → Z),
    run Date_parse localeCompare canonicalOrder [tech; clerk] !! 1
    = Some (Some "Field Work in Progress"%string) ∧
    run Date_parse localeCompare canonicalOrder [clerk; tech] !! 0
    = Some (Some "Estimating"%string).
Proof.
  intros tech clerk. split; [apply Permutation_swap|].
  intros Date_parse localeCompare. split; vm_compute; reflexivity.
Qed.

Lemma shuffle_invariance_witness :
  let manager : Row :=
    {[ JOB_ID_FIELD := "J1"%string; ROLE_FIELD := "Project Manager"%string;
       STATUS_FIELD := "Checking"%string; DWR_FIELD := "2"%string ]} in
  let tech : Row :=
    {[ JOB_ID_FIELD := "J1"%string; ROLE_FIELD := "Field Technician"%string;
       STATUS_FIELD := "Field Work in Progress"%string; DWR_FIELD := "1"%string ]} in
  keysOrderStrictly noDates byteCompare [manager; tech] = true ∧
  run noDates byteCompare canonicalOrder [tech; manager] !! 1
  = run noDates byteCompare canonicalOrder [manager; tech] !! 0.
Proof.
  intros manager tech. split; [reflexivity|].
  apply (shuffle_invariance noDates byteCompare canonicalOrder
           [manager; tech] [tech; manager] 0 1 manager);
    [reflexivity|apply Permutation_swap|reflexivity|reflexivity].
Defined.

(** ** What the cap of an unmatched role costs *)

(** The cap of a row, in full: it is never below the floor; where some
    cap entry matches the role it is the least rank among the matching
    entries, or the floor when that is lower; where none matches it is
    the floor. *)
Theorem roleCapIndex_cases (r : Row) (statusOrder : list string) (floorIdx : nat) :
  let statusIndex := buildStatusIndex statusOrder in
  floorIdx ≤ roleCapIndex r statusIndex floorIdx ∧
  (∀ capRank, leastRank (appliedCapRanks statusIndex r) = Some capRank →
              roleCapIndex r statusIndex floorIdx = floorIdx `max` capRank) ∧
  (uncapped r = true → roleCapIndex r statusIndex floorIdx = floorIdx).
Proof.
  intros statusIndex. split; [apply roleCapIndex_ge_floor|]. split.
  - intros capRank. apply roleCapIndex_leastRank.
  - intros Hun. apply roleCapIndex_unmatched. by apply uncapped_spec.
Qed.

Section Ceiling.
Variables (Date_parse : string → option Z) (localeCompare : string → string → Z).
Local Abbreviation statusIndex := (buildStatusIndex canonicalOrder).
Local Abbreviation start :=
  (initialCursor (buildStatusSet canonicalOrder) (buildStatusIndex canonicalOrder)).
Local Abbreviation next := (nextCursor canonicalOrder (buildStatusIndex canonicalOrder)).

Lemma canonical_caps_le_10 (r : Row) (floorIdx : nat) :
  floorIdx ≤ 10 → roleCapIndex r statusIndex floorIdx ≤ 10.
Proof.
  intros Hfloor. unfold roleCapIndex.
  pose proof (capStep_fold (orEmpty (r !! ROLE_FIELD)) statusIndex ROLE_MAX_STATUS None) as H.
  destruct (foldl _ _ _) as [m|]; [|done].
  destruct H as ([?|(cap & Hcap & _ & Hm)] & _); [done|].
  assert (Forall (fun cap => ∀ m, statusIndex !! cap_maxStatus cap = Some m → m ≤ 10)
                 ROLE_MAX_STATUS) as Hall.
  { unfold ROLE_MAX_STATUS. rewrite !Forall_cons.
    repeat split; try apply Forall_nil; try exact I;
      intros m' Hm'; vm_compute in Hm'; injection Hm' as <-; lia. }
  rewrite Forall_forall in Hall. specialize (Hall cap Hcap m Hm). lia.
Qed.

Lemma canonical_cursor_le_10 (cur : Cursor) (l : list Entry) :
  currentIdx cur ≤ 10 → currentIdx (foldl next cur l) ≤ 10.
Proof.
  revert cur. induction l as [|e l IH]; intros cur Hcur; simpl; [done|].
  apply IH. unfold nextCursor. destruct (isEmptyRow (row e)); [done|].
  etrans; [apply advance_currentIdx_cap|]. by apply canonical_caps_le_10.
Qed.

(** Under the canonical order no run of the scoring variant assigns a
    status after Final Submission Sent (rank 10), whatever the rows say:
    Ready to Invoice, Invoiced and Complete are out of reach, because a
    rank moves only up to a cap and the caps end at rank 10. *)
Theorem canonical_run_stops_at_rank_10 (rows : list Row) (i : nat) (status : string) :
  run Date_parse localeCompare canonicalOrder rows !! i = Some (Some status) →
  status = ""%string ∨ ∃ rank, statusIndex !! status = Some rank ∧ rank ≤ 10.
Proof.
  intros Hrun.
  assert (∃ r, rows !! i = Some r) as [r Hr].
  { apply forEachGroup_lookup_Some with
      (next := next) (out := committed canonicalOrder statusIndex) in Hrun;
      [|apply processEntry_shape].
    unfold groupRows in Hrun.
    rewrite groupStep_fold_Permutation, toEntries_index in Hrun.
    apply elem_of_seq in Hrun. apply lookup_lt_is_Some_2. lia. }
  destruct (entry_sorted_split Date_parse localeCompare rows i r Hr)
    as (g & l1 & l2 & Hg & Hsplit).
  pose proof (inferStatuses_lookup Date_parse localeCompare canonicalOrder rows
                g l1 _ l2 Hg Hsplit) as H.
  cbn [index] in H. rewrite H in Hrun. injection Hrun as Hrun.
  unfold committed in Hrun. cbn [row] in Hrun.
  destruct (isEmptyRow r); [left; congruence|]. right.
  set (cur := foldl next start l1) in *.
  assert (cursorOk statusIndex cur) as Hok.
  { apply foldl_nextCursor_ok, initialCursor_ok. done. }
  assert (currentIdx cur ≤ 10) as Hcur.
  { apply canonical_cursor_le_10. vm_compute. lia. }
  destruct (advance_ok canonicalOrder cur r Hok) as [_ (r0 & rank & _ & Hrank & _ & Hle)].
  pose proof (advance_currentIdx_cap canonicalOrder cur r) as Hcap.
  pose proof (canonical_caps_le_10 r (currentIdx cur) Hcur).
  rewrite Hrun in Hrank. simpl in Hrank. exists rank. split; [done|lia].
Qed.
End Ceiling.

Lemma canonical_run_stops_at_rank_10_witness :
  let rows : list Row :=
    [ {[ ROLE_FIELD := "Project Manager"%string; STATUS_FIELD := "Complete"%string;
         DESCRIPTION_FIELD := "project complete, final invoice sent"%string ]} ] in
  run noDates byteCompare canonicalOrder rows !! 0
  = Some (Some "Final Submission Sent"%string) ∧
  ("Final Submission Sent"%string = ""%string ∨
   ∃ rank, buildStatusIndex canonicalOrder !! "Final Submission Sent"%string = Some rank ∧
           rank ≤ 10).
Proof.
  intros rows. split; [reflexivity|].
  apply (canonical_run_stops_at_rank_10 noDates byteCompare rows 0). reflexivity.
Defined.

(** ** Two more scenarios *)

Section MoreScenarios.
Variables (Date_parse : string → option Z) (localeCompare : string → string → Z).

(** The role cap overrides the keywords: a field technician's row whose
    description speaks of a final package and a complete project is
    assigned Field Work in Progress, the cap of the role, though the
    keywords score for Final Submission Sent and for Complete. *)
Theorem role_cap_scenario :
  let statusIndex := buildStatusIndex canonicalOrder in
  let r : Row :=
    {[ ROLE_FIELD := "Field Technician"%string;
       DESCRIPTION_FIELD := "final package issued, project complete"%string ]} in
  run Date_parse localeCompare canonicalOrder [r]
  = {[ 0 := Some "Field Work in Progress"%string ]} ∧
  Map_get "Complete"%string (scoreStatuses r canonicalOrder statusIndex) = Some 2%Z ∧
  roleCapIndex r statusIndex 0 = 5.
Proof. vm_compute. repeat split; reflexivity. Qed.

(** The tie-break prefers the later stage: a drafter's row scores 3
    points for Drafting and 3 for Ready to Check, and between ranks 0 and
    13 the selection returns rank 8, Ready to Check. *)
Theorem tie_break_scenario :
  let statusIndex := buildStatusIndex canonicalOrder in
  let r : Row := {[ ROLE_FIELD := "Designer"%string ]} in
  Map_get "Drafting"%string (scoreStatuses r canonicalOrder statusIndex) = Some 6%Z ∧
  Map_get "Ready to Check"%string (scoreStatuses r canonicalOrder statusIndex) = Some 6%Z ∧
  statusIndex !! "Drafting"%string = Some 7 ∧
  statusIndex !! "Ready to Check"%string = Some 8 ∧
  pickStatusFromSignals r 0 13 canonicalOrder statusIndex = Some 8.
Proof. vm_compute. repeat split; reflexivity. Qed.
End MoreScenarios.

(** ** Rows without a capped role, under any status order *)

Section Uncapped.
Variables (Date_parse : string → option Z) (localeCompare : string → string → Z).
Variable statusOrder : list string.
Local Abbreviation statusIndex := (buildStatusIndex statusOrder).
Local Abbreviation start :=
  (initialCursor (buildStatusSet statusOrder) (buildStatusIndex statusOrder)).
Local Abbreviation next := (nextCursor statusOrder (buildStatusIndex statusOrder)).

Lemma start_at_fallback :
  DEFAULT_FALLBACK_STATUS ∈ statusOrder →
  ∃ c, statusIndex !! DEFAULT_FALLBACK_STATUS = Some c ∧
       start = {| current := Some DEFAULT_FALLBACK_STATUS; currentIdx := c |}.
Proof.
  intros Hin. pose proof Hin as [c Hc]%buildStatusIndex_is_Some.
  exists c. split; [done|]. rewrite buildStatusSet_eq. unfold initialCursor, Set_has.
  rewrite bool_decide_eq_true_2 by (by apply Set_from_elem_of). simpl. by rewrite Hc.
Qed.

Lemma advance_uncapped_at_fallback (c : nat) (r : Row) :
  statusIndex !! DEFAULT_FALLBACK_STATUS = Some c →
  uncapped r = true →
  advance statusOrder statusIndex
    {| current := Some DEFAULT_FALLBACK_STATUS; currentIdx := c |} r
  = {| current := Some DEFAULT_FALLBACK_STATUS; currentIdx := c |}.
Proof.
  intros Hc Hun. pose proof (uncapped_spec _ Hun) as Hno.
  unfold advance. cbn [currentIdx current].
  rewrite (roleCapIndex_unmatched r statusIndex c Hno).
  set (c1 := match r !! STATUS_FIELD ≫= (statusIndex !!.) with
             | Some e => (c `max` e) `min` c
             | None => c
             end).
  assert (c1 = c) as -> by (unfold c1; destruct (_ ≫= _); lia).
  set (c2 := match pickStatusFromSignals r c c statusOrder statusIndex with
             | Some s => (c `max` s) `min` c
             | None => c
             end).
  assert (c2 = c) as -> by (unfold c2; destruct (pickStatusFromSignals _ _ _ _ _); lia).
  unfold statusAtOr. rewrite (buildStatusIndex_lookup _ _ _ Hc).
  by rewrite decide_False.
Qed.

(** Where every row of the input has a role that no cap entry matches,
    every row that is not empty is assigned the fallback status, whatever
    its explicit status and its description say.  The keyword-only
    scenario and the explicit-regression scenario are instances, under
    any status order that has Estimating. *)
Theorem uncapped_rows_stay_at_fallback (rows : list Row) (i : nat) (r : Row) :
  DEFAULT_FALLBACK_STATUS ∈ statusOrder →
  forallb uncapped rows = true →
  rows !! i = Some r →
  isEmptyRow r = false →
  run Date_parse localeCompare statusOrder rows !! i = Some (Some DEFAULT_FALLBACK_STATUS).
Proof.
  intros Hin Hall Hr Hne. rewrite forallb_forall in Hall.
  destruct (start_at_fallback Hin) as (c & Hc & Hstart).
  destruct (entry_sorted_split Date_parse localeCompare rows i r Hr)
    as (g & l1 & l2 & Hg & Hsplit).
  pose proof (inferStatuses_lookup Date_parse localeCompare statusOrder rows
                g l1 _ l2 Hg Hsplit) as H.
  cbn [index] in H. rewrite H. clear H.
  assert (∀ e, e ∈ g.2 → uncapped (row e) = true) as Hg2.
  { intros e He. destruct g as [k entries]. simpl in He.
    pose proof (groupStep_fold_elem_of _ _ _ Hg) as ->.
    apply list_elem_of_filter in He as [_ He]. apply elem_of_toEntries in He.
    apply Hall, list_elem_of_In. by eapply list_elem_of_lookup_2. }
  assert (∀ l, (∀ e, e ∈ l → uncapped (row e) = true) → foldl next start l = start) as Hfix.
  { induction l as [|e l IH]; intros Hl; [done|]. cbn [foldl].
    assert (next start e = start) as ->.
    { unfold nextCursor. destruct (isEmptyRow (row e)); [done|].
      rewrite Hstart. apply advance_uncapped_at_fallback; [done|]. apply Hl. by left. }
    apply IH. intros e' He'. apply Hl. by right. }
  rewrite Hfix.
  - unfold committed. cbn [row]. rewrite Hne, Hstart.
    rewrite advance_uncapped_at_fallback; [done|done|].
    apply Hall, list_elem_of_In. by eapply list_elem_of_lookup_2.
  - intros e He. apply Hg2. rewrite <-(elem_of_sort (compareEntries Date_parse localeCompare)).
    rewrite Hsplit. apply elem_of_app. by left.
Qed.
End Uncapped.

Lemma uncapped_rows_stay_at_fallback_witness :
  let rows : list Row :=
    [ {[ STATUS_FIELD := "Complete"%string ]};
      {[ ROLE_FIELD := "Accounting"%string;
         DESCRIPTION_FIELD := "final invoice sent, job complete"%string ]} ] in
  run noDates byteCompare canonicalOrder rows !! 1 = Some (Some "Estimating"%string).
Proof.
  intros rows.
  apply (uncapped_rows_stay_at_fallback noDates byteCompare canonicalOrder rows 1
           (rows !!! 1)); [|reflexivity..].
  apply (bool_decide_unpack _). vm_compute. exact I.
Defined.


(** * The files *)

(** ** Strings *)

Lemma append_nil_l (s : string) : (EmptyString +:+ s)%string = s.
Proof. done. Qed.

Lemma append_cons (c : ascii) (s t : string) :
  (String c s +:+ t)%string = String c (s +:+ t).
Proof. done. Qed.

Lemma append_nil_r (s : string) : (s +:+ EmptyString)%string = s.
Proof. induction s as [|c s IH]; [done|]. by rewrite append_cons, IH. Qed.

Lemma append_assoc (s1 s2 s3 : string) :
  ((s1 +:+ s2) +:+ s3)%string = (s1 +:+ (s2 +:+ s3))%string.
Proof. induction s1 as [|c s1 IH]; [done|]. by rewrite !append_cons, IH. Qed.

Lemma addChar_append (field : string) (c : ascii) (rest : string) :
  (addChar field c +:+ rest)%string = (field +:+ String c rest)%string.
Proof. unfold addChar. by rewrite append_assoc. Qed.

Lemma append_length (s1 s2 : string) :
  String.length (s1 +:+ s2) = String.length s1 + String.length s2.
Proof. induction s1 as [|c s1 IH]; [done|]. rewrite append_cons. simpl. by rewrite IH. Qed.

Lemma nonempty_snoc {A} (l : list A) : l ≠ [] → ∃ l' x, l = l' ++ [x].
Proof. induction l as [|x l _] using rev_ind; [done|]. eauto. Qed.

(** ** Parsing what the writer wrote *)

Section ParseWritten.
Implicit Types (rows : list (list string)) (fields : list string) (rest field : string).

(** A value that needs no quotes is read as it stands. *)
Lemma parseLoop_plain (v : string) rest rows field fields :
  needsQuote v = false →
  parseLoop (v +:+ rest) rows field fields false
  = parseLoop rest rows (field +:+ v) fields false.
Proof.
  revert field. induction v as [|c v IH]; intros field Hv.
  - by rewrite append_nil_r.
  - rewrite append_cons. simpl. simpl in Hv. apply orb_false_iff in Hv as [Hc Hv].
    apply bool_decide_eq_false_1 in Hc.
    rewrite !decide_False by tauto. rewrite IH by done. by rewrite addChar_append.
Qed.

(** Inside quotes, the doubled quotes of a value are read back single, up
    to the closing quote. *)
Lemma parseLoop_quoted (v : string) rest rows field fields :
  (∀ rest', rest ≠ String QUOTE rest') →
  parseLoop (doubleQuotes v +:+ String QUOTE rest) rows field fields true
  = parseLoop rest rows (field +:+ v) fields false.
Proof.
  intros Hrest. revert field. induction v as [|c v IH]; intros field.
  - rewrite append_nil_r. simpl.
    destruct rest as [|next rest']; [done|].
    rewrite decide_False; [done|]. intros ->. by eapply Hrest.
  - simpl. destruct (decide (c = QUOTE)) as [->|Hc]; rewrite !append_cons; simpl.
    + rewrite IH. by rewrite addChar_append.
    + rewrite decide_False by done. rewrite IH. by rewrite addChar_append.
Qed.

Lemma parseLoop_value (v : string) rest rows field fields :
  (∀ rest', rest ≠ String QUOTE rest') →
  parseLoop (stringifyValue v +:+ rest) rows field fields false
  = parseLoop rest rows (field +:+ v) fields false.
Proof.
  intros Hrest. unfold stringifyValue. destruct (needsQuote v) eqn:Hq.
  - rewrite append_cons. simpl.
    rewrite append_assoc, append_cons, append_nil_l.
    by apply parseLoop_quoted.
  - by apply parseLoop_plain.
Qed.

Lemma csvLine_cons (v v' : string) (vs : list string) :
  csvLine (v :: v' :: vs)
  = (stringifyValue v +:+ String COMMA (csvLine (v' :: vs)))%string.
Proof. done. Qed.

(** A line is read back as its values: all but the last in the row, the
    last in the field. *)
Lemma parseLoop_line (vs : list string) (v : string) rest rows fields :
  (∀ rest', rest ≠ String QUOTE rest') →
  parseLoop (csvLine (vs ++ [v]) +:+ rest) rows EmptyString fields false
  = parseLoop rest rows v (fields ++ vs) false.
Proof.
  intros Hrest. revert fields. induction vs as [|v0 vs IH]; intros fields.
  - change (csvLine ([] ++ [v])) with (stringifyValue v).
    rewrite parseLoop_value by done. by rewrite app_nil_r.
  - assert (∃ v1 vs1, vs ++ [v] = v1 :: vs1) as (v1 & vs1 & E).
    { destruct vs; simpl; eauto. }
    rewrite <-app_comm_cons, E, csvLine_cons, append_assoc, append_cons.
    rewrite parseLoop_value by (intros rest'; discriminate).
    simpl. rewrite <-E, IH. by rewrite <-app_assoc.
Qed.

Lemma csvText_cons (line line' : list string) (table : list (list string)) :
  csvText (line :: line' :: table)
  = (csvLine line +:+ String LF (csvText (line' :: table)))%string.
Proof. done. Qed.

(** A table of rows that are not empty is read back row by row; the last
    row is left in the row and the field being built. *)
Lemma parseLoop_table (table : list (list string)) (vs : list string) (v : string) rows :
  Forall (fun line => line ≠ []) table →
  parseLoop (csvText (table ++ [vs ++ [v]])) rows EmptyString [] false
  = (rows ++ table, v, vs).
Proof.
  revert rows. induction table as [|line table IH]; intros rows Hne.
  - change (csvText ([] ++ [vs ++ [v]])) with (csvLine (vs ++ [v])).
    rewrite <-(append_nil_r (csvLine (vs ++ [v]))).
    rewrite parseLoop_line by (intros rest'; discriminate).
    simpl. by rewrite app_nil_r.
  - apply Forall_cons in Hne as [Hline Hne].
    assert (∃ l1 table1, table ++ [vs ++ [v]] = l1 :: table1) as (l1 & table1 & E).
    { destruct table; simpl; eauto. }
    rewrite <-app_comm_cons, E, csvText_cons, <-E.
    destruct (nonempty_snoc line Hline) as (ws & w & ->).
    rewrite parseLoop_line by (intros rest'; discriminate).
    simpl. rewrite IH by done. by rewrite <-app_assoc.
Qed.

(** The rows read from the text of a table. *)
Lemma parseCSV_written (table : list (list string)) :
  Forall (fun line => line ≠ []) table →
  parseCSV (csvText table)
  = (if decide (last table = Some [EmptyString])
     then take (length table - 1) table else table) ∧
  (table ≠ [] → parseCSV (csvText table +:+ String LF EmptyString) = table).
Proof.
  intros Hne. destruct table as [|line0 table0 _] using rev_ind.
  { split; [done|]. intros []. done. }
  apply Forall_app in Hne as [Hne Hlast]. rewrite Forall_singleton in Hlast.
  destruct (nonempty_snoc line0 Hlast) as (vs & v & ->).
  split.
  - unfold parseCSV. rewrite parseLoop_table by done. rewrite last_snoc. simpl.
    destruct (decide (Some (vs ++ [v]) = Some [EmptyString])) as [E|E].
    + injection E as E. destruct vs as [|x vs]; [|by destruct vs].
      injection E as ->. simpl.
      rewrite length_app. simpl. replace (length table0 + 1 - 1) with (length table0) by lia.
      by rewrite take_app_length.
    + destruct vs as [|x vs]; simpl.
      * destruct v as [|c v]; [done|]. simpl. done.
      * by rewrite orb_true_r.
  - intros _. unfold parseCSV.
    assert (∀ rows, parseLoop (csvText (table0 ++ [vs ++ [v]]) +:+ String LF EmptyString)
                      rows EmptyString [] false
                    = (rows ++ table0 ++ [vs ++ [v]], EmptyString, [])) as ->; [|done].
    clear -Hne. induction table0 as [|line table IH]; intros rows.
    + change (csvText ([] ++ [vs ++ [v]])) with (csvLine (vs ++ [v])).
      rewrite parseLoop_line by (intros rest'; discriminate). done.
    + apply Forall_cons in Hne as [Hline Hne].
      assert (∃ l1 table1, table ++ [vs ++ [v]] = l1 :: table1) as (l1 & table1 & E).
      { destruct table; simpl; eauto. }
      rewrite <-app_comm_cons, E, csvText_cons, <-E.
      destruct (nonempty_snoc line Hline) as (ws & w & ->).
      rewrite append_assoc, append_cons.
      rewrite parseLoop_line by (intros rest'; discriminate).
      simpl. rewrite IH by done. by rewrite <-app_assoc.
Qed.

(** The parser inverts the writer.  A table whose rows all have a value
    is read back from its text as it was, except that a last row that is
    one empty value leaves no trace in the text and is not read back;
    with a line feed after the last row, every such table is read back as
    it was. *)
Theorem parseCSV_csvText (table : list (list string)) :
  Forall (fun line => line ≠ []) table →
  parseCSV (csvText table)
  = (if decide (last table = Some [EmptyString])
     then take (length table - 1) table else table) ∧
  (table ≠ [] → parseCSV (csvText table +:+ String LF EmptyString) = table).
Proof. exact (parseCSV_written table). Qed.
End ParseWritten.

Lemma parseCSV_csvText_witness :
  let table := [["a,b"%string; EmptyString]; [String QUOTE "x"; "y"%string]; [EmptyString]] in
  parseCSV (csvText table) = take 2 table ∧
  (table ≠ [] → parseCSV (csvText table +:+ String LF EmptyString) = table).
Proof.
  intros table. apply (parseCSV_csvText table). repeat constructor; discriminate.
Defined.

(** ** What the parser returns on any text *)

Lemma string_ind2 (P : string → Prop) :
  P EmptyString →
  (∀ c, P (String c EmptyString)) →
  (∀ c1 c2 s, P s → P (String c2 s) → P (String c1 (String c2 s))) →
  ∀ s, P s.
Proof.
  intros H0 H1 H2 s.
  assert (P s ∧ ∀ c, P (String c s)) as [? _]; [|done].
  induction s as [|c s [IH1 IH2]]; [by split|]. split; [apply IH2|].
  intros c'. by apply H2.
Qed.

(** One turn of the loop. *)
Lemma parseLoop_step (char : ascii) (rest : string) rows field fields (inQuotes : bool) :
  parseLoop (String char rest) rows field fields inQuotes
  = if inQuotes then
      if decide (char = QUOTE) then
        match rest with
        | String next rest' =>
            if decide (next = QUOTE)
            then parseLoop rest' rows (addChar field QUOTE) fields true
            else parseLoop rest rows field fields false
        | EmptyString => parseLoop rest rows field fields false
        end
      else parseLoop rest rows (addChar field char) fields true
    else if decide (char = QUOTE) then parseLoop rest rows field fields true
    else if decide (char = COMMA) then
      parseLoop rest rows EmptyString (fields ++ [field]) false
    else if decide (char = LF) then
      parseLoop rest (rows ++ [fields ++ [field]]) EmptyString [] false
    else if decide (char = CR) then parseLoop rest rows field fields false
    else parseLoop rest rows (addChar field char) fields false.
Proof. done. Qed.

Lemma parseLoop_rows_nonempty (content : string) :
  ∀ rows field fields inQuotes,
    Forall (fun line => line ≠ []) rows →
    Forall (fun line => line ≠ []) (parseLoop content rows field fields inQuotes).1.1.
Proof.
  assert (∀ rows fields field, Forall (fun line : list string => line ≠ []) rows →
            Forall (fun line : list string => line ≠ []) (rows ++ [fields ++ [field]]))
    as Hpush.
  { intros rows fields field Hrows. apply Forall_app. split; [done|].
    apply Forall_singleton. by destruct fields. }
  induction content as [|c|c1 c2 s IH1 IH2] using string_ind2;
    intros rows field fields inQuotes Hrows.
  - done.
  - simpl. destruct inQuotes; repeat case_decide; simpl; auto.
  - rewrite parseLoop_step. cbv beta iota.
    destruct inQuotes; repeat case_decide; auto.
Qed.

(** No row is pushed without a field. *)
Lemma parseCSV_Forall_nonempty (content : string) :
  Forall (fun line => line ≠ []) (parseCSV content).
Proof.
  unfold parseCSV.
  pose proof (parseLoop_rows_nonempty content [] EmptyString [] false (Forall_nil_2 _)) as H.
  destruct (parseLoop content [] EmptyString [] false) as [[rows field] fields].
  simpl in H. destruct (_ || _); [|done].
  apply Forall_app. split; [done|]. apply Forall_singleton. by destruct fields.
Qed.

(** Every row that [parseCSV] returns has at least one field, whatever
    the text: for a file that has any row, the header row has a column. *)
Theorem parseCSV_rows_nonempty (content : string) :
  Forall (fun line => line ≠ []) (parseCSV content).
Proof. exact (parseCSV_Forall_nonempty content). Qed.

Lemma parseLoop_withoutCR (content : string) :
  ∀ rows field fields,
    quoteFree content = true →
    parseLoop (withoutCR content) rows field fields false
    = parseLoop content rows field fields false.
Proof.
  induction content as [|c content IH]; intros rows field fields Hq; [done|].
  simpl in Hq. apply andb_true_iff in Hq as [Hc Hq].
  apply negb_true_iff, bool_decide_eq_false_1 in Hc.
  simpl. destruct (decide (c = CR)) as [->|Hcr].
  - simpl. by apply IH.
  - simpl. rewrite decide_False by done.
    repeat case_decide; try done; by apply IH.
Qed.

(** Carriage returns outside quotes are skipped: a text without quotes
    parses the same with CRLF and with LF line ends. *)
Theorem parseCSV_withoutCR (content : string) :
  quoteFree content = true →
  parseCSV (withoutCR content) = parseCSV content.
Proof. intros Hq. unfold parseCSV. by rewrite parseLoop_withoutCR. Qed.

Lemma parseCSV_withoutCR_witness :
  let content := ("a,b" +:+ String CR (String LF "1,2" +:+ String CR (String LF EmptyString)))%string in
  parseCSV (withoutCR content) = parseCSV content ∧
  parseCSV content = [["a"; "b"]; ["1"; "2"]]%string.
Proof.
  intros content. split; [|reflexivity].
  apply (parseCSV_withoutCR content). reflexivity.
Defined.

(** ** The text of the output *)

Section WriteOutput.
Variable mkdirSync : string → bool.
Variable writeFileSync : string → string → bool.
Variable path_dirname : string → string.
Variable inheritedText : string → option string.

(** [writeOutput] hands the file system the text of the table it lays
    out, and returns where the file system takes it. *)
Lemma writeOutput_content (headers : list string) (rows : list Row)
    (assignments : gmap nat (option string)) (outputPath : string) :
  let content := csvText (outputTable inheritedText headers rows assignments) in
  writeOutput mkdirSync writeFileSync path_dirname inheritedText (Some headers) rows
    assignments outputPath
  = if mkdirSync (path_dirname outputPath) && writeFileSync outputPath content
    then inr content else inl FsError.
Proof.
  intros content. unfold writeOutput. cbv zeta.
  assert (String.concat (String LF EmptyString)
            (String.concat (String COMMA EmptyString)
               (stringifyValue <$> headers ++ ["iStatus"%string])
             :: imap (fun index r =>
                        String.concat (String COMMA EmptyString)
                          (stringifyValue <$>
                             (outputValue inheritedText assignments r index
                                <$> headers ++ ["iStatus"%string])))
                     rows)
          = content) as ->.
  { unfold content, csvText, outputTable. rewrite fmap_cons, fmap_imap. done. }
  destruct (mkdirSync (path_dirname outputPath)); [|done].
  by destruct (writeFileSync outputPath content).
Qed.

(** The text of the table parses back to the table. *)
Lemma outputTable_parses (headers : list string) (rows : list Row)
    (assignments : gmap nat (option string)) :
  headers ≠ [] →
  parseCSV (csvText (outputTable inheritedText headers rows assignments))
  = outputTable inheritedText headers rows assignments.
Proof.
  intros Hne. set (table := outputTable inheritedText headers rows assignments).
  assert (Forall (fun line => 2 ≤ length line) table) as Hwide.
  { assert (2 ≤ length (headers ++ ["iStatus"%string])) as Hh.
    { rewrite length_app. destruct headers; [done|]. simpl. lia. }
    apply Forall_cons. split; [done|]. apply Forall_forall.
    intros line (i & r & -> & _)%elem_of_lookup_imap. by rewrite length_fmap. }
  destruct (parseCSV_written table) as [-> _].
  - eapply Forall_impl; [done|]. intros line Hlen ->. simpl in Hlen. lia.
  - rewrite decide_False; [done|]. intros Hlast.
    apply last_Some_elem_of in Hlast. rewrite Forall_forall in Hwide.
    apply Hwide in Hlast. simpl in Hlast. lia.
Qed.

(** What [writeOutput] writes parses back to the table it laid out: the
    headers with [iStatus] after them, and for every row its values under
    those headers.  That text is what it has the file system write, and
    what it returns when the file system has made the directory and
    written the file; where the file system refuses, it throws.  The
    headers must not be empty: with [iStatus] as the only column, a last
    row without a status would be an empty last line, which the parser
    does not read as a row. *)
Theorem writeOutput_parses_back (headers : list string) (rows : list Row)
    (assignments : gmap nat (option string)) (outputPath : string) :
  headers ≠ [] →
  ∃ content,
    writeOutput mkdirSync writeFileSync path_dirname inheritedText (Some headers) rows
      assignments outputPath
    = (if mkdirSync (path_dirname outputPath) && writeFileSync outputPath content
       then inr content else inl FsError) ∧
    parseCSV content
    = (headers ++ ["iStatus"%string])
      :: imap (fun index r =>
                 outputValue inheritedText assignments r index
                   <$> (headers ++ ["iStatus"%string]))
              rows.
Proof.
  intros Hne. exists (csvText (outputTable inheritedText headers rows assignments)).
  split; [apply writeOutput_content|by apply outputTable_parses].
Qed.
End WriteOutput.

Lemma writeOutput_parses_back_witness :
  let r : Row := {[ "job_number"%string := "J,1"%string ]} in
  let assignments : gmap nat (option string) := {[ 0 := Some "Estimating"%string ]} in
  let mkdirSync := fun _ : string => true in
  let writeFileSync := fun _ _ : string => true in
  let path_dirname := fun p : string => p in
  ∃ content,
    writeOutput mkdirSync writeFileSync path_dirname (fun _ => None)
      (Some ["job_number"%string]) [r] assignments "out.csv"
    = (if mkdirSync (path_dirname "out.csv"%string) && writeFileSync "out.csv"%string content
       then inr content else inl FsError) ∧
    parseCSV content
    = (["job_number"%string] ++ ["iStatus"%string])
      :: imap (fun index r =>
                 outputValue (fun _ => None) assignments r index
                   <$> (["job_number"%string] ++ ["iStatus"%string]))
              [r].
Proof.
  intros r assignments mkdirSync writeFileSync path_dirname.
  apply (writeOutput_parses_back mkdirSync writeFileSync path_dirname (fun _ => None)
           ["job_number"%string] [r] assignments "out.csv"). discriminate.
Defined.

(** ** Maps filled from a list with positions *)

Section IndexedFold.
Context {V : Type} (step : gmap string V → nat * string → gmap string V).
Context (value : nat → V) (skip : string → Prop) `{∀ k, Decision (skip k)}.
Hypothesis step_lookup :
  ∀ m i k k',
    step m (i, k) !! k' = if decide (k = k' ∧ ¬ skip k) then Some (value i) else m !! k'.

(** A map filled by one write per position holds, for a key that is not
    skipped, the value of the last position that names the key. *)
Lemma foldl_indexed_lookup (l : list string) (k : string) (v : V) :
  foldl step ∅ (withIndex l) !! k = Some v ↔
  ¬ skip k ∧ ∃ i, l !! i = Some k ∧ (∀ j, i < j → l !! j ≠ Some k) ∧ v = value i.
Proof.
  induction l as [|k0 l IH] using rev_ind.
  - simpl. rewrite lookup_empty. split; [done|]. intros (_ & i & Hi & _). done.
  - unfold withIndex in *. rewrite imap_app, foldl_app. simpl.
    rewrite Nat.add_0_r, step_lookup. destruct (decide (k0 = k ∧ ¬ skip k0)) as [[-> Hk]|Hno].
    + split.
      * intros [= <-]. split; [done|]. exists (length l). split; [|split; [|done]].
        -- by rewrite lookup_app_r, Nat.sub_diag.
        -- intros j Hj. rewrite lookup_ge_None_2; [done|]. rewrite length_app. simpl. lia.
      * intros (_ & i & Hi & Hlast & ->). f_equal. f_equal.
        destruct (decide (i = length l)) as [|Hne]; [done|]. exfalso.
        assert (i < length l) as Hlt.
        { apply lookup_lt_Some in Hi. rewrite length_app in Hi. simpl in Hi. lia. }
        apply (Hlast (length l) Hlt). by rewrite lookup_app_r, Nat.sub_diag.
    + rewrite IH. split.
      * intros (Hk & i & Hi & Hlast & ->). split; [done|]. exists i.
        pose proof (lookup_lt_Some _ _ _ Hi) as Hlt.
        split; [by rewrite lookup_app_l|]. split; [|done].
        intros j Hj. destruct (decide (j < length l)) as [Hjl|Hjl].
        -- rewrite lookup_app_l by done. by apply Hlast.
        -- destruct (decide (j = length l)) as [->|Hne].
           ++ rewrite lookup_app_r, Nat.sub_diag by done. simpl. intros [= ->]. tauto.
           ++ rewrite lookup_ge_None_2; [done|]. rewrite length_app. simpl. lia.
      * intros (Hk & i & Hi & Hlast & ->). split; [done|]. exists i.
        assert (i < length l) as Hlt.
        { destruct (decide (i < length l)) as [|Hge]; [done|]. exfalso.
          pose proof (lookup_lt_Some _ _ _ Hi) as Hlt. rewrite length_app in Hlt.
          simpl in Hlt. assert (i = length l) as -> by lia.
          rewrite lookup_app_r, Nat.sub_diag in Hi by done. simpl in Hi.
          injection Hi as ->. tauto. }
        rewrite lookup_app_l in Hi by done. split; [done|]. split; [|done].
        intros j Hj Hjk. apply (Hlast j Hj).
        rewrite lookup_app_l; [done|]. by eapply lookup_lt_Some.
Qed.
End IndexedFold.

(** [buildStatusIndex] ranks a status by its last position in the order:
    the rank it gives a status is a position of the status, and the last
    one.  For an order without repeated names, rank and position agree
    both ways: the status at rank [i] is the one ranked [i]. *)
Theorem buildStatusIndex_last_position (orderList : list string) :
  (∀ status i,
     buildStatusIndex orderList !! status = Some i ↔
     orderList !! i = Some status ∧ ∀ j, i < j → orderList !! j ≠ Some status) ∧
  (NoDup orderList →
   ∀ status i, buildStatusIndex orderList !! status = Some i ↔ orderList !! i = Some status).
Proof.
  assert (∀ status i,
     buildStatusIndex orderList !! status = Some i ↔
     orderList !! i = Some status ∧ ∀ j, i < j → orderList !! j ≠ Some status) as Hlast.
  { intros status i. unfold buildStatusIndex.
    rewrite (foldl_indexed_lookup _ (fun i => i) (fun _ => False)).
    - split; [intros (_ & i' & ? & ? & ->); done|]. intros [? ?]. split; [tauto|]. eauto.
    - intros m i' k k'. destruct (decide (k = k')) as [->|Hne].
      + rewrite lookup_insert_eq. rewrite decide_True; [done|tauto].
      + rewrite lookup_insert_ne by done. rewrite decide_False; [done|tauto]. }
  split; [done|]. intros Hnd status i. rewrite Hlast. split; [tauto|].
  intros Hi. split; [done|]. intros j Hj Hjs.
  pose proof (NoDup_lookup _ _ _ _ Hnd Hi Hjs). lia.
Qed.

(** The fields of a row object, by the last position of each header. *)
Lemma rowObject_lookup_last (headers values : list string) (h v : string) :
  rowObject headers values !! h = Some v ↔
  h ≠ "__proto__"%string ∧
  ∃ i, headers !! i = Some h ∧ (∀ j, i < j → headers !! j ≠ Some h) ∧
       v = default EmptyString (values !! i).
Proof.
  unfold rowObject.
  apply (foldl_indexed_lookup _ (fun i => default EmptyString (values !! i))
           (fun k => k = "__proto__"%string)).
  intros m i k k'. unfold setField.
  destruct (decide (k = "__proto__"%string)) as [Hp|Hp].
  - rewrite decide_False; [done|tauto].
  - destruct (decide (k = k')) as [->|Hne].
    + rewrite lookup_insert_eq. rewrite decide_True; [done|tauto].
    + rewrite lookup_insert_ne by done. rewrite decide_False; [done|tauto].
Qed.

(** The object [readInputFile] builds for a data row: under a header it
    holds the value at the header's position, the empty string when the
    row is shorter; values past the headers are dropped; of two columns
    with one name the later wins; a column named [__proto__] is
    dropped. *)
Theorem rowObject_lookup (headers values : list string) (h v : string) :
  rowObject headers values !! h = Some v ↔
  h ≠ "__proto__"%string ∧
  ∃ i, headers !! i = Some h ∧ (∀ j, i < j → headers !! j ≠ Some h) ∧
       v = default EmptyString (values !! i).
Proof. exact (rowObject_lookup_last headers values h v). Qed.

(** The status set has the statuses of the order and nothing else, with
    the first status first: the branch that adds the first status when
    Estimating is missing never changes the set. *)
Theorem buildStatusSet_members (orderList : list string) :
  buildStatusSet orderList = Set_from orderList ∧
  NoDup (buildStatusSet orderList) ∧
  (∀ status, Set_has status (buildStatusSet orderList) = true ↔ status ∈ orderList) ∧
  head (buildStatusSet orderList) = head orderList.
Proof.
  rewrite buildStatusSet_eq. split; [done|]. split; [apply Set_from_NoDup|]. split.
  - intros status. unfold Set_has. rewrite bool_decide_eq_true. apply Set_from_elem_of.
  - apply Set_from_head.
Qed.

(** ** The status order file *)

Lemma trimEnd_idemp (s : string) : trimEnd (trimEnd s) = trimEnd s.
Proof.
  induction s as [|c s IH]; [done|]. simpl.
  destruct (trimEnd s) as [|c' kept] eqn:E.
  - destruct (Str.isWhiteSpace c) eqn:Ews; [done|]. simpl. by rewrite Ews.
  - simpl in *. by rewrite IH.
Qed.

Lemma trimStart_head (s : string) :
  trimStart s = EmptyString ∨
  ∃ c rest, trimStart s = String c rest ∧ Str.isWhiteSpace c = false.
Proof.
  induction s as [|c s IH]; [by left|]. simpl.
  destruct (Str.isWhiteSpace c) eqn:Ews; [done|]. right. eauto.
Qed.

Lemma trimStart_trimEnd (c : ascii) (rest : string) :
  Str.isWhiteSpace c = false →
  trimStart (trimEnd (String c rest)) = trimEnd (String c rest).
Proof.
  intros Ews. simpl. destruct (trimEnd rest); rewrite ?Ews; simpl; by rewrite Ews.
Qed.

(** Trimming a trimmed string changes nothing. *)
Lemma trim_idemp (s : string) : trim (trim s) = trim s.
Proof.
  unfold trim. destruct (trimStart_head s) as [->|(c & rest & -> & Ews)]; [done|].
  rewrite trimStart_trimEnd by done. apply trimEnd_idemp.
Qed.

(** The two models of [s.trim().length > 0] agree. *)
Lemma trimmedNonEmpty_trim (s : string) :
  Str.trimmedNonEmpty s = true ↔ trim s ≠ EmptyString.
Proof.
  unfold trim. induction s as [|c s IH]; [done|]. simpl.
  destruct (Str.isWhiteSpace c) eqn:Ews; simpl; [done|].
  split; [|done]. intros _. destruct (trimEnd s); by rewrite ?Ews.
Qed.

Lemma indexOf_Some (name : string) (header : list string) (i : nat) :
  indexOf name header = Some i ↔
  header !! i = Some name ∧ ∀ j, j < i → header !! j ≠ Some name.
Proof.
  revert i. induction header as [|h header IH]; intros i; simpl.
  - split; [done|]. by intros [? _].
  - destruct (decide (h = name)) as [->|Hne].
    + split.
      * intros [= <-]. split; [done|]. intros j Hj. lia.
      * intros [Hi Hfirst]. destruct i as [|i]; [done|].
        exfalso. apply (Hfirst 0); [lia|done].
    + destruct i as [|i].
      * split; [by destruct (indexOf name header)|]. intros [[= ->] _]. done.
      * rewrite fmap_Some. split.
        -- intros (i' & Hi' & [= ->]). apply IH in Hi' as [Hi' Hfirst].
           split; [done|]. intros [|j] Hj; simpl; [by intros [= ->]|].
           apply Hfirst. lia.
        -- intros [Hi Hfirst]. exists i. split; [|done]. apply IH. split; [done|].
           intros j Hj. apply (Hfirst (S j)). lia.
Qed.

Lemma indexOf_None (name : string) (header : list string) :
  indexOf name header = None ↔ name ∉ header.
Proof.
  induction header as [|h header IH]; simpl.
  - split; [intros _; apply not_elem_of_nil|done].
  - rewrite not_elem_of_cons. destruct (decide (h = name)) as [->|Hne].
    + split; [done|]. intros [? _]. done.
    + rewrite fmap_None, IH. split; [by intros ?; split|tauto].
Qed.

Section StatusOrderFile.
Variable readFileSync : string → option string.
Variable ORDER_FILE : string.

(** The status order [loadStatusOrder] returns.  It returns one exactly
    when the file can be read, has a row, and the first row names a
    [job_status] column; the column read is the first of that name.  The
    statuses are the trimmed values of that column, in the order of the
    file, without the rows that are too short or blank there: so every
    status of the order is a non-empty string without white space around
    it. *)
Theorem loadStatusOrder_statuses (orderList : list string) :
  (loadStatusOrder readFileSync ORDER_FILE = inr orderList ↔
   ∃ content header rows statusIdx,
     readFileSync ORDER_FILE = Some content ∧
     parseCSV content = header :: rows ∧
     header !! statusIdx = Some "job_status"%string ∧
     (∀ j, j < statusIdx → header !! j ≠ Some "job_status"%string) ∧
     orderList
     = omap (fun r => match r !! statusIdx with
                      | Some value =>
                          if decide (trim value = EmptyString) then None
                          else Some (trim value)
                      | None => None
                      end) rows) ∧
  (loadStatusOrder readFileSync ORDER_FILE = inr orderList →
   Forall (fun status => status ≠ EmptyString ∧ trim status = status) orderList).
Proof.
  assert (∀ statusIdx (rows : list (list string)),
    (fun r => trim (default EmptyString (r !! statusIdx))) <$>
      filter (fun r => statusIdx < length r ∧
                       0 < String.length (trim (default EmptyString (r !! statusIdx)))) rows
    = omap (fun r => match r !! statusIdx with
                     | Some value =>
                         if decide (trim value = EmptyString) then None
                         else Some (trim value)
                     | None => None
                     end) rows) as Homap.
  { intros statusIdx rows. induction rows as [|r rows IH]; [done|].
    rewrite filter_cons. simpl. destruct (r !! statusIdx) as [value|] eqn:E.
    - pose proof (lookup_lt_Some _ _ _ E) as Hlt. simpl.
      destruct (decide (trim value = EmptyString)) as [Hv|Hv].
      + rewrite decide_False; [done|]. rewrite Hv. simpl. lia.
      + rewrite decide_True; [by rewrite fmap_cons, IH, E|].
        split; [done|]. destruct (trim value); [done|]. simpl. lia.
    - apply lookup_ge_None in E. rewrite decide_False; [done|]. lia. }
  split.
  - unfold loadStatusOrder. split.
    + destruct (readFileSync ORDER_FILE) as [content|]; [|done].
      destruct (parseCSV content) as [|header rows] eqn:Eparse; [done|].
      destruct (indexOf _ header) as [statusIdx|] eqn:Eidx; [|done].
      intros [= <-]. apply indexOf_Some in Eidx as [? ?].
      exists content, header, rows, statusIdx. by rewrite Homap.
    + intros (content & header & rows & statusIdx & -> & -> & Hi & Hfirst & ->).
      assert (indexOf "job_status" header = Some statusIdx) as ->
        by by apply indexOf_Some.
      by rewrite Homap.
  - unfold loadStatusOrder.
    destruct (readFileSync ORDER_FILE) as [content|]; [|done].
    destruct (parseCSV content) as [|header rows]; [done|].
    destruct (indexOf _ header) as [statusIdx|]; [|done].
    intros [= <-]. apply Forall_fmap, Forall_forall.
    intros r [[_ Hpos] _]%list_elem_of_filter. simpl. split; [|apply trim_idemp].
    intros E. rewrite E in Hpos. simpl in Hpos. lia.
Qed.

(** How [loadStatusOrder] fails on a file it can read: on a file without
    any row with a [TypeError], on a file whose first row has no
    [job_status] column with the error that says so; on every other file
    it returns an order. *)
Theorem loadStatusOrder_failures (content : string) :
  readFileSync ORDER_FILE = Some content →
  (parseCSV content = [] → loadStatusOrder readFileSync ORDER_FILE = inl TypeError) ∧
  (∀ header rows,
     parseCSV content = header :: rows →
     if decide ("job_status"%string ∈ header)
     then ∃ orderList, loadStatusOrder readFileSync ORDER_FILE = inr orderList
     else loadStatusOrder readFileSync ORDER_FILE
          = inl (Error "job_status column not found in job_status_order.csv")).
Proof.
  intros Hread. unfold loadStatusOrder. rewrite Hread. split; [by intros ->|].
  intros header rows ->. destruct (indexOf _ header) as [statusIdx|] eqn:Eidx.
  - rewrite decide_True; [eauto|]. apply indexOf_Some in Eidx as [Hi _].
    by eapply list_elem_of_lookup_2.
  - rewrite decide_False; [done|]. by apply indexOf_None.
Qed.
End StatusOrderFile.

Lemma loadStatusOrder_failures_witness :
  let readFileSync := fun _ : string => Some "name"%string in
  readFileSync "order.csv"%string = Some "name"%string ∧
  (parseCSV "name" = [] → loadStatusOrder readFileSync "order.csv" = inl TypeError) ∧
  (∀ header rows,
     parseCSV "name" = header :: rows →
     if decide ("job_status"%string ∈ header)
     then ∃ orderList, loadStatusOrder readFileSync "order.csv" = inr orderList
     else loadStatusOrder readFileSync "order.csv"
          = inl (Error "job_status column not found in job_status_order.csv")).
Proof.
  intros readFileSync. split; [done|].
  apply (loadStatusOrder_failures readFileSync "order.csv" "name"). done.
Defined.

(** ** From the input file to the output file *)

(** Under headers that are distinct and are neither [iStatus] nor
    [__proto__], a row object gives back the values of its row, cut or
    filled to the number of headers. *)
Lemma outputValue_rowObject (inheritedText : string → option string)
    (assignments : gmap nat (option string)) (headers values : list string) (index : nat) :
  NoDup headers →
  "iStatus"%string ∉ headers →
  "__proto__"%string ∉ headers →
  outputValue inheritedText assignments (rowObject headers values) index
    <$> (headers ++ ["iStatus"%string])
  = padTo headers values ++ [statusText (assignments !! index)].
Proof.
  intros Hnd His Hproto. rewrite fmap_app. f_equal.
  unfold padTo. apply list_eq. intros i. rewrite !list_lookup_fmap.
    destruct (headers !! i) as [h|] eqn:Eh; simpl.
    + rewrite lookup_seq_lt by by eapply lookup_lt_Some. simpl. f_equal.
      unfold outputValue. rewrite decide_False.
      2:{ intros ->. apply His. by eapply list_elem_of_lookup_2. }
      assert (rowObject headers values !! h = Some (default EmptyString (values !! i))) as ->.
      { apply rowObject_lookup_last. split.
        - intros ->. apply Hproto. by eapply list_elem_of_lookup_2.
        - exists i. split; [done|]. split; [|done]. intros j Hj Hjh.
          pose proof (NoDup_lookup _ _ _ _ Hnd Eh Hjh). lia. }
      done.
    + rewrite lookup_seq_ge; [done|]. by apply lookup_ge_None.
Qed.

Section Main.
Variable readFileSync : string → option string.
Variable existsSync : string → bool.
Variable mkdirSync : string → bool.
Variable writeFileSync : string → string → bool.
Variable resolveFromCwd : string → string.
Variable path_join : string → string → string.
Variable path_basename : string → string.
Variable path_dirname : string → string.
Variables (ORDER_FILE DEFAULT_OUTPUT_DIR : string).
Variable inheritedText : string → option string.
Variable infer : list Row → list string → gmap nat (option string).

Lemma truthy_Some (value : option string) :
  truthy value = true ↔ ∃ s, value = Some s ∧ s ≠ EmptyString.
Proof.
  destruct value as [s|]; simpl.
  - rewrite negb_true_iff, String.eqb_neq. split; [eauto|]. by intros (? & [= <-] & ?).
  - split; [done|]. by intros (? & ? & _).
Qed.

(** What has happened when [main] has written its file. *)
Lemma mainWith_Written_inv (argv : list string) (outputPath content message : string) :
  mainWith readFileSync existsSync mkdirSync writeFileSync resolveFromCwd path_join
    path_basename path_dirname ORDER_FILE DEFAULT_OUTPUT_DIR inheritedText infer argv
  = Written outputPath content message →
  ∃ input inputText header dataRows orderList,
    args_input (parseArgs argv) = Some input ∧
    input ≠ EmptyString ∧
    existsSync (resolveFromCwd input) = true ∧
    readFileSync (resolveFromCwd input) = Some inputText ∧
    parseCSV inputText = header :: dataRows ∧
    loadStatusOrder readFileSync ORDER_FILE = inr orderList ∧
    outputPath
    = path_join
        (if truthy (args_outputDir (parseArgs argv))
         then resolveFromCwd (default EmptyString (args_outputDir (parseArgs argv)))
         else DEFAULT_OUTPUT_DIR)
        (path_basename (resolveFromCwd input)) ∧
    writeOutput mkdirSync writeFileSync path_dirname inheritedText (Some header)
      (rowObject header <$> dataRows)
      (infer (rowObject header <$> dataRows) orderList) outputPath
    = inr content.
Proof.
  unfold mainWith.
  destruct (truthy (args_input (parseArgs argv))) eqn:Einput; [|done].
  apply truthy_Some in Einput as (input & Einput & Hinput). rewrite Einput. simpl.
  destruct (existsSync (resolveFromCwd input)) eqn:Eexists; [|done]. simpl.
  destruct (loadStatusOrder readFileSync ORDER_FILE) as [|orderList] eqn:Eorder; [done|].
  unfold readInputFile.
  destruct (readFileSync (resolveFromCwd input)) as [inputText|] eqn:Eread; [|done].
  destruct (parseCSV inputText) as [|header dataRows] eqn:Eparse; [done|].
  destruct (writeOutput _ _ _ _ _ _ _ _) as [|written] eqn:Ewrite; [done|].
  intros [= <- <- _].
  by exists input, inputText, header, dataRows, orderList.
Qed.

(** The file [main] writes is the input file with one more column.  When
    [main] has written, the input file had a header row, and the text
    written parses to the headers of the input with [iStatus] after them
    and, for every data row in the order of the input, its values, cut
    or filled to the number of headers, with the status inferred for the
    row after them.  The headers are to be distinct and none of them
    [iStatus] or [__proto__]. *)
Theorem main_output_table (argv : list string) (outputPath content message : string) :
  mainWith readFileSync existsSync mkdirSync writeFileSync resolveFromCwd path_join
    path_basename path_dirname ORDER_FILE DEFAULT_OUTPUT_DIR inheritedText infer argv
  = Written outputPath content message →
  ∃ input inputText header dataRows orderList,
    args_input (parseArgs argv) = Some input ∧
    readFileSync (resolveFromCwd input) = Some inputText ∧
    parseCSV inputText = header :: dataRows ∧
    loadStatusOrder readFileSync ORDER_FILE = inr orderList ∧
    (NoDup header → "iStatus"%string ∉ header → "__proto__"%string ∉ header →
     parseCSV content
     = (header ++ ["iStatus"%string])
       :: imap (fun index values =>
                  padTo header values
                  ++ [statusText (infer (rowObject header <$> dataRows) orderList !! index)])
               dataRows).
Proof.
  intros (input & inputText & header & dataRows & orderList & Hinput & _ & _ & Hread &
          Hparse & Horder & _ & Hwrite)%mainWith_Written_inv.
  exists input, inputText, header, dataRows, orderList. repeat (split; [done|]).
  intros Hnd His Hproto.
  assert (header ≠ []) as Hne.
  { pose proof (parseCSV_Forall_nonempty inputText) as Hall.
    rewrite Hparse in Hall. by apply Forall_cons in Hall as [? _]. }
  rewrite writeOutput_content in Hwrite. cbv zeta in Hwrite.
  destruct (_ && _); [|done]. injection Hwrite as <-.
  rewrite outputTable_parses by done. unfold outputTable.
  f_equal. rewrite imap_fmap. apply imap_ext. intros index values _. simpl.
  by apply outputValue_rowObject.
Qed.

(** [main] writes its file exactly when it is given an input path that is
    not empty, a file exists there and can be read, the file has a row,
    the status order loads, and the file system makes the directory of
    the output path and writes the text laid out there.  Whatever the
    rows hold, the inference goes through; where only the file system
    refuses, [main] throws what the file system throws. *)
Theorem main_writes_iff (argv : list string) :
  let outcome :=
    mainWith readFileSync existsSync mkdirSync writeFileSync resolveFromCwd path_join
      path_basename path_dirname ORDER_FILE DEFAULT_OUTPUT_DIR inheritedText infer argv in
  let ready input inputText header dataRows orderList :=
    args_input (parseArgs argv) = Some input ∧
    input ≠ EmptyString ∧
    existsSync (resolveFromCwd input) = true ∧
    readFileSync (resolveFromCwd input) = Some inputText ∧
    parseCSV inputText = header :: dataRows ∧
    loadStatusOrder readFileSync ORDER_FILE = inr orderList in
  let outputPathOf input :=
    path_join
      (if truthy (args_outputDir (parseArgs argv))
       then resolveFromCwd (default EmptyString (args_outputDir (parseArgs argv)))
       else DEFAULT_OUTPUT_DIR)
      (path_basename (resolveFromCwd input)) in
  let contentOf header dataRows orderList :=
    csvText (outputTable inheritedText header (rowObject header <$> dataRows)
               (infer (rowObject header <$> dataRows) orderList)) in
  ((∃ outputPath content message, outcome = Written outputPath content message) ↔
   ∃ input inputText header dataRows orderList,
     ready input inputText header dataRows orderList ∧
     mkdirSync (path_dirname (outputPathOf input)) = true ∧
     writeFileSync (outputPathOf input) (contentOf header dataRows orderList) = true) ∧
  (∀ input inputText header dataRows orderList,
     ready input inputText header dataRows orderList →
     mkdirSync (path_dirname (outputPathOf input))
     && writeFileSync (outputPathOf input) (contentOf header dataRows orderList) = false →
     outcome = Throw FsError).
Proof.
  intros outcome ready outputPathOf contentOf.
  assert (∀ input inputText header dataRows orderList,
            ready input inputText header dataRows orderList →
            outcome
            = if mkdirSync (path_dirname (outputPathOf input))
                 && writeFileSync (outputPathOf input) (contentOf header dataRows orderList)
              then Written (outputPathOf input) (contentOf header dataRows orderList)
                     ("Wrote inferred statuses to " +:+ outputPathOf input)
              else Throw FsError) as Hready.
  { intros input inputText header dataRows orderList
      (Hinput & Hne & Hexists & Hread & Hparse & Horder).
    unfold outcome, mainWith, readInputFile. rewrite Hinput. cbn -[writeOutput].
    assert (String.eqb input EmptyString = false) as -> by by apply String.eqb_neq.
    cbn -[writeOutput]. rewrite Hexists, Horder, Hread, Hparse. cbn -[writeOutput].
    rewrite writeOutput_content. cbv zeta. fold (outputPathOf input).
    fold (contentOf header dataRows orderList). by destruct (_ && _). }
  split; [split|].
  - intros (outputPath & content & message & H). pose proof H as H'.
    apply mainWith_Written_inv in H
      as (input & inputText & header & dataRows & orderList & ? & ? & ? & ? & ? & ? & _).
    exists input, inputText, header, dataRows, orderList.
    assert (ready input inputText header dataRows orderList) as Hr by done.
    split; [done|]. fold outcome in H'. rewrite (Hready _ _ _ _ _ Hr) in H'.
    destruct (mkdirSync _); [|done]. by destruct (writeFileSync _ _).
  - intros (input & inputText & header & dataRows & orderList & Hr & Hmk & Hwr).
    rewrite (Hready _ _ _ _ _ Hr), Hmk, Hwr. simpl. eauto.
  - intros input inputText header dataRows orderList Hr Hfs.
    by rewrite (Hready _ _ _ _ _ Hr), Hfs.
Qed.

(** An input file without any row makes [main] throw a [TypeError]: the
    headers are undefined when the output is laid out, before the file
    system is asked for anything, and nothing is written.  The empty
    file is such a file. *)
Theorem main_empty_input_throws (argv : list string) (input inputText : string)
    (orderList : list string) :
  args_input (parseArgs argv) = Some input →
  input ≠ EmptyString →
  existsSync (resolveFromCwd input) = true →
  loadStatusOrder readFileSync ORDER_FILE = inr orderList →
  readFileSync (resolveFromCwd input) = Some inputText →
  parseCSV inputText = [] →
  mainWith readFileSync existsSync mkdirSync writeFileSync resolveFromCwd path_join
    path_basename path_dirname ORDER_FILE DEFAULT_OUTPUT_DIR inheritedText infer argv
  = Throw TypeError.
Proof.
  intros Hinput Hne Hexists Horder Hread Hparse.
  unfold mainWith, readInputFile. rewrite Hinput. simpl.
  assert (String.eqb input EmptyString = false) as -> by by apply String.eqb_neq.
  simpl. by rewrite Hexists, Horder, Hread, Hparse.
Qed.
End Main.

Lemma main_output_table_witness :
  let readFileSync := fun p : string =>
    if String.eqb p "order.csv"
    then Some ("job_status" +:+ String LF "Estimating")%string
    else Some ("job_number,job_status" +:+ String LF "J1,Estimating")%string in
  let existsSync := fun _ : string => true in
  let mkdirSync := fun _ : string => true in
  let writeFileSync := fun _ _ : string => true in
  let resolveFromCwd := fun p : string => p in
  let path_join := fun a b : string => (a +:+ "/" +:+ b)%string in
  let path_basename := fun p : string => p in
  let path_dirname := fun p : string => p in
  let inheritedText := fun _ : string => @None string in
  let infer := fun rows orderList =>
    inferStatuses noDates byteCompare rows (buildStatusSet orderList) orderList
      (buildStatusIndex orderList) in
  let argv := ["node"; "inferStatus.js"; "--input"; "in.csv"]%string in
  let content := ("job_number,job_status,iStatus" +:+ String LF "J1,Estimating,Estimating")%string in
  main readFileSync existsSync mkdirSync writeFileSync resolveFromCwd path_join
    path_basename path_dirname "order.csv" "out" inheritedText noDates byteCompare argv
  = Written "out/in.csv" content "Wrote inferred statuses to out/in.csv" ∧
  ∃ input inputText header dataRows orderList,
    args_input (parseArgs argv) = Some input ∧
    readFileSync (resolveFromCwd input) = Some inputText ∧
    parseCSV inputText = header :: dataRows ∧
    loadStatusOrder readFileSync "order.csv" = inr orderList ∧
    (NoDup header → "iStatus"%string ∉ header → "__proto__"%string ∉ header →
     parseCSV content
     = (header ++ ["iStatus"%string])
       :: imap (fun index values =>
                  padTo header values
                  ++ [statusText (infer (rowObject header <$> dataRows) orderList !! index)])
               dataRows).
Proof.
  intros readFileSync existsSync mkdirSync writeFileSync resolveFromCwd path_join
    path_basename path_dirname inheritedText infer argv content.
  split; [vm_compute; reflexivity|].
  apply (main_output_table readFileSync existsSync mkdirSync writeFileSync resolveFromCwd
           path_join path_basename path_dirname "order.csv" "out" inheritedText infer argv
           "out/in.csv" content "Wrote inferred statuses to out/in.csv").
  vm_compute. reflexivity.
Defined.

Lemma main_empty_input_throws_witness :
  let readFileSync := fun p : string =>
    if String.eqb p "order.csv"
    then Some ("job_status" +:+ String LF "Estimating")%string
    else Some EmptyString in
  let existsSync := fun _ : string => true in
  let mkdirSync := fun _ : string => true in
  let writeFileSync := fun _ _ : string => true in
  let resolveFromCwd := fun p : string => p in
  let path_join := fun a b : string => (a +:+ "/" +:+ b)%string in
  let path_basename := fun p : string => p in
  let path_dirname := fun p : string => p in
  let inheritedText := fun _ : string => @None string in
  let argv := ["node"; "inferStatus.js"; "-i"; "in.csv"]%string in
  parseCSV EmptyString = [] ∧
  loadStatusOrder readFileSync "order.csv" = inr ["Estimating"%string] ∧
  mainExplicitOnly readFileSync existsSync mkdirSync writeFileSync resolveFromCwd path_join
    path_basename path_dirname "order.csv" "out" inheritedText noDates byteCompare argv
  = Throw TypeError.
Proof.
  intros readFileSync existsSync mkdirSync writeFileSync resolveFromCwd path_join
    path_basename path_dirname inheritedText argv.
  split; [reflexivity|]. split; [vm_compute; reflexivity|].
  apply (main_empty_input_throws readFileSync existsSync mkdirSync writeFileSync
           resolveFromCwd path_join path_basename path_dirname "order.csv" "out"
           inheritedText
           (fun rows orderList =>
              ExplicitOnly.inferStatuses noDates byteCompare rows (buildStatusSet orderList))
           argv "in.csv" EmptyString ["Estimating"%string]);
    solve [reflexivity | discriminate | vm_compute; reflexivity].
Defined.

(** * Every row is assigned *)

Section Assigned.
Variable Date_parse : string → option Z.
Variable localeCompare : string → string → Z.
Context {St : Type} (next : St → Entry → St) (out : St → Entry → option string).
Context (body : St * gmap nat (option string) → Entry → St * gmap nat (option string)).
Hypothesis body_shape : ∀ st asg e, body (st, asg) e = (next st e, <[index e := out st e]> asg).
Variable init : St.

Local Abbreviation compareFn := (compareEntries Date_parse localeCompare).

(** The assignment of a row, by the entries that come before it when its
    job is sorted. *)
Lemma forEachGroup_rows_lookup (rows : list Row) (i : nat) (r : Row) :
  rows !! i = Some r →
  ∃ l1 l2,
    sort compareFn (filter (fun e => jobOf e = r !! JOB_ID_FIELD) (toEntries rows))
    = l1 ++ {| row := r; index := i |} :: l2 ∧
    forEachGroup compareFn init body (groupRows rows) !! i
    = Some (out (foldl next init l1) {| row := r; index := i |}).
Proof.
  intros Hr.
  destruct (entry_sorted_split Date_parse localeCompare rows i r Hr)
    as ([k entries] & l1 & l2 & Hg & Hsplit).
  pose proof (forEachGroup_lookup next out body body_shape compareFn init (groupRows rows)
                _ _ _ _ (groupRows_index_NoDup rows) Hg Hsplit) as Hrun.
  simpl in Hsplit, Hrun. pose proof (groupStep_fold_elem_of _ _ _ Hg) as ->.
  assert ({| row := r; index := i |} ∈ filter (fun e => jobOf e = k) (toEntries rows)) as Hin.
  { apply (elem_of_sort compareFn). rewrite Hsplit. apply elem_of_app. right. by left. }
  apply list_elem_of_filter in Hin as [<- _]. unfold jobOf. simpl. eauto.
Qed.

(** The rows that are assigned are the rows of the input. *)
Lemma forEachGroup_rows_dom (rows : list Row) (i : nat) :
  is_Some (forEachGroup compareFn init body (groupRows rows) !! i) ↔ i < length rows.
Proof.
  split.
  - intros [v Hv]. apply (forEachGroup_lookup_Some next out body body_shape) in Hv.
    unfold groupRows in Hv. rewrite groupStep_fold_Permutation, toEntries_index in Hv.
    apply elem_of_seq in Hv. lia.
  - intros [r Hr]%lookup_lt_is_Some.
    destruct (forEachGroup_rows_lookup rows i r Hr) as (? & ? & _ & ->). done.
Qed.
End Assigned.

(** With no status in the order, a row leaves the cursor as it is. *)
Lemma advance_nil (cur : Cursor) (r : Row) :
  current (advance [] (buildStatusIndex []) cur r) = current cur.
Proof. done. Qed.

Lemma foldl_nextCursor_nil (cur : Cursor) (l : list Entry) :
  current (foldl (nextCursor [] (buildStatusIndex [])) cur l) = current cur.
Proof.
  revert cur. induction l as [|e l IH]; intros cur; [done|]. simpl. rewrite IH.
  unfold nextCursor. destruct (isEmptyRow (row e)); [done|]. apply advance_nil.
Qed.

Section AssignedStatuses.
Variable Date_parse : string → option Z.
Variable localeCompare : string → string → Z.

(** The scoring variant assigns every row of the input, and no other
    index.  An empty row is assigned the empty string.  A row that is not
    empty is assigned a status of the order; when the order has no status
    at all its assignment is undefined, which is written as an empty
    [iStatus]. *)
Theorem run_assigns_every_row (orderList : list string) (rows : list Row) :
  (∀ i, is_Some (run Date_parse localeCompare orderList rows !! i) ↔ i < length rows) ∧
  (∀ i r, rows !! i = Some r →
     (isEmptyRow r = true →
      run Date_parse localeCompare orderList rows !! i = Some (Some EmptyString)) ∧
     (isEmptyRow r = false → orderList = [] →
      run Date_parse localeCompare orderList rows !! i = Some None) ∧
     (isEmptyRow r = false → orderList ≠ [] →
      ∃ status, run Date_parse localeCompare orderList rows !! i = Some (Some status) ∧
                status ∈ orderList)).
Proof.
  split.
  - intros i. unfold run, inferStatuses.
    apply (forEachGroup_rows_dom Date_parse localeCompare _ _ _
             (processEntry_shape orderList (buildStatusIndex orderList))).
  - intros i r Hr.
    destruct (run_lookup_sorted Date_parse localeCompare orderList rows i r Hr)
      as (l1 & l2 & _ & Hrun).
    rewrite Hrun. unfold committed. cbn [row].
    split; [by intros ->|]. split.
    + intros -> ->. by rewrite advance_nil, foldl_nextCursor_nil.
    + intros -> Hne.
      pose proof (initialCursor_ok orderList Hne) as Hstart.
      destruct (foldl_nextCursor_ok orderList _ l1 Hstart) as [Hcur _].
      destruct (advance_ok orderList _ r Hcur) as [_ (rank & rank' & _ & Hrank' & _)].
      destruct (current (advance orderList (buildStatusIndex orderList) _ r))
        as [status|]; [|done].
      exists status. split; [done|]. apply buildStatusIndex_is_Some. by eexists.
Qed.

(** The assignment of the explicit-only variant, in closed form. *)
Lemma ExplicitOnly_lookup_last (statusSet : list string)
    (rows : list Row) (i : nat) (r : Row) :
  rows !! i = Some r →
  ∃ l1 l2,
    sort (compareEntries Date_parse localeCompare)
      (filter (fun e => jobOf e = r !! JOB_ID_FIELD) (toEntries rows))
    = l1 ++ {| row := r; index := i |} :: l2 ∧
    ExplicitOnly.inferStatuses Date_parse localeCompare rows statusSet !! i
    = Some (from_option Some (ExplicitOnly.initialStatus statusSet)
              (lastRecognised statusSet (l1 ++ [{| row := r; index := i |}]))).
Proof.
  intros Hr. unfold ExplicitOnly.inferStatuses.
  destruct (forEachGroup_rows_lookup Date_parse localeCompare _ _ _
              (ExplicitOnly_processEntry_shape statusSet)
              (ExplicitOnly.initialStatus statusSet) rows i r Hr)
    as (l1 & l2 & Hsort & ->).
  exists l1, l2. split; [done|]. f_equal.
  rewrite <-(foldl_snoc (carried statusSet)). 
  generalize (l1 ++ [{| row := r; index := i |}]). intros l.
  generalize (ExplicitOnly.initialStatus statusSet). intros init.
  unfold lastRecognised. induction l as [|e l IH] using rev_ind; [done|].
  rewrite foldl_snoc, omap_app, IH. unfold carried at 1. simpl.
  replace (recognised statusSet e)
    with (match row e !! STATUS_FIELD with
          | Some status => if Set_has status statusSet then Some status else None
          | None => None
          end) by done.
  destruct (row e !! STATUS_FIELD) as [status|]; simpl.
  - destruct (Set_has status statusSet); simpl.
    + by rewrite last_snoc.
    + by rewrite app_nil_r.
  - by rewrite app_nil_r.
Qed.

(** The status the explicit-only variant assigns to a row: the last
    explicit status that the status set has, among the rows of the job up
    to this row in the sorted order; the starting status when there is
    none. *)
Theorem ExplicitOnly_assigns_last_recognised (statusSet : list string)
    (rows : list Row) (i : nat) (r : Row) :
  rows !! i = Some r →
  ∃ l1 l2,
    sort (compareEntries Date_parse localeCompare)
      (filter (fun e => jobOf e = r !! JOB_ID_FIELD) (toEntries rows))
    = l1 ++ {| row := r; index := i |} :: l2 ∧
    ExplicitOnly.inferStatuses Date_parse localeCompare rows statusSet !! i
    = Some (from_option Some (ExplicitOnly.initialStatus statusSet)
              (lastRecognised statusSet (l1 ++ [{| row := r; index := i |}]))).
Proof. exact (ExplicitOnly_lookup_last statusSet rows i r). Qed.
Lemma initialStatus_elem_of (orderList : list string) :
  match ExplicitOnly.initialStatus (buildStatusSet orderList) with
  | Some status => status ∈ orderList
  | None => orderList = []
  end.
Proof.
  unfold ExplicitOnly.initialStatus. rewrite buildStatusSet_eq.
  unfold Set_has. case_bool_decide as Hd.
  - by apply Set_from_elem_of.
  - rewrite Set_from_head. destruct orderList; [done|]. by left.
Qed.

Lemma lastRecognised_elem_of (orderList : list string) (l : list Entry) (status : string) :
  lastRecognised (buildStatusSet orderList) l = Some status → status ∈ orderList.
Proof.
  unfold lastRecognised. intros Hlast%last_Some_elem_of.
  apply list_elem_of_omap in Hlast as (e & _ & He). unfold recognised in He.
  destruct (row e !! STATUS_FIELD) as [s|]; [|done].
  destruct (Set_has s (buildStatusSet orderList)) eqn:Ehas; [|done].
  injection He as <-. unfold Set_has in Ehas. apply bool_decide_eq_true in Ehas.
  rewrite buildStatusSet_eq in Ehas. by apply Set_from_elem_of.
Qed.

(** The explicit-only variant assigns every row of the input, and no
    other index.  What it assigns is a status of the order, for empty
    rows too: an empty row gets the status carried forward, where the
    scoring variant gives it the empty string.  Only when the order has
    no status at all is the assignment undefined, for every row. *)
Theorem ExplicitOnly_assigns_every_row (orderList : list string) (rows : list Row) :
  (∀ i, is_Some (ExplicitOnly.run Date_parse localeCompare orderList rows !! i)
        ↔ i < length rows) ∧
  (orderList ≠ [] →
   ∀ i, i < length rows →
     ∃ status,
       ExplicitOnly.run Date_parse localeCompare orderList rows !! i = Some (Some status) ∧
       status ∈ orderList) ∧
  (orderList = [] →
   ∀ i, i < length rows →
     ExplicitOnly.run Date_parse localeCompare orderList rows !! i = Some None).
Proof.
  assert (∀ i, i < length rows →
            ∃ l, ExplicitOnly.run Date_parse localeCompare orderList rows !! i
                 = Some (from_option Some (ExplicitOnly.initialStatus (buildStatusSet orderList))
                           (lastRecognised (buildStatusSet orderList) l))) as Hrun.
  { intros i [r Hr]%lookup_lt_is_Some.
    destruct (ExplicitOnly_lookup_last (buildStatusSet orderList) rows i r Hr)
      as (l1 & l2 & _ & Hrun). eauto. }
  split; [|split].
  - intros i. unfold ExplicitOnly.run, ExplicitOnly.inferStatuses.
    apply (forEachGroup_rows_dom Date_parse localeCompare _ _ _
             (ExplicitOnly_processEntry_shape (buildStatusSet orderList))).
  - intros Hne i Hi. destruct (Hrun i Hi) as [l ->].
    pose proof (initialStatus_elem_of orderList) as Hinit.
    destruct (lastRecognised _ l) as [status|] eqn:Elast; simpl.
    + exists status. split; [done|]. by eapply lastRecognised_elem_of.
    + destruct (ExplicitOnly.initialStatus _) as [status|]; [eauto|done].
  - intros -> i Hi. destruct (Hrun i Hi) as [l ->].
    destruct (lastRecognised _ l) as [status|] eqn:Elast; simpl; [|done].
    apply lastRecognised_elem_of in Elast. by apply elem_of_nil in Elast.
Qed.
End AssignedStatuses.

Lemma ExplicitOnly_assigns_last_recognised_witness :
  let first : Row := {[ JOB_ID_FIELD := "J1"%string; STATUS_FIELD := "Sold"%string ]} in
  let second : Row := {[ JOB_ID_FIELD := "J1"%string; STATUS_FIELD := "unknown"%string ]} in
  let rows := [first; second] in
  let statusSet := ["Estimating"; "Sold"]%string in
  rows !! 1 = Some second ∧
  ∃ l1 l2,
    sort (compareEntries noDates byteCompare)
      (filter (fun e => jobOf e = second !! JOB_ID_FIELD) (toEntries rows))
    = l1 ++ {| row := second; index := 1 |} :: l2 ∧
    ExplicitOnly.inferStatuses noDates byteCompare rows statusSet !! 1
    = Some (from_option Some (ExplicitOnly.initialStatus statusSet)
              (lastRecognised statusSet (l1 ++ [{| row := second; index := 1 |}]))).
Proof.
  intros first second rows statusSet. split; [reflexivity|].
  apply (ExplicitOnly_assigns_last_recognised noDates byteCompare statusSet rows 1 second).
  reflexivity.
Defined.

(** * The scores in closed form *)

Section ScoreValues.
Context {K : Type} `{EqDecision K}.

Lemma Map_get_Map_set (k k' : K) (v : Z) (m : list (K * Z)) :
  Map_get k (Map_set k' v m) = if decide (k = k') then Some v else Map_get k m.
Proof.
  induction m as [|[k0 v0] m IH]; simpl.
  - by destruct (decide (k = k')).
  - destruct (decide (k' = k0)) as [->|Hne]; simpl.
    + by destruct (decide (k = k0)).
    + destruct (decide (k = k0)) as [->|Hne'].
      * rewrite decide_False; [done|]. congruence.
      * done.
Qed.

Lemma Map_get_Map_update (k k' : K) (f : Z → Z) (m : list (K * Z)) :
  Map_get k (Map_update k' f m) = if decide (k = k') then f <$> Map_get k m else Map_get k m.
Proof.
  unfold Map_update. destruct (Map_get k' m) as [v|] eqn:E.
  - rewrite Map_get_Map_set. destruct (decide (k = k')) as [->|]; [|done]. by rewrite E.
  - destruct (decide (k = k')) as [->|]; [|done]. by rewrite E.
Qed.

(** A loop whose every turn adds some points to the score of [k] adds
    their sum. *)
Lemma foldl_Map_get_add {B : Type} (step : list (K * Z) → B → list (K * Z))
    (points : B → Z) (k : K) (l : list B) (sc : list (K * Z)) :
  (∀ sc x, Map_get k (step sc x) = (fun z => (z + points x)%Z) <$> Map_get k sc) →
  Map_get k (foldl step sc l)
  = (fun z => (z + sumZ (points <$> l))%Z) <$> Map_get k sc.
Proof.
  intros Hstep. revert sc. induction l as [|x l IH]; intros sc; csimpl.
  - destruct (Map_get k sc); simpl; [f_equal; lia|done].
  - rewrite IH, Hstep. destruct (Map_get k sc); simpl; [f_equal; lia|done].
Qed.
End ScoreValues.

Lemma foldl_count_points {B : Type} (hit : B → bool) (l : list B) (score : Z) :
  foldl (fun score x => if hit x then (score + 2)%Z else score) score l
  = (score + sumZ ((fun x => if hit x then 2%Z else 0%Z) <$> l))%Z.
Proof.
  revert score. induction l as [|x l IH]; intros score; csimpl; [lia|].
  rewrite IH. destruct (hit x); lia.
Qed.

Lemma sumZ_nonneg (l : list Z) : Forall (fun z => (0 ≤ z)%Z) l → (0 ≤ sumZ l)%Z.
Proof. induction 1; simpl; lia. Qed.

Lemma zero_scores_get (status : string) (l : list string) (sc : list (string * Z)) :
  Map_get status (foldl (fun scores s => Map_set s 0%Z scores) sc l)
  = if decide (status ∈ l) then Some 0%Z else Map_get status sc.
Proof.
  revert sc. induction l as [|s l IH]; intros sc; csimpl; [done|].
  rewrite IH, Map_get_Map_set. destruct (decide (status = s)) as [->|Hne].
  - rewrite (decide_True (P := s ∈ s :: l)) by left. by destruct (decide (s ∈ l)).
  - destruct (decide (status ∈ l)) as [Hin|Hin].
    + rewrite decide_True; [done|by right].
    + rewrite decide_False; [done|]. rewrite not_elem_of_cons. done.
Qed.

(** The score of a status.  A status outside the order has no score.  A
    status of the order has the points of its keywords on the text of the
    row and the points of the role hints on the role, and nothing else:
    statuses do not take points from one another, and no score is
    negative. *)
Theorem scoreStatuses_points (r : Row) (statusOrder : list string) (status : string) :
  Map_get status (scoreStatuses r statusOrder (buildStatusIndex statusOrder))
  = (if decide (status ∈ statusOrder)
     then Some (keywordPoints status (combineRowText r)
                + rolePoints status (orEmpty (r !! ROLE_FIELD)))%Z
     else None) ∧
  (0 ≤ keywordPoints status (combineRowText r))%Z ∧
  (0 ≤ rolePoints status (orEmpty (r !! ROLE_FIELD)))%Z.
Proof.
  split; [|split].
  - destruct (decide (status ∈ statusOrder)) as [Hin|Hin].
    2:{ destruct (Map_get _ _) as [z|] eqn:E; [|done]. exfalso. apply Hin.
        apply (Set_from_elem_of statusOrder).
        rewrite <-(scoreStatuses_keys r statusOrder (buildStatusIndex statusOrder)).
        apply Map_get_is_Some. by eexists. }
    assert (bool_decide (is_Some (buildStatusIndex statusOrder !! status)) = true) as Hidx
      by by apply bool_decide_eq_true, buildStatusIndex_is_Some.
    unfold scoreStatuses.
    rewrite (foldl_Map_get_add _
               (fun hint =>
                  if test (hint_match hint) (orEmpty (r !! ROLE_FIELD))
                  then sumZ ((fun s => if decide (s = status) then hint_weight hint else 0%Z)
                               <$> hint_statuses hint)
                  else 0%Z)).
    2:{ intros sc hint. destruct (test _ _).
        - apply (foldl_Map_get_add _
                   (fun s => if decide (s = status) then hint_weight hint else 0%Z)).
          intros sc' s. destruct (decide (s = status)) as [->|Hne].
          + rewrite Hidx, Map_get_Map_update, decide_True by done. done.
          + assert (Map_get status
                      (if bool_decide (is_Some (buildStatusIndex statusOrder !! s))
                       then Map_update s (fun z => (z + hint_weight hint)%Z) sc' else sc')
                    = Map_get status sc') as ->.
            { destruct (bool_decide (is_Some (buildStatusIndex statusOrder !! s))); [|done].
              rewrite Map_get_Map_update, decide_False by done. done. }
            destruct (Map_get status sc'); simpl; [f_equal; lia|done].
        - destruct (Map_get status sc); simpl; [f_equal; lia|done]. }
    rewrite (foldl_Map_get_add _
               (fun '(s, patterns) =>
                  if decide (s = status)
                  then sumZ ((fun pattern => if test pattern (combineRowText r)
                                             then 2%Z else 0%Z) <$> patterns)
                  else 0%Z)).
    2:{ intros sc [s patterns]. rewrite foldl_count_points, Z.add_0_l.
        set (score := sumZ _).
        destruct (decide (s = status)) as [->|Hne].
        - rewrite Hidx. destruct (0 <? score)%Z eqn:Epos.
          + rewrite Map_get_Map_update, decide_True by done. done.
          + assert (score = 0%Z) as ->.
            { apply Z.ltb_ge in Epos. assert (0 ≤ score)%Z; [|lia].
              apply sumZ_nonneg, Forall_fmap, Forall_forall. intros p _. simpl.
              destruct (test _ _); lia. }
            destruct (Map_get status sc); simpl; [f_equal; lia|done].
        - assert (Map_get status
                    (if bool_decide (is_Some (buildStatusIndex statusOrder !! s))
                     then if (0 <? score)%Z
                          then Map_update s (fun z => (z + score)%Z) sc else sc
                     else sc)
                  = Map_get status sc) as ->.
          { destruct (bool_decide (is_Some (buildStatusIndex statusOrder !! s))); [|done]. destruct (0 <? score)%Z; [|done].
            rewrite Map_get_Map_update, decide_False by done. done. }
          destruct (Map_get status sc); simpl; [f_equal; lia|done]. }
    rewrite zero_scores_get, decide_True by done. simpl. done.
  - apply sumZ_nonneg, Forall_fmap, Forall_forall. intros [s patterns] _. simpl.
    destruct (decide (s = status)); [|lia].
    apply sumZ_nonneg, Forall_fmap, Forall_forall. intros p _. simpl.
    destruct (test _ _); lia.
  - apply sumZ_nonneg, Forall_fmap, Forall_forall. intros hint Hhint. simpl.
    destruct (test _ _); [|lia].
    apply sumZ_nonneg, Forall_fmap, Forall_forall. intros s _. simpl.
    destruct (decide (s = status)); [|lia].
    assert (Forall (fun hint => (0 ≤ hint_weight hint)%Z) ROLE_STATUS_MAP) as Hw
      by (repeat constructor; simpl; lia).
    rewrite Forall_forall in Hw. by apply Hw.
Qed.

(** * Blank rows and the command line *)

(** A data row whose values are all empty, a blank line of the input in
    particular, becomes an empty row, whatever the headers.  Under
    headers that are distinct and not [__proto__], the empty rows are
    exactly the data rows that have no text under any header: a value
    past the last header does not count. *)
Theorem rowObject_isEmptyRow (headers values : list string) :
  (Forall (fun value => value = EmptyString) values →
   isEmptyRow (rowObject headers values) = true) ∧
  (NoDup headers → "__proto__"%string ∉ headers →
   (isEmptyRow (rowObject headers values) = true ↔
    Forall (fun value => value = EmptyString) (padTo headers values))).
Proof.
  unfold isEmptyRow. split.
  - intros Hall. apply bool_decide_eq_true. intros h v Hv.
    apply rowObject_lookup_last in Hv as (_ & i & _ & _ & ->).
    destruct (values !! i) as [value|] eqn:E; [|done]. simpl.
    rewrite Forall_forall in Hall. apply Hall. by eapply list_elem_of_lookup_2.
  - intros Hnd Hproto. rewrite bool_decide_eq_true. unfold padTo.
    rewrite Forall_fmap, Forall_forall. split.
    + intros Hall i [_ Hi]%elem_of_seq. simpl in *.
      destruct (lookup_lt_is_Some_2 headers i Hi) as [h Hh].
      apply (Hall h). apply rowObject_lookup_last. split.
      * intros ->. apply Hproto. by eapply list_elem_of_lookup_2.
      * exists i. split; [done|]. split; [|done]. intros j Hj Hjh.
        pose proof (NoDup_lookup _ _ _ _ Hnd Hh Hjh). lia.
    + intros Hall h v Hv.
      apply rowObject_lookup_last in Hv as (_ & i & Hi & _ & ->).
      apply (Hall i). apply elem_of_seq. apply lookup_lt_Some in Hi. lia.
Qed.

(** Options other than the input option leave the input as it is. *)
Lemma parseArgsFrom_no_input (rest : list string) :
  (Forall (fun arg => arg ≠ "--input"%string ∧ arg ≠ "-i"%string) rest →
   ∀ args, args_input (parseArgsFrom rest args) = args_input args) ∧
  (∀ arg,
     Forall (fun arg => arg ≠ "--input"%string ∧ arg ≠ "-i"%string) (arg :: rest) →
     ∀ args, args_input (parseArgsFrom (arg :: rest) args) = args_input args).
Proof.
  induction rest as [|next rest [IH1 IH2]].
  - split; [done|]. intros arg [Harg _]%Forall_cons args. simpl.
    rewrite decide_False by tauto. by destruct (decide _).
  - split; [apply IH2|]. intros arg [Harg Hrest]%Forall_cons args.
    change (parseArgsFrom (arg :: next :: rest) args)
      with (if decide (arg = "--input"%string ∨ arg = "-i"%string)
            then parseArgsFrom rest
                   {| args_input := Some next; args_outputDir := args_outputDir args |}
            else if decide (arg = "--output-dir"%string ∨ arg = "-o"%string)
            then parseArgsFrom rest
                   {| args_input := args_input args; args_outputDir := Some next |}
            else parseArgsFrom (next :: rest) args).
    rewrite decide_False by tauto. destruct (decide _).
    + rewrite IH1; [done|]. by apply Forall_cons in Hrest as [_ ?].
    + by apply IH2.
Qed.

Section Usage.
Variable readFileSync : string → option string.
Variable existsSync : string → bool.
Variable mkdirSync : string → bool.
Variable writeFileSync : string → string → bool.
Variable resolveFromCwd : string → string.
Variable path_join : string → string → string.
Variable path_basename : string → string.
Variable path_dirname : string → string.
Variables (ORDER_FILE DEFAULT_OUTPUT_DIR : string).
Variable inheritedText : string → option string.
Variable infer : list Row → list string → gmap nat (option string).

(** Without an input option among its arguments, [main] prints the usage
    and exits with code 1: it reads no file and writes none.  A path
    given without the option is not taken as the input. *)
Theorem main_usage (argv : list string) :
  Forall (fun arg => arg ≠ "--input"%string ∧ arg ≠ "-i"%string) (drop 2 argv) →
  mainWith readFileSync existsSync mkdirSync writeFileSync resolveFromCwd path_join
    path_basename path_dirname ORDER_FILE DEFAULT_OUTPUT_DIR inheritedText infer argv
  = Exit 1 USAGE.
Proof.
  intros Hargs. unfold mainWith, parseArgs.
  destruct (parseArgsFrom_no_input (drop 2 argv)) as [-> _]; done.
Qed.
End Usage.

Lemma main_usage_witness :
  let argv := ["node"; "inferStatus.js"; "in.csv"; "-o"; "out"]%string in
  Forall (fun arg => arg ≠ "--input"%string ∧ arg ≠ "-i"%string) (drop 2 argv) ∧
  main (fun _ => None) (fun _ => false) (fun _ => false) (fun _ _ => false) (fun p => p)
    (fun a b => a) (fun p => p) (fun p => p)
    "order.csv" "out" (fun _ => None) noDates byteCompare argv
  = Exit 1 USAGE.
Proof.
  intros argv. split; [repeat constructor; discriminate|].
  apply (main_usage (fun _ => None) (fun _ => false) (fun _ => false) (fun _ _ => false)
           (fun p => p) (fun a b => a) (fun p => p) (fun p => p)
           "order.csv" "out" (fun _ => None)).
  repeat constructor; discriminate.
Defined.

(** * Jobs are tracked apart *)

Section Apart.
Variable Date_parse : string → option Z.
Variable localeCompare : string → string → Z.
Context {St : Type} (next : St → Entry → St) (out : St → Entry → option string).
Context (body : St * gmap nat (option string) → Entry → St * gmap nat (option string)).
Hypothesis body_shape : ∀ st asg e, body (st, asg) e = (next st e, <[index e := out st e]> asg).
Variable init : St.

Local Abbreviation compareFn := (compareEntries Date_parse localeCompare).

(** Rows of other jobs after the input leave the group of a row as it
    is. *)
Lemma group_app_other_jobs (rows extra : list Row) (k : option string) :
  Forall (fun x => x !! JOB_ID_FIELD ≠ k) extra →
  filter (fun e => jobOf e = k) (toEntries (rows ++ extra))
  = filter (fun e => jobOf e = k) (toEntries rows).
Proof.
  intros Hextra. unfold toEntries. rewrite imap_app, filter_app.
  rewrite (filter_none _ (imap _ extra)); [by rewrite app_nil_r|].
  intros e (j & x & -> & Hx)%elem_of_lookup_imap. unfold jobOf. simpl.
  rewrite Forall_forall in Hextra. apply Hextra. by eapply list_elem_of_lookup_2.
Qed.

Lemma forEachGroup_app_other_jobs (rows extra : list Row) (i : nat) (r : Row) :
  rows !! i = Some r →
  Forall (fun x => x !! JOB_ID_FIELD ≠ r !! JOB_ID_FIELD) extra →
  forEachGroup compareFn init body (groupRows (rows ++ extra)) !! i
  = forEachGroup compareFn init body (groupRows rows) !! i.
Proof.
  intros Hr Hextra.
  assert ((rows ++ extra) !! i = Some r) as Hr' by by apply lookup_app_l_Some.
  destruct (forEachGroup_rows_lookup Date_parse localeCompare next out body body_shape
              init rows i r Hr) as (l1 & l2 & Hsort & ->).
  destruct (forEachGroup_rows_lookup Date_parse localeCompare next out body body_shape
              init (rows ++ extra) i r Hr') as (l1' & l2' & Hsort' & ->).
  rewrite group_app_other_jobs in Hsort' by done. rewrite Hsort in Hsort'.
  assert (l1 = l1') as ->; [|done].
  apply (NoDup_split_inj l1 l2 l1' l2' {| row := r; index := i |}); [|done].
  rewrite <-Hsort, sort_Permutation. apply NoDup_filter, toEntries_NoDup.
Qed.
End Apart.

Section ApartClaims.
Variable Date_parse : string → option Z.
Variable localeCompare : string → string → Z.

(** Rows of other jobs do not reach the status of a row: with rows of
    other jobs added after the input, both variants assign the row the
    status they assigned it before. *)
Theorem other_jobs_leave_assignment (orderList : list string) (rows extra : list Row)
    (i : nat) (r : Row) :
  rows !! i = Some r →
  Forall (fun x => x !! JOB_ID_FIELD ≠ r !! JOB_ID_FIELD) extra →
  run Date_parse localeCompare orderList (rows ++ extra) !! i
  = run Date_parse localeCompare orderList rows !! i ∧
  ExplicitOnly.run Date_parse localeCompare orderList (rows ++ extra) !! i
  = ExplicitOnly.run Date_parse localeCompare orderList rows !! i.
Proof.
  intros Hr Hextra. split.
  - apply (forEachGroup_app_other_jobs Date_parse localeCompare _ _ _
             (processEntry_shape orderList (buildStatusIndex orderList)) _ rows extra i r);
      done.
  - apply (forEachGroup_app_other_jobs Date_parse localeCompare _ _ _
             (ExplicitOnly_processEntry_shape (buildStatusSet orderList)) _ rows extra i r);
      done.
Qed.
End ApartClaims.

Lemma other_jobs_leave_assignment_witness :
  let first : Row := {[ JOB_ID_FIELD := "J1"%string; STATUS_FIELD := "Estimating"%string ]} in
  let other : Row := {[ JOB_ID_FIELD := "J2"%string; STATUS_FIELD := "Sold"%string ]} in
  let orderList := ["Estimating"; "Sold"]%string in
  [first] !! 0 = Some first ∧
  Forall (fun x => x !! JOB_ID_FIELD ≠ first !! JOB_ID_FIELD) [other] ∧
  run noDates byteCompare orderList ([first] ++ [other]) !! 0
  = run noDates byteCompare orderList [first] !! 0 ∧
  ExplicitOnly.run noDates byteCompare orderList ([first] ++ [other]) !! 0
  = ExplicitOnly.run noDates byteCompare orderList [first] !! 0.
Proof.
  intros first other orderList.
  assert (Forall (fun x => x !! JOB_ID_FIELD ≠ first !! JOB_ID_FIELD) [other]) as Hother.
  { apply Forall_singleton. vm_compute. discriminate. }
  split; [reflexivity|]. split; [exact Hother|].
  apply (other_jobs_leave_assignment noDates byteCompare orderList [first] [other] 0 first);
    [reflexivity|exact Hother].
Defined.

(** * The case of letters *)

Lemma isWhiteSpace_toLowerAscii (c : ascii) :
  Str.isWhiteSpace (Str.toLowerAscii c) = Str.isWhiteSpace c.
Proof. destruct c as [[] [] [] [] [] [] [] []]; reflexivity. Qed.

Lemma trimmedNonEmpty_toLowerCase (s : string) :
  Str.trimmedNonEmpty (Str.toLowerCase s) = Str.trimmedNonEmpty s.
Proof.
  induction s as [|c s IH]; [done|]. simpl. by rewrite isWhiteSpace_toLowerAscii, IH.
Qed.

Lemma toLowerCase_app (a b : string) :
  Str.toLowerCase (a +:+ b) = (Str.toLowerCase a +:+ Str.toLowerCase b)%string.
Proof. induction a as [|c a IH]; [done|]. simpl. by rewrite IH. Qed.

Lemma toLowerCase_concat (sep : string) (l : list string) :
  Str.toLowerCase (String.concat sep l)
  = String.concat (Str.toLowerCase sep) (Str.toLowerCase <$> l).
Proof.
  induction l as [|x l IH]; [done|]. destruct l as [|y l]; [done|].
  change (String.concat sep (x :: y :: l))
    with (x +:+ sep +:+ String.concat sep (y :: l))%string.
  rewrite !toLowerCase_app, IH. done.
Qed.

Lemma foldl_ext_Forall {A B : Type} (f g : A → B → A) (l : list B) (a : A) :
  Forall (fun x => ∀ a, f a x = g a x) l → foldl f a l = foldl g a l.
Proof.
  intros Hall. revert a. induction Hall as [|x l Hx _ IH]; intros a; [done|].
  simpl. by rewrite Hx, IH.
Qed.

(** The text of a row is in lower case, and is the text of every row
    that differs from it in case only. *)
Lemma combineRowText_sameUpToCase (r r' : Row) :
  (∀ f, f ∈ [STATUS_FIELD; ROLE_FIELD; DESCRIPTION_FIELD; "additionalFields"%string] →
        sameUpToCase (r !! f) (r' !! f)) →
  combineRowText r = combineRowText r'.
Proof.
  intros Hsame. unfold combineRowText. cbv zeta. rewrite !toLowerCase_concat. f_equal.
  assert (∀ a b : option string,
            sameUpToCase a b →
            Str.toLowerCase <$> (match a with
                                 | Some s => if Str.trimmedNonEmpty s then Some s else None
                                 | None => None
                                 end)
            = Str.toLowerCase <$> (match b with
                                   | Some s => if Str.trimmedNonEmpty s then Some s else None
                                   | None => None
                                   end)) as Hkeep.
  { intros [a|] [b|] Hab; try done. injection Hab as Hab.
    rewrite <-(trimmedNonEmpty_toLowerCase a), <-(trimmedNonEmpty_toLowerCase b), Hab.
    destruct (Str.trimmedNonEmpty _); simpl; by rewrite ?Hab. }
  assert (sameUpToCase (Some (orEmpty (r !! "additionalFields"%string)))
                       (Some (orEmpty (r' !! "additionalFields"%string)))) as Hadd.
  { pose proof (Hsame "additionalFields"%string ltac:(set_solver)) as H.
    unfold sameUpToCase in *.
    destruct (r !! "additionalFields"%string), (r' !! "additionalFields"%string);
      simpl in *; done. }
  pose proof (Hkeep _ _ (Hsame STATUS_FIELD ltac:(set_solver))) as H1.
  pose proof (Hkeep _ _ (Hsame ROLE_FIELD ltac:(set_solver))) as H2.
  pose proof (Hkeep _ _ (Hsame DESCRIPTION_FIELD ltac:(set_solver))) as H3.
  pose proof (Hkeep _ _ Hadd) as H4.
  cbn [omap list_omap]. 
  repeat match goal with
         | H : Str.toLowerCase <$> ?a = Str.toLowerCase <$> ?b |- _ =>
             destruct a, b; simpl in H; try discriminate H; try injection H as H
         end; simpl; congruence.
Qed.

Lemma test_ignoreCase (pattern : RegExp) (a b : string) :
  ignoreCase pattern = true →
  Str.toLowerCase a = Str.toLowerCase b →
  test pattern a = test pattern b.
Proof. intros Hic Hab. unfold test. by rewrite Hic, Hab. Qed.

(** The signals of a row do not see the case of its letters.  Two rows
    that differ only in case, in the status, the role, the description
    and the additional fields, have the same scores, the same cap and
    the same status picked from the signals: the keyword patterns are
    written in lower case and meet a text in lower case, and the role
    patterns ignore case. *)
Theorem signals_ignore_case (r r' : Row) (statusOrder : list string)
    (statusIndex : gmap string nat) (floorIdx capIdx : nat) :
  (∀ f, f ∈ [STATUS_FIELD; ROLE_FIELD; DESCRIPTION_FIELD; "additionalFields"%string] →
        sameUpToCase (r !! f) (r' !! f)) →
  scoreStatuses r statusOrder statusIndex = scoreStatuses r' statusOrder statusIndex ∧
  roleCapIndex r statusIndex floorIdx = roleCapIndex r' statusIndex floorIdx ∧
  pickStatusFromSignals r floorIdx capIdx statusOrder statusIndex
  = pickStatusFromSignals r' floorIdx capIdx statusOrder statusIndex.
Proof.
  intros Hsame.
  assert (Str.toLowerCase (orEmpty (r !! ROLE_FIELD))
          = Str.toLowerCase (orEmpty (r' !! ROLE_FIELD))) as Hrole.
  { pose proof (Hsame ROLE_FIELD ltac:(set_solver)) as H. unfold sameUpToCase in H.
    destruct (r !! ROLE_FIELD), (r' !! ROLE_FIELD); simpl in *; congruence. }
  assert (scoreStatuses r statusOrder statusIndex
          = scoreStatuses r' statusOrder statusIndex) as Hscores.
  { unfold scoreStatuses. cbv zeta.
    rewrite (combineRowText_sameUpToCase r r' Hsame).
    apply foldl_ext_Forall.
    assert (Forall (fun hint => ignoreCase (hint_match hint) = true) ROLE_STATUS_MAP) as Hic
      by (repeat constructor).
    eapply Forall_impl; [exact Hic|]. intros hint Hhint scores. simpl.
    by rewrite (test_ignoreCase _ _ _ Hhint Hrole). }
  split; [done|]. split.
  - unfold roleCapIndex. cbv zeta.
    assert (foldl (capStep (orEmpty (r !! ROLE_FIELD)) statusIndex) None ROLE_MAX_STATUS
            = foldl (capStep (orEmpty (r' !! ROLE_FIELD)) statusIndex) None ROLE_MAX_STATUS)
      as ->; [|done].
    apply foldl_ext_Forall.
    assert (Forall (fun cap => ignoreCase (cap_match cap) = true) ROLE_MAX_STATUS) as Hic
      by (repeat constructor).
    eapply Forall_impl; [exact Hic|]. intros cap Hcap c. unfold capStep.
    by rewrite (test_ignoreCase _ _ _ Hcap Hrole).
  - unfold pickStatusFromSignals. by rewrite Hscores.
Qed.

Lemma signals_ignore_case_witness :
  let r : Row := {[ ROLE_FIELD := "Field Technician"%string ]} in
  let r' : Row := {[ ROLE_FIELD := "FIELD technician"%string ]} in
  let statusIndex := buildStatusIndex canonicalOrder in
  (∀ f, f ∈ [STATUS_FIELD; ROLE_FIELD; DESCRIPTION_FIELD; "additionalFields"%string] →
        sameUpToCase (r !! f) (r' !! f)) ∧
  scoreStatuses r canonicalOrder statusIndex = scoreStatuses r' canonicalOrder statusIndex ∧
  roleCapIndex r statusIndex 0 = roleCapIndex r' statusIndex 0 ∧
  pickStatusFromSignals r 0 5 canonicalOrder statusIndex
  = pickStatusFromSignals r' 0 5 canonicalOrder statusIndex.
Proof.
  intros r r' statusIndex.
  assert (∀ f, f ∈ [STATUS_FIELD; ROLE_FIELD; DESCRIPTION_FIELD; "additionalFields"%string] →
               sameUpToCase (r !! f) (r' !! f)) as Hsame.
  { intros f Hf. repeat (apply elem_of_cons in Hf as [->|Hf]; [reflexivity|]).
    by apply elem_of_nil in Hf. }
  split; [exact Hsame|].
  apply (signals_ignore_case r r' canonicalOrder statusIndex 0 5 Hsame).
Defined.

(** * An empty row among the rows of a job *)





Section EmptyRows.
Variables (Date_parse : string → option Z) (localeCompare : string → string → Z).
Variable statusOrder : list string.
Local Abbreviation statusIndex := (buildStatusIndex statusOrder).
Local Abbreviation compareFn := (compareEntries Date_parse localeCompare).
Local Abbreviation before := (keyBefore Date_parse localeCompare).
Local Abbreviation start :=
  (initialCursor (buildStatusSet statusOrder) (buildStatusIndex statusOrder)).
Local Abbreviation next := (nextCursor statusOrder (buildStatusIndex statusOrder)).



End EmptyRows.

Section EmptyRowClaim.
Variables (Date_parse : string → option Z) (localeCompare : string → string → Z).
Variable statusOrder : list string.
Local Abbreviation statusIndex := (buildStatusIndex statusOrder).
Local Abbreviation body := (processEntry statusOrder (buildStatusIndex statusOrder)).

End EmptyRowClaim.


